(** * eonasm: a shallow embedding of the eon classical assembler

    The definitions below follow [eonasm.c] function by function.  Machine
    integers are [Z] with the wrap-around written out, characters are their
    codes in [Z], the line buffer is a list of character codes indexed by a
    position in [nat], and the process-wide variables of the C program are
    gathered in the record [state].

    What the embedding fixes where C leaves a choice or says nothing:
    - reading, writing and opening files never fail; a file is the list of
      its bytes;
    - [main] is taken with none of its options given, so that the progress
      messages and the report of unused labels, which [-v] and [-u] turn on,
      are never written; what goes to standard output (the usage text, the
      listing, the line of statistics) is left out; standard error is kept
      as the list of the lines written to it;
    - division by zero in an expression and the copy of a label name longer
      than its field have no defined behaviour: the outcome is [Undef];
    - arithmetic on [int] wraps around, and a shift of a negative [int] is the
      arithmetic one;
    - a read past the end of a buffer gives 0, and the variables C leaves
      uninitialised ([va] of a line, [sval[0]] of an empty expression) start
      at 0; the code never uses them before writing them;
    - loops that C leaves unbounded take a number of rounds, the fuel, and
      give [NoFuel] when it is used up. *)

From Stdlib Require Import ZArith String Ascii List Bool Lia.
Import ListNotations.
Local Open Scope Z_scope.

(** ** Machine integers and characters *)

Definition uint8 (x : Z) : Z := x mod 256.
Definition uint16 (x : Z) : Z := x mod 65536.
Definition uint32 (x : Z) : Z := x mod 4294967296.

(** Conversion to [int] (two's complement, 32 bits). *)
Definition int32 (x : Z) : Z :=
  let y := uint32 x in if y <? 2147483648 then y else y - 4294967296.

Definition ch (c : ascii) : Z := Z.of_N (N_of_ascii c).
Arguments ch c%_char.

Definition bytes_of_string (s : string) : list Z := map ch (list_ascii_of_string s).

(** The character at position [p] of a buffer; past the end reads as the
    terminator. *)
Definition peek (buf : list Z) (p : nat) : Z := nth p buf 0.

(** [a[i] = x] on an array kept as a list; out of range leaves it alone. *)
Fixpoint upd {A : Type} (i : nat) (x : A) (l : list A) : list A :=
  match l, i with
  | [], _ => []
  | _ :: t, O => x :: t
  | h :: t, S j => h :: upd j x t
  end.

(** The longest prefix of [l] whose elements satisfy [f]: the characters
    a scanning loop walks over while its test holds. *)
Fixpoint span (f : Z -> bool) (l : list Z) : list Z :=
  match l with
  | [] => []
  | c :: t => if f c then c :: span f t else []
  end.

(** ** ctype support *)

Definition isdigit (c : Z) : bool := uint32 (c - ch "0") <? 10.
Definition isalpha (c : Z) : bool := uint32 (Z.lor (uint32 c) 32 - ch "a") <? 26.
Definition isalnum (c : Z) : bool := isalpha c || isdigit c.
Definition islower (c : Z) : bool := uint32 (c - ch "a") <? 26.
Definition toupper (c : Z) : Z := if islower c then Z.land c 0x5f else c.

(** A blank: not the terminator and at most the space character. *)
Definition isblank (c : Z) : bool := negb (c =? 0) && (c <=? 32).

Definition skip_blanks (buf : list Z) (p : nat) : nat :=
  (p + length (span isblank (skipn p buf)))%nat.

(** ** Format engine: the [%b] and [%w] conversions of [fmt] *)

Definition hdigit : list Z := bytes_of_string "0123456789ABCDEF".

Definition hex1 (n : Z) : Z := nth (Z.to_nat (Z.land n 15)) hdigit 0.

Definition fmt_b (n : Z) : list Z := [hex1 (Z.shiftr n 4); hex1 n].

Definition fmt_w (n : Z) : list Z :=
  [hex1 (Z.shiftr n 12); hex1 (Z.shiftr n 8); hex1 (Z.shiftr n 4); hex1 n].

(** ** Labels *)

Definition MAX_LINE : Z := 128.
Definition MAX_ERRORS : Z := 8.
Definition MAX_LABELS : Z := 256.
Definition MAX_CHAR_LABEL : Z := 22.
Definition OUTPUT_LINE_BYTES : Z := 32.

Definition LABEL_USED : Z := 1.
Definition LABEL_EQU : Z := 2.

(** [struct label_t]; [name] holds the [len] stored characters. *)
Record label : Type := mkLabel {
  value : Z;
  lbegin : Z;
  lend : Z;
  flags : Z;
  len : Z;
  name : list Z
}.

Definition label0 : label := mkLabel 0 0 0 0 0 [].

(** ** Process state *)

(** A line written to standard error: a counted diagnostic of [error], the
    message of a fatal exit, or the line [eonasm: n errors.] that [main]
    writes before it returns 1. *)
Inductive diag : Type :=
| Error (lineno : Z) (msg : string)
| Fatal (msg : string)
| Summary (n : Z).

Record state : Type := mkState {
  errcount : Z;              (* errcount *)
  stderr : list diag;        (* what was printed to standard error, oldest first *)
  tlabel : list label;       (* tlabel[MAX_LABELS] *)
  nlabel : Z;                (* nlabel *)
  lstack : Z;                (* lstack *)
  line : list Z;             (* line[OUTPUT_LINE_BYTES] *)
  pending : Z;
  basepc : Z;
  outpc : Z;
  ofile : list Z;            (* the contents of the output file *)
  buffer : list Z;           (* static buffer[MAX_LINE] of assemble *)
  more : bool                (* the variable behind pmore *)
}.

Definition initial_state : state :=
  mkState 0 [] (repeat label0 256) 0 MAX_LABELS (repeat 0 32) 0 0 0 [] (repeat 0 128) false.

Definition set_diag (s : state) (n : Z) (e : list diag) : state :=
  mkState n e (tlabel s) (nlabel s) (lstack s) (line s) (pending s) (basepc s)
          (outpc s) (ofile s) (buffer s) (more s).

Definition set_labels (s : state) (t : list label) (n l : Z) : state :=
  mkState (errcount s) (stderr s) t n l (line s) (pending s) (basepc s)
          (outpc s) (ofile s) (buffer s) (more s).

Definition set_image (s : state) (ln : list Z) (pe ba ou : Z) (f : list Z) : state :=
  mkState (errcount s) (stderr s) (tlabel s) (nlabel s) (lstack s) ln pe ba ou f
          (buffer s) (more s).

Definition set_buffer (s : state) (b : list Z) : state :=
  mkState (errcount s) (stderr s) (tlabel s) (nlabel s) (lstack s) (line s)
          (pending s) (basepc s) (outpc s) (ofile s) b (more s).

Definition set_more (s : state) (m : bool) : state :=
  mkState (errcount s) (stderr s) (tlabel s) (nlabel s) (lstack s) (line s)
          (pending s) (basepc s) (outpc s) (ofile s) (buffer s) m.

(** ** Outcomes

    A computation either returns, or the process leaves through [exit (1)],
    or the C program has no defined behaviour there (division by zero, a write
    past an array), or the model ran out of fuel. *)

Inductive outcome (A : Type) : Type :=
| Ok (a : A) (s : state)
| Exit (s : state)
| Undef
| NoFuel.
Arguments Ok {A} a s.
Arguments Exit {A} s.
Arguments Undef {A}.
Arguments NoFuel {A}.

Definition M (A : Type) : Type := state -> outcome A.

Definition ret {A : Type} (a : A) : M A := fun s => Ok a s.

Definition bind {A B : Type} (m : M A) (k : A -> M B) : M B :=
  fun s => match m s with
           | Ok a s' => k a s'
           | Exit s' => Exit s'
           | Undef => Undef
           | NoFuel => NoFuel
           end.

Notation "x <- m ;; k" := (bind m (fun x => k))
  (at level 61, m at next level, right associativity).
Notation "m ;;; k" := (bind m (fun _ => k))
  (at level 61, right associativity).

Definition get {A : Type} (f : state -> A) : M A := fun s => Ok (f s) s.
Definition modify (f : state -> state) : M unit := fun s => Ok tt (f s).
Definition undefined {A : Type} : M A := fun _ => Undef.

(** [error]: print, count, and leave once [MAX_ERRORS] is reached. *)
Definition error (lineno : Z) (msg : string) : M unit :=
  fun s =>
    let s' := set_diag s (uint32 (errcount s + 1)) (stderr s ++ [Error lineno msg]) in
    if errcount s' >=? MAX_ERRORS then Exit s' else Ok tt s'.

(** A fatal exit: print the message and [exit (1)]. *)
Definition fatal {A : Type} (msg : string) : M A :=
  fun s => Exit (set_diag s (errcount s) (stderr s ++ [Fatal msg])).

Definition when (b : bool) (m : M unit) : M unit := if b then m else ret tt.

(** ** Output image *)

(** [iprint]: append to the output file. *)
Definition iprint (txt : list Z) (s : state) : state :=
  set_image s (line s) (pending s) (basepc s) (outpc s) (ofile s ++ txt).

(** The text of the data record [emit_flush] writes for the pending bytes. *)
Definition record_text (s : state) : list Z :=
  let data := map uint8 (firstn (Z.to_nat (pending s)) (line s)) in
  let crc0 := uint8 (pending s + Z.shiftr (basepc s) 8 + basepc s) in
  let crc := fold_left (fun c byte => uint8 (c + byte)) data crc0 in
  ch ":" :: fmt_b (pending s) ++ fmt_w (basepc s) ++ [ch "0"; ch "0"]
    ++ flat_map fmt_b data
    ++ fmt_b (Z.land (0 - crc) 255) ++ [ch "010"].

Definition emit_flush (s : state) : state :=
  if pending s =? 0 then s
  else
    let s1 := iprint (record_text s) s in
    set_image s1 (line s1) 0 (basepc s1) (outpc s1) (ofile s1).

Definition emit (at_ : Z) (byte : Z) (s : state) : state :=
  let at_ := uint16 at_ in
  let byte := uint8 byte in
  let s1 :=
    if (pending s >=? OUTPUT_LINE_BYTES) || negb (at_ =? outpc s) then
      let s' := emit_flush s in
      set_image s' (line s') (pending s') at_ at_ (ofile s')
    else s in
  set_image s1 (upd (Z.to_nat (pending s1)) byte (line s1))
            (uint32 (pending s1 + 1)) (basepc s1) (uint32 (outpc s1 + 1)) (ofile s1).

Definition emit_done (s : state) : state :=
  iprint (bytes_of_string ":00000001FF" ++ [ch "010"]) (emit_flush s).

(** [output_to]: the output file is created anew. *)
Definition output_to (s : state) : state :=
  set_image s (line s) (pending s) (basepc s) (outpc s) [].

(** ** Labels: [find_label] and [add_label]

    A [label_t] pointer is the index of the entry in [tlabel]; [None] is the
    null pointer.  An identifier is the list of its characters. *)

Definition get_label (s : state) (i : nat) : label := nth i (tlabel s) label0.

Definition set_label (i : nat) (l : label) (s : state) : state :=
  set_labels s (upd i l (tlabel s)) (nlabel s) (lstack s).

(** [!memcmp (id, name, len)] with [len] the length of [id]. *)
Fixpoint memeq (id nm : list Z) : bool :=
  match id, nm with
  | [], _ => true
  | x :: id', y :: nm' => (x =? y) && memeq id' nm'
  | _ :: _, [] => false
  end.

(** The search loop of [find_label] from index [i], [n] entries to go. *)
Fixpoint find_from (s : state) (id : list Z) (n : nat) (i : nat) : option nat :=
  match n with
  | O => None
  | S n' =>
      let l := get_label s i in
      if (Z.of_nat (length id) =? len l) && memeq id (name l) then Some i
      else find_from s id n' (S i)
  end.

Definition find_label (s : state) (master : option nat) (id : list Z) : option nat :=
  let id := firstn (Z.to_nat MAX_CHAR_LABEL) id in
  let i := match master with Some m => lbegin (get_label s m) | None => 0 end in
  let e := match master with Some m => lend (get_label s m) | None => nlabel s end in
  find_from s id (Z.to_nat (e - i)) (Z.to_nat i).

(** [add_label]; the [memcpy] of an identifier longer than the [name] field
    writes past it, which is left undefined here. *)
Definition add_label (master : option nat) (id : list Z) (at_ : Z) : M nat :=
  fun s =>
    if nlabel s >=? lstack s then fatal "too many labels" s
    else if Z.of_nat (length id) >? MAX_CHAR_LABEL then Undef
    else
      match master with
      | Some m =>
          let ls := uint32 (lstack s - 1) in
          let i := Z.to_nat ls in
          let s1 := set_labels s (tlabel s) (nlabel s) ls in
          let ml := get_label s1 m in
          let s2 := set_label m (mkLabel (value ml) (uint16 ls) (lend ml) (flags ml)
                                         (len ml) (name ml)) s1 in
          let l := get_label s2 i in
          Ok i (set_label i (mkLabel (uint32 at_) (lbegin l) (lend l) (flags l)
                                     (Z.of_nat (length id)) id) s2)
      | None =>
          let i := Z.to_nat (nlabel s) in
          let s1 := set_labels s (tlabel s) (uint32 (nlabel s + 1)) (lstack s) in
          let l := get_label s1 i in
          Ok i (set_label i (mkLabel (uint32 at_) (uint16 (lstack s1)) (uint16 (lstack s1))
                                     (flags l) (Z.of_nat (length id)) id) s1)
      end.

Definition set_value (i : nat) (v : Z) (s : state) : state :=
  let l := get_label s i in
  set_label i (mkLabel v (lbegin l) (lend l) (flags l) (len l) (name l)) s.

Definition or_flags (i : nat) (f : Z) (s : state) : state :=
  let l := get_label s i in
  set_label i (mkLabel (value l) (lbegin l) (lend l) (uint8 (Z.lor (flags l) f))
                       (len l) (name l)) s.

(** ** Expression parser *)

(** What one round of the loop of [expr] read: an element with its value [v]
    and operator [op] (zero for a value) and the position after it, or the
    position (possibly null) with which the loop is left. *)
Inductive item : Type :=
| Item (v op : Z) (p : nat)
| Break (p : option nat).

Definition ishex (c : Z) : bool :=
  ((ch "0" <=? c) && (c <=? ch "9")) || ((ch "a" <=? c) && (c <=? ch "f"))
  || ((ch "A" <=? c) && (c <=? ch "F")).

Definition hexval (c : Z) : Z :=
  if (ch "0" <=? c) && (c <=? ch "9") then c - ch "0"
  else if (ch "a" <=? c) && (c <=? ch "f") then c - ch "a" + 10
  else if (ch "A" <=? c) && (c <=? ch "F") then c - ch "A" + 10
  else -1.

Definition isbinop (c : Z) : bool :=
  (c =? ch "+") || (c =? ch "-") || (c =? ch "&") || (c =? ch "|")
  || (c =? ch "*") || (c =? ch "%") || (c =? ch "/").

Definition isident (c : Z) : bool := (c =? ch "_") || isalnum c.

Definition is_null {A : Type} (o : option A) : bool :=
  match o with Some _ => false | None => true end.

Section Expr.

Variable lineno : Z.
Variable mainlbl : option nat.
Variable allow_undef : bool.
Variable pc : Z.
Variable buf : list Z.

(** The "parse item" part of the loop body; [rec] is [expr] itself, called
    on a parenthesis. *)
Definition element (rec : nat -> M (option nat * Z)) (p : nat) : M item :=
  let c := peek buf p in
  if c =? ch "(" then
    vp <- rec (S p) ;;
    match fst vp with
    | None => ret (Break None)
    | Some q =>
        if negb (peek buf q =? ch ")") then ret (Break (Some (S q)))
        else ret (Item (snd vp) 0 (S q))
    end
  else if c =? ch "$" then
    if peek buf (S p) =? ch "$" then ret (Item pc 0 (S (S p)))
    else
      let ds := span ishex (skipn (S p) buf) in
      let v := fold_left (fun v c => uint32 (Z.lor (Z.shiftl v 4) (hexval c))) ds 0 in
      ret (Item v 0 (S p + length ds)%nat)
  else if isdigit c || ((c =? ch "-") && isdigit (peek buf (S p))) then
    let minus := c =? ch "-" in
    let p1 := if minus then S p else p in
    let ds := span isdigit (skipn p1 buf) in
    let v := fold_left (fun v c => uint32 (v * 10 + c - ch "0")) ds 0 in
    ret (Item (if minus then uint32 (0 - v) else v) 0 (p1 + length ds)%nat)
  else if (c =? ch "'") && (peek buf (S (S p)) =? ch "'") then
    ret (Item (peek buf (S p)) 0 (S (S (S p))))
  else if isbinop c then ret (Item 0 c (S p))
  else if (c =? ch ":") || isalpha c || (c =? ch ".") then
    let p1 := if c =? ch ":" then S p else p in
    let local := peek buf p1 =? ch "." in
    let p2 := if local then S p1 else p1 in
    when (local && is_null mainlbl)
         (error lineno "local label in expr without main label") ;;;
    let id := map toupper (span isident (skipn p2 buf)) in
    let p3 := (p2 + length id)%nat in
    lbl <- get (fun s => find_label s (if local then mainlbl else None) id) ;;
    match lbl with
    | None =>
        when (negb allow_undef) (error lineno "undefined label in expr") ;;;
        ret (Item 0 0 p3)
    | Some l =>
        modify (or_flags l LABEL_USED) ;;;
        v <- get (fun s => value (get_label s l)) ;;
        ret (Item v 0 p3)
    end
  else ret (Break (Some p)).

End Expr.

(** The [switch] of the reduction; division by zero has no defined result. *)
Definition binop (op vl vr : Z) : option Z :=
  if op =? ch "+" then Some (uint32 (vl + vr))
  else if op =? ch "-" then Some (uint32 (vl - vr))
  else if op =? ch "*" then Some (uint32 (vl * vr))
  else if op =? ch "/" then (if vr =? 0 then None else Some (vl / vr))
  else if op =? ch "%" then (if vr =? 0 then None else Some (vl mod vr))
  else if op =? ch "&" then Some (Z.land vl vr)
  else if op =? ch "|" then Some (Z.lor vl vr)
  else Some 0.

(** The two stacks [sval] and [sop] are kept as lists of their live entries,
    the most recent first: [vsp] and [osp] are the lengths, [sval[0]] is the
    last element. *)
Definition vsp (sval : list Z) : Z := Z.of_nat (length sval).
Definition osp (sop : list Z) : Z := Z.of_nat (length sop).
Definition expr_max : Z := 8.

(** The "reduce" loop: pop an operator and two values, push the result. *)
Fixpoint reduce (sval sop : list Z) : option (list Z) :=
  match sop with
  | [] => Some sval
  | op :: sop' =>
      match sval with
      | vr :: vl :: sval' =>
          match binop op vl vr with
          | Some vv => reduce (vv :: sval') sop'
          | None => None
          end
      | _ => Some sval
      end
  end.

Section ExprLoop.

Variable lineno : Z.
Variable mainlbl : option nat.
Variable allow_undef : bool.
Variable pc : Z.
Variable buf : list Z.

(** The loop of [expr]; it is left with the two stacks and the position. *)
Fixpoint expr_loop (rec : nat -> M (option nat * Z)) (n : nat)
         (sval sop : list Z) (p : nat) : M (list Z * list Z * option nat) :=
  match n with
  | O => fun _ => NoFuel
  | S n' =>
      let p := skip_blanks buf p in
      it <- element lineno mainlbl allow_undef pc buf rec p ;;
      match it with
      | Break q => ret (sval, sop, q)
      | Item v op q =>
          if negb (op =? 0) then
            if negb (osp sop + 1 =? vsp sval) || (osp sop >=? expr_max)
            then ret (sval, sop, Some q)
            else expr_loop rec n' sval (op :: sop) q
          else
            if negb (vsp sval =? osp sop) || (vsp sval >=? expr_max)
            then ret (sval, sop, Some q)
            else expr_loop rec n' (v :: sval) sop q
      end
  end.

(** The part of [expr] after the loop.  With no value on the stack the C
    code returns the indeterminate [sval[0]] next to a null pointer, which no
    caller reads; it is 0 here. *)
Definition expr_done (r : list Z * list Z * option nat) : M (option nat * Z) :=
  let '(sval, sop, p) := r in
  if negb (osp sop + 1 =? vsp sval) then
    error lineno "expr syntax" ;;;
    ret (None, last sval 0)
  else
    match reduce sval sop with
    | Some sval' => ret (p, last sval' 0)
    | None => undefined
    end.

(** [expr]; [d] bounds the depth of the parentheses. *)
Fixpoint expr (d : nat) (p : nat) : M (option nat * Z) :=
  match d with
  | O => fun _ => NoFuel
  | S d' =>
      r <- expr_loop (expr d') (S (length buf)) [] [] p ;;
      expr_done r
  end.

End ExprLoop.


(** ** Registers *)

(** [strcmp] on identifiers kept as lists of characters. *)
Fixpoint strcmp (a b : list Z) : Z :=
  match a, b with
  | [], [] => 0
  | [], y :: _ => 0 - y
  | x :: _, [] => x
  | x :: a', y :: b' => if x =? y then strcmp a' b' else x - y
  end.

(** The binary search shared by [reg_find] and [op_find]; [n] rounds are more
    than a table of [n] entries needs. *)
Fixpoint bsearch {A : Type} (tbl : list (string * A)) (key : list Z)
         (n : nat) (a b : Z) : option A :=
  match n with
  | O => None
  | S n' =>
      if a <=? b then
        let m := (a + b) / 2 in
        match nth_error tbl (Z.to_nat m) with
        | None => None
        | Some (id, x) =>
            let r := strcmp key (bytes_of_string id) in
            if r =? 0 then Some x
            else if r <? 0 then bsearch tbl key n' a (m - 1)
            else bsearch tbl key n' (m + 1) b
        end
      else None
  end.

Definition vreg : list (string * Z) :=
  [("R0", 0); ("R1", 1); ("R10", 10); ("R11", 11); ("R12", 12); ("R13", 13); ("R14", 14);
   ("R2", 2); ("R3", 3); ("R4", 4); ("R5", 5); ("R6", 6); ("R7", 7); ("R8", 8); ("R9", 9);
   ("SP", 15)]%string.

(** [reg_find]; -1 when the name is no register. *)
Definition reg_find (reg : list Z) : Z :=
  match bsearch vreg reg (S (length vreg)) 0 (Z.of_nat (length vreg) - 1) with
  | Some rno => rno
  | None => -1
  end.

(** ** Opcodes *)

Inductive opcode : Type :=
| OP_ADD | OP_AND | OP_BEQ | OP_BLE | OP_BLEI | OP_BLT | OP_BLTI | OP_BNE
| OP_BNZ | OP_BRA | OP_BSWAP | OP_BZ | OP_CSETN | OP_CSETNN | OP_CSETNP
| OP_CSETNZ | OP_CSETP | OP_CSETZ | OP_ENTER | OP_ERET | OP_GET | OP_ILL
| OP_IN | OP_IRET | OP_ISTAT | OP_JAL | OP_JMP | OP_LD1 | OP_LD1I | OP_LD2
| OP_LD2I | OP_LD4 | OP_LD4I | OP_LD8 | OP_LEA | OP_LI | OP_MV | OP_NOP | OP_OR
| OP_OUT | OP_RET | OP_SET | OP_SEXT1 | OP_SEXT2 | OP_SEXT4 | OP_SHL | OP_SHR
| OP_SHRI | OP_SIGNAL | OP_SRET | OP_ST1 | OP_ST2 | OP_ST4 | OP_ST8 | OP_SUB
| OP_SYS | OP_WAIT | OP_XOR | OP_ZEXT1 | OP_ZEXT2 | OP_ZEXT4.

(** The value of the enumerator. *)
Definition op_num (o : opcode) : Z :=
  match o with
  | OP_ADD => 0 | OP_AND => 1 | OP_BEQ => 2 | OP_BLE => 3 | OP_BLEI => 4 | OP_BLT => 5
  | OP_BLTI => 6 | OP_BNE => 7 | OP_BNZ => 8 | OP_BRA => 9 | OP_BSWAP => 10
  | OP_BZ => 11 | OP_CSETN => 12 | OP_CSETNN => 13 | OP_CSETNP => 14 | OP_CSETNZ => 15
  | OP_CSETP => 16 | OP_CSETZ => 17 | OP_ENTER => 18 | OP_ERET => 19 | OP_GET => 20
  | OP_ILL => 21 | OP_IN => 22 | OP_IRET => 23 | OP_ISTAT => 24 | OP_JAL => 25
  | OP_JMP => 26 | OP_LD1 => 27 | OP_LD1I => 28 | OP_LD2 => 29 | OP_LD2I => 30
  | OP_LD4 => 31 | OP_LD4I => 32 | OP_LD8 => 33 | OP_LEA => 34 | OP_LI => 35
  | OP_MV => 36 | OP_NOP => 37 | OP_OR => 38 | OP_OUT => 39 | OP_RET => 40
  | OP_SET => 41 | OP_SEXT1 => 42 | OP_SEXT2 => 43 | OP_SEXT4 => 44 | OP_SHL => 45
  | OP_SHR => 46 | OP_SHRI => 47 | OP_SIGNAL => 48 | OP_SRET => 49 | OP_ST1 => 50
  | OP_ST2 => 51 | OP_ST4 => 52 | OP_ST8 => 53 | OP_SUB => 54 | OP_SYS => 55
  | OP_WAIT => 56 | OP_XOR => 57 | OP_ZEXT1 => 58 | OP_ZEXT2 => 59 | OP_ZEXT4 => 60
  end.

Definition vop : list (string * opcode) :=
  [("ADD", OP_ADD); ("AND", OP_AND); ("BEQ", OP_BEQ); ("BLE", OP_BLE); ("BLEI", OP_BLEI);
   ("BLT", OP_BLT); ("BLTI", OP_BLTI); ("BNE", OP_BNE); ("BNZ", OP_BNZ); ("BRA", OP_BRA);
   ("BSWAP", OP_BSWAP); ("BZ", OP_BZ); ("CSETN", OP_CSETN); ("CSETNN", OP_CSETNN);
   ("CSETNP", OP_CSETNP); ("CSETNZ", OP_CSETNZ); ("CSETP", OP_CSETP); ("CSETZ", OP_CSETZ);
   ("ENTER", OP_ENTER); ("ERET", OP_ERET); ("GET", OP_GET); ("ILLEGAL", OP_ILL);
   ("IN", OP_IN); ("IRET", OP_IRET); ("ISTAT", OP_ISTAT); ("JAL", OP_JAL);
   ("JMP", OP_JMP); ("LD1", OP_LD1); ("LD1I", OP_LD1I); ("LD2", OP_LD2);
   ("LD2I", OP_LD2I); ("LD4", OP_LD4); ("LD4I", OP_LD4I); ("LD8", OP_LD8);
   ("LEA", OP_LEA); ("LI", OP_LI); ("MV", OP_MV); ("NOP", OP_NOP); ("OR", OP_OR);
   ("OUT", OP_OUT); ("RET", OP_RET); ("SET", OP_SET); ("SEXT1", OP_SEXT1);
   ("SEXT2", OP_SEXT2); ("SEXT4", OP_SEXT4); ("SHL", OP_SHL); ("SHR", OP_SHR);
   ("SHRI", OP_SHRI); ("SIGNAL", OP_SIGNAL); ("SRET", OP_SRET); ("ST1", OP_ST1);
   ("ST2", OP_ST2); ("ST4", OP_ST4); ("ST8", OP_ST8); ("SUB", OP_SUB);
   ("SYSCALL", OP_SYS); ("WAIT", OP_WAIT); ("XOR", OP_XOR); ("ZEXT1", OP_ZEXT1);
   ("ZEXT2", OP_ZEXT2); ("ZEXT4", OP_ZEXT4)]%string.

(** [op_find]; [None] stands for -1. *)
Definition op_find (op : list Z) : option opcode :=
  bsearch vop op (S (length vop)) 0 (Z.of_nat (length vop) - 1).

(** ** Opcode match engine *)

(** The kinds of argument: the enumeration [_, R, N, M] of [arg_t]. *)
Inductive akind : Type := k_ | kR | kN | kM.

Definition akind_num (k : akind) : Z :=
  match k with k_ => 0 | kR => 1 | kN => 2 | kM => 3 end.

Record arg : Type := mkArg { k : akind; rno : Z; val : Z }.

Record tentry : Type := mkEntry {
  te_op : opcode;
  te_na : Z;
  te_args : list akind;
  te_kind : Z;
  te_word : Z
}.

Definition tmatch : list tentry :=
  [mkEntry OP_ADD    3 [kR; kR; kR] (ch "R") 0x4000;
   mkEntry OP_ADD    3 [kR; kR; kN] (ch "A") 0x3004;
   mkEntry OP_ADD    2 [kR; kN; k_] (ch "a") 0x3004;
   mkEntry OP_ADD    2 [kR; kR; k_] (ch "r") 0x4000;
   mkEntry OP_AND    3 [kR; kR; kR] (ch "R") 0x8000;
   mkEntry OP_AND    3 [kR; kR; kN] (ch "A") 0x3008;
   mkEntry OP_AND    2 [kR; kN; k_] (ch "a") 0x3008;
   mkEntry OP_AND    2 [kR; kR; k_] (ch "r") 0x8000;
   mkEntry OP_BEQ    3 [kR; kR; kN] (ch "b") 0x2000;
   mkEntry OP_BLE    3 [kR; kR; kN] (ch "b") 0x2004;
   mkEntry OP_BLEI   3 [kR; kR; kN] (ch "b") 0x2005;
   mkEntry OP_BLT    3 [kR; kR; kN] (ch "b") 0x2002;
   mkEntry OP_BLTI   3 [kR; kR; kN] (ch "b") 0x2003;
   mkEntry OP_BNE    3 [kR; kR; kN] (ch "b") 0x2001;
   mkEntry OP_BNZ    2 [kR; kN; k_] (ch "!") 0x20f1;
   mkEntry OP_BRA    1 [kN; k_; k_] (ch "B") 0x2ff0;
   mkEntry OP_BSWAP  2 [kR; kR; k_] (ch "U") 0x0004;
   mkEntry OP_BSWAP  1 [kR; k_; k_] (ch "u") 0x0004;
   mkEntry OP_BZ     2 [kR; kN; k_] (ch "!") 0x20f0;
   mkEntry OP_CSETN  2 [kR; kR; k_] (ch "U") 0x000a;
   mkEntry OP_CSETN  1 [kR; k_; k_] (ch "u") 0x000a;
   mkEntry OP_CSETNN 2 [kR; kR; k_] (ch "U") 0x000b;
   mkEntry OP_CSETNN 1 [kR; k_; k_] (ch "u") 0x000b;
   mkEntry OP_CSETNP 2 [kR; kR; k_] (ch "U") 0x000d;
   mkEntry OP_CSETNP 1 [kR; k_; k_] (ch "u") 0x000d;
   mkEntry OP_CSETNZ 2 [kR; kR; k_] (ch "U") 0x0009;
   mkEntry OP_CSETNZ 1 [kR; k_; k_] (ch "u") 0x0009;
   mkEntry OP_CSETP  2 [kR; kR; k_] (ch "U") 0x000c;
   mkEntry OP_CSETP  1 [kR; k_; k_] (ch "u") 0x000c;
   mkEntry OP_CSETZ  2 [kR; kR; k_] (ch "U") 0x0008;
   mkEntry OP_CSETZ  1 [kR; k_; k_] (ch "u") 0x0008;
   mkEntry OP_ENTER  1 [kN; k_; k_] (ch "E") 0x0ff8;
   mkEntry OP_ERET   0 [k_; k_; k_] (ch "N") 0x0ff6;
   mkEntry OP_GET    2 [kR; kN; k_] (ch "G") 0x0f08;
   mkEntry OP_ILL    0 [k_; k_; k_] (ch "N") 0x0ff0;
   mkEntry OP_IN     2 [kR; kR; k_] (ch "U") 0x000e;
   mkEntry OP_IRET   0 [k_; k_; k_] (ch "N") 0x0ff4;
   mkEntry OP_ISTAT  1 [kR; k_; k_] (ch "1") 0x0f04;
   mkEntry OP_JAL    1 [kN; k_; k_] (ch "J") 0x0ffd;
   mkEntry OP_JAL    1 [kR; k_; k_] (ch "1") 0x0f01;
   mkEntry OP_JMP    1 [kN; k_; k_] (ch "J") 0x0ffc;
   mkEntry OP_JMP    1 [kR; k_; k_] (ch "1") 0x0f00;
   mkEntry OP_LD1    2 [kR; kM; k_] (ch "M") 0x1000;
   mkEntry OP_LD1I   2 [kR; kM; k_] (ch "M") 0x1001;
   mkEntry OP_LD2    2 [kR; kM; k_] (ch "M") 0x1002;
   mkEntry OP_LD2I   2 [kR; kM; k_] (ch "M") 0x1003;
   mkEntry OP_LD4    2 [kR; kM; k_] (ch "M") 0x1004;
   mkEntry OP_LD4I   2 [kR; kM; k_] (ch "M") 0x1005;
   mkEntry OP_LD8    2 [kR; kM; k_] (ch "M") 0x1006;
   mkEntry OP_LEA    2 [kR; kN; k_] (ch "L") 0x0f0d;
   mkEntry OP_LEA    2 [kR; kM; k_] (ch "l") 0x0f0a;
   mkEntry OP_LI     2 [kR; kN; k_] (ch "I") 0x0f0c;
   mkEntry OP_MV     2 [kR; kR; k_] (ch "=") 0x90f0;
   mkEntry OP_NOP    0 [k_; k_; k_] (ch "N") 0x0ff1;
   mkEntry OP_OR     3 [kR; kR; kR] (ch "R") 0x9000;
   mkEntry OP_OR     3 [kR; kR; kN] (ch "A") 0x3009;
   mkEntry OP_OR     2 [kR; kN; k_] (ch "a") 0x3009;
   mkEntry OP_OR     2 [kR; kR; k_] (ch "r") 0x9000;
   mkEntry OP_OUT    2 [kR; kR; k_] (ch "U") 0x000f;
   mkEntry OP_RET    0 [k_; k_; k_] (ch "N") 0x0fe0;
   mkEntry OP_SET    2 [kN; kR; k_] (ch "g") 0x0f09;
   mkEntry OP_SEXT1  2 [kR; kR; k_] (ch "U") 0x0005;
   mkEntry OP_SEXT1  1 [kR; k_; k_] (ch "u") 0x0005;
   mkEntry OP_SEXT2  2 [kR; kR; k_] (ch "U") 0x0006;
   mkEntry OP_SEXT2  1 [kR; k_; k_] (ch "u") 0x0006;
   mkEntry OP_SEXT4  2 [kR; kR; k_] (ch "U") 0x0007;
   mkEntry OP_SEXT4  1 [kR; k_; k_] (ch "u") 0x0007;
   mkEntry OP_SHL    3 [kR; kR; kR] (ch "R") 0xb000;
   mkEntry OP_SHL    3 [kR; kR; kN] (ch "A") 0x300b;
   mkEntry OP_SHL    2 [kR; kN; k_] (ch "a") 0x300b;
   mkEntry OP_SHL    2 [kR; kR; k_] (ch "r") 0xb000;
   mkEntry OP_SHR    3 [kR; kR; kR] (ch "R") 0xc000;
   mkEntry OP_SHR    3 [kR; kR; kN] (ch "A") 0x300c;
   mkEntry OP_SHR    2 [kR; kN; k_] (ch "a") 0x300c;
   mkEntry OP_SHR    2 [kR; kR; k_] (ch "r") 0xc000;
   mkEntry OP_SHRI   3 [kR; kR; kR] (ch "R") 0xd000;
   mkEntry OP_SHRI   3 [kR; kR; kN] (ch "A") 0x300d;
   mkEntry OP_SHRI   2 [kR; kN; k_] (ch "a") 0x300d;
   mkEntry OP_SHRI   2 [kR; kR; k_] (ch "r") 0xd000;
   mkEntry OP_SIGNAL 1 [kN; k_; k_] (ch "E") 0x0ff9;
   mkEntry OP_SRET   0 [k_; k_; k_] (ch "N") 0x0ff5;
   mkEntry OP_ST1    2 [kM; kR; k_] (ch "m") 0x1008;
   mkEntry OP_ST2    2 [kM; kR; k_] (ch "m") 0x1009;
   mkEntry OP_ST4    2 [kM; kR; k_] (ch "m") 0x100a;
   mkEntry OP_ST8    2 [kM; kR; k_] (ch "m") 0x100b;
   mkEntry OP_SUB    3 [kR; kR; kR] (ch "R") 0x5000;
   mkEntry OP_SUB    3 [kR; kR; kN] (ch "A") 0x3005;
   mkEntry OP_SUB    2 [kR; kN; k_] (ch "a") 0x3005;
   mkEntry OP_SUB    2 [kR; kR; k_] (ch "r") 0x5000;
   mkEntry OP_SYS    0 [k_; k_; k_] (ch "N") 0x0ff2;
   mkEntry OP_WAIT   0 [k_; k_; k_] (ch "N") 0x0ff3;
   mkEntry OP_XOR    3 [kR; kR; kR] (ch "R") 0xa000;
   mkEntry OP_XOR    3 [kR; kR; kN] (ch "A") 0x300a;
   mkEntry OP_XOR    2 [kR; kN; k_] (ch "a") 0x300a;
   mkEntry OP_XOR    2 [kR; kR; k_] (ch "r") 0xa000;
   mkEntry OP_ZEXT1  2 [kR; kR; k_] (ch "U") 0x0001;
   mkEntry OP_ZEXT1  1 [kR; k_; k_] (ch "u") 0x0001;
   mkEntry OP_ZEXT2  2 [kR; kR; k_] (ch "U") 0x0002;
   mkEntry OP_ZEXT2  1 [kR; k_; k_] (ch "u") 0x0002;
   mkEntry OP_ZEXT4  2 [kR; kR; k_] (ch "U") 0x0003;
   mkEntry OP_ZEXT4  1 [kR; k_; k_] (ch "u") 0x0003].

Definition akind_eqb (a b : akind) : bool := akind_num a =? akind_num b.

(** The inner loop of [match]: the first [na] kinds agree. *)
Fixpoint args_agree (na : nat) (va : list arg) (ks : list akind) : bool :=
  match na, va, ks with
  | O, _, _ => true
  | S n, a :: va', x :: ks' => akind_eqb (k a) x && args_agree n va' ks'
  | S _, _, _ => false
  end.

(** [match], the name being taken in Rocq. *)
Definition match_entry (op : opcode) (na : Z) (va : list arg) : option tentry :=
  find (fun e => (op_num (te_op e) =? op_num op) && (te_na e =? na)
                 && args_agree (Z.to_nat na) va (te_args e)) tmatch.

(** ** Instruction encoder: the [again: switch (k)] of [assemble] *)

Definition arg0 : arg := mkArg k_ 0 0.
Definition va_rno (va : list arg) (i : nat) : Z := rno (nth i va arg0).
Definition va_val (va : list arg) (i : nat) : Z := val (nth i va arg0).

Definition set_rno (va : list arg) (i : nat) (r : Z) : list arg :=
  let a := nth i va arg0 in upd i (mkArg (k a) r (val a)) va.

Definition set_val (va : list arg) (i : nat) (v : Z) : list arg :=
  let a := nth i va arg0 in upd i (mkArg (k a) (rno a) v) va.

(** [code[bytes++] = x] for each [x] of [xs] in turn. *)
Definition put (code xs : list Z) : list Z := code ++ map uint8 xs.

Definition out_of_int16 (v : Z) : bool := (v >=? 32768) || (v <? -32768).

Section Encode.

Variable lineno : Z.
Variable out : bool.
Variable pc : Z.

(** One round of the [switch] for each unit of [n]; a sugar kind rewrites
    the arguments and goes round once more.  Arithmetic on [int] wraps. *)
Fixpoint encode (n : nat) (k w : Z) (va : list arg) (code : list Z) : M (list Z) :=
  match n with
  | O => fun _ => NoFuel
  | S n' =>
      if k =? ch "N" then
        ret (put code [Z.shiftr w 8; w])
      else if k =? ch "R" then
        ret (put code [Z.lor (Z.shiftr w 8) (va_rno va 0);
                       Z.lor (Z.shiftl (va_rno va 1) 4) (va_rno va 2)])
      else if k =? ch "r" then
        let va := set_rno va 2 (va_rno va 1) in
        let va := set_rno va 1 (va_rno va 0) in
        encode n' (ch "R") w va code
      else if k =? ch "a" then
        let va := set_val va 2 (va_val va 1) in
        let va := set_rno va 1 (va_rno va 0) in
        encode n' (ch "A") w va code
      else if k =? ch "A" then
        let code := put code [Z.lor (Z.shiftr w 8) (va_rno va 0);
                              Z.lor w (Z.shiftl (va_rno va 1) 4);
                              Z.shiftr (va_val va 2) 8; va_val va 2] in
        when (out && out_of_int16 (va_val va 2))
             (error lineno "inmediate out of range") ;;;
        ret code
      else if k =? ch "U" then
        ret (put code [Z.lor (Z.shiftr w 8) (va_rno va 0);
                       Z.lor w (Z.shiftl (va_rno va 1) 4)])
      else if k =? ch "u" then
        ret (put code [Z.lor (Z.shiftr w 8) (va_rno va 0);
                       Z.lor w (Z.shiftl (va_rno va 0) 4)])
      else if k =? ch "E" then
        let va := set_rno va 1 0 in
        let va := set_rno va 0 (va_rno va 1) in
        let va := set_val va 2 (va_val va 0) in
        encode n' (ch "A") w va code
      else if k =? ch "B" then
        let off := Z.quot (int32 (va_val va 0 - int32 (int32 pc + 4))) 2 in
        let code := put code [Z.shiftr w 8; w; Z.shiftr off 8; off] in
        when (out && out_of_int16 off) (error lineno "branch out of range") ;;;
        ret code
      else if k =? ch "b" then
        let w := uint32 (Z.lor w (Z.lor (Z.shiftl (va_rno va 0) 8)
                                        (Z.shiftl (va_rno va 1) 4))) in
        let va := set_val va 0 (va_val va 2) in
        encode n' (ch "B") w va code
      else if k =? ch "!" then
        let w := uint32 (Z.lor w (Z.shiftl (va_rno va 0) 8)) in
        let va := set_val va 0 (va_val va 1) in
        encode n' (ch "B") w va code
      else if k =? ch "M" then
        let code := put code [Z.lor (Z.shiftr w 8) (va_rno va 0);
                              Z.lor w (Z.shiftl (va_rno va 1) 4);
                              Z.shiftr (va_val va 1) 8; va_val va 1] in
        when (out && out_of_int16 (va_val va 1))
             (error lineno "memory offset out of range") ;;;
        ret code
      else if k =? ch "m" then
        let va := set_rno va 2 (va_rno va 1) in
        let va := set_rno va 1 (va_rno va 0) in
        let va := set_val va 1 (va_val va 0) in
        let va := set_rno va 0 (va_rno va 2) in
        encode n' (ch "M") w va code
      else if k =? ch "J" then
        let off := Z.quot (int32 (va_val va 0 - int32 (int32 pc + 6))) 2 in
        ret (put code [Z.shiftr w 8; w; Z.shiftr off 24; Z.shiftr off 16;
                       Z.shiftr off 8; off])
      else if k =? ch "L" then
        let off := int32 (va_val va 1 - int32 (int32 pc + 6)) in
        ret (put code [Z.shiftr w 8; Z.lor w (Z.shiftl (va_rno va 0) 4);
                       Z.shiftr off 24; Z.shiftr off 16; Z.shiftr off 8; off])
      else if k =? ch "l" then
        if va_rno va 1 =? 15 then
          let va := set_rno va 1 (va_rno va 0) in
          let va := set_rno va 0 0 in
          encode n' (ch "M") w va code
        else
          let va := set_val va 2 (va_val va 1) in
          encode n' (ch "A") 0x3004 va code
      else if k =? ch "I" then
        let n := va_val va 1 in
        if n =? 0 then
          ret (put code [Z.lor 0x80 (va_rno va 0); 0xff])
        else if n =? 1 then
          ret (put code [Z.lor 0x00 (va_rno va 0); 0xf8])
        else if (n >=? -32768) && (n <=? 32767) then
          let va := set_rno va 1 0 in
          let va := set_val va 2 (va_val va 1) in
          encode n' (ch "A") 0x30f9 va code
        else
          ret (put code [Z.shiftr w 8; Z.lor w (Z.shiftl (va_rno va 0) 4);
                         Z.shiftr n 24; Z.shiftr n 16; Z.shiftr n 8; n])
      else if k =? ch "1" then
        ret (put code [Z.shiftr w 8; Z.lor w (Z.shiftl (va_rno va 0) 4)])
      else if k =? ch "=" then
        ret (put code [Z.lor (Z.shiftr w 8) (va_rno va 0); Z.lor w (va_rno va 1)])
      else if k =? ch "G" then
        let code := put code [Z.shiftr w 8; Z.lor w (Z.shiftl (va_rno va 0) 4);
                              Z.shiftr (va_val va 1) 8; va_val va 1] in
        when (out && ((va_val va 1 <? 0) || (va_val va 1 >? 15)))
             (error lineno "special register of range") ;;;
        ret code
      else if k =? ch "g" then
        let va := set_rno va 0 (va_rno va 1) in
        let va := set_val va 1 (va_val va 0) in
        encode n' (ch "G") w va code
      else
        error lineno "opcode type" ;;;
        ret code
  end.

End Encode.

(** ** Input engine *)

(** The chunks successive calls of [readline] read from a file: each runs up
    to and including a newline, the last one up to the end of the file. *)
Fixpoint file_lines (cur : list Z) (f : list Z) : list (list Z) :=
  match f with
  | [] => match cur with [] => [] | _ => [rev cur] end
  | c :: f' =>
      if c =? ch "010" then rev (c :: cur) :: file_lines [] f'
      else file_lines (c :: cur) f'
  end.

(** [readline] for one chunk: the line and its terminator overwrite the start
    of the static buffer, whose older contents stay behind them. *)
Definition readline (chunk : list Z) : M unit :=
  fun s =>
    if Z.of_nat (length chunk) >=? MAX_LINE then fatal "line is too long" s
    else Ok tt (set_buffer s (chunk ++ 0 :: skipn (S (length chunk)) (buffer s))).

(** ** The assembler proper *)

(** The variables of one round of the line loop of [assemble]. *)
Record lvars : Type := mkLvars {
  l_p : nat;
  l_bytes : Z;
  l_code : list Z;
  l_space : Z;
  l_org : bool;
  l_equ : bool
}.

(** The depth allowed to [expr] on a buffer: more than it has characters, and
    so never used up. *)
Definition expr_depth (buf : list Z) : nat := S (length buf).

Definition set_mark (b : bool) : M unit := modify (fun s => set_more s b).

Section Line.

Variable pass : Z.
Variable out : bool.
Variable lineno : Z.
Variable buf : list Z.
Variable pc : Z.

(** The optional label at the start of the line: the label, the main label
    from here on, and the position after it. *)
Definition line_label (mainlbl : option nat) : M (option nat * option nat * nat) :=
  let p := 0%nat in
  if isalpha (peek buf p) || (peek buf p =? ch ".") then
    let local := peek buf p =? ch "." in
    let p := if local then S p else p in
    let id := map toupper (span isident (skipn p buf)) in
    let p := (p + length id)%nat in
    when (local && is_null mainlbl) (error lineno "local label without main label") ;;;
    found <- get (fun s => find_label s (if local then mainlbl else None) id) ;;
    lbl <- match found with
           | Some l =>
               fl <- get (fun s => flags (get_label s l)) ;;
               v <- get (fun s => value (get_label s l)) ;;
               (if pass =? 0 then error lineno "duplicated label"
                else if (Z.land fl LABEL_EQU =? 0) && negb (v =? pc) then
                       set_mark true ;;;
                       modify (set_value l pc)
                     else ret tt) ;;;
               ret l
           | None =>
               set_mark true ;;;
               l <- add_label (if local then mainlbl else None) id pc ;;
               when out (error lineno "undefined label on last pass !") ;;;
               ret l
           end ;;
    let mainlbl := if local then mainlbl else Some lbl in
    let p := if peek buf p =? ch ":" then S p else p in
    ret (Some lbl, mainlbl, p)
  else ret (None, mainlbl, p).

Variable mainlbl : option nat.

(** The loop of [.WORD]; [None] is the jump to [next]. *)
Fixpoint words (n : nat) (p : nat) (code : list Z) : M (option (nat * list Z)) :=
  match n with
  | O => fun _ => NoFuel
  | S n' =>
      vp <- expr lineno mainlbl (negb out) pc buf (expr_depth buf) p ;;
      match fst vp with
      | None => ret None
      | Some p =>
          let code := put code [Z.shiftr (snd vp) 8; snd vp] in
          when (out && (snd vp >? 65536)) (error lineno ".WORD overflow") ;;;
          if negb (peek buf p =? ch ",") then ret (Some (p, code))
          else words n' (S p) code
      end
  end.

(** The loop of [.BYTE]. *)
Fixpoint bytes_ (n : nat) (p : nat) (code : list Z) : M (option (nat * list Z)) :=
  match n with
  | O => fun _ => NoFuel
  | S n' =>
      let p := skip_blanks buf p in
      r <- (if peek buf p =? ch "034" then
              let cs := span (fun c => negb (c =? 0) && negb (c =? ch "034"))
                             (skipn (S p) buf) in
              let p := (S p + length cs)%nat in
              let code := put code cs in
              if negb (peek buf p =? ch "034") then
                error lineno "incomplete string" ;;;
                ret None
              else ret (Some (skip_blanks buf (S p), code))
            else
              vp <- expr lineno mainlbl (negb out) pc buf (expr_depth buf) p ;;
              match fst vp with
              | None => ret None
              | Some p =>
                  let code := put code [snd vp] in
                  when (out && (snd vp >? 255)) (error lineno ".BYTE overflow") ;;;
                  ret (Some (p, code))
              end) ;;
      match r with
      | None => ret None
      | Some (p, code) =>
          if negb (peek buf p =? ch ",") then ret (Some (p, code))
          else bytes_ n' (S p) code
      end
  end.

(** A directive; [p] is at the dot.  [None] is [continue] or the jump to
    [next]: the rest of the round is skipped. *)
Definition directive (lbl : option nat) (p : nat) : M (option lvars) :=
  let id := map toupper (span isalpha (skipn (S p) buf)) in
  let p := skip_blanks buf (S p + length id)%nat in
  let named s := strcmp id (bytes_of_string s) =? 0 in
  if named "ORG"%string then
    vp <- expr lineno mainlbl false pc buf (expr_depth buf) p ;;
    match fst vp with
    | None => ret None
    | Some p => ret (Some (mkLvars p (uint32 (snd vp - pc)) [] 0 true false))
    end
  else if named "EQU"%string then
    vp <- expr lineno mainlbl false pc buf (expr_depth buf) p ;;
    match fst vp with
    | None => ret None
    | Some p =>
        match lbl with
        | Some l =>
            modify (set_value l (snd vp)) ;;;
            modify (or_flags l (Z.lor LABEL_USED LABEL_EQU)) ;;;
            ret (Some (mkLvars p 0 [] 0 false true))
        | None =>
            error lineno ".EQU without label" ;;;
            ret None
        end
    end
  else if named "ZERO"%string then
    vp <- expr lineno mainlbl false pc buf (expr_depth buf) p ;;
    match fst vp with
    | None => ret None
    | Some p =>
        if snd vp >? MAX_LINE then
          error lineno ".ZERO size overflow" ;;;
          ret None
        else
          ret (Some (mkLvars p (snd vp) (repeat 0 (Z.to_nat (snd vp))) 0 false false))
    end
  else if named "SPACE"%string then
    vp <- expr lineno mainlbl false pc buf (expr_depth buf) p ;;
    match fst vp with
    | None => ret None
    | Some p => ret (Some (mkLvars p (snd vp) [] (snd vp) false false))
    end
  else if named "BYTE"%string then
    r <- bytes_ (S (length buf)) p [] ;;
    match r with
    | None => ret None
    | Some (p, code) =>
        ret (Some (mkLvars p (Z.of_nat (length code)) code 0 false false))
    end
  else if named "WORD"%string then
    r <- words (S (length buf)) p [] ;;
    match r with
    | None => ret None
    | Some (p, code) =>
        ret (Some (mkLvars p (Z.of_nat (length code)) code 0 false false))
    end
  else
    error lineno "unknown directive" ;;;
    ret None.

Definition set_k (va : list arg) (i : nat) (x : akind) : list arg :=
  let a := nth i va arg0 in upd i (mkArg x (rno a) (val a)) va.

(** The argument loop of an instruction, [na] arguments read so far. *)
Fixpoint arguments (n : nat) (p : nat) (sep : bool) (na : nat) (va : list arg)
  : M (option (nat * nat * list arg)) :=
  match n with
  | O => fun _ => NoFuel
  | S n' =>
      if negb (na <? 3)%nat then ret (Some (p, na, va))
      else
        let p := skip_blanks buf p in
        let c := peek buf p in
        if c =? ch "," then
          when (negb sep) (error lineno "unexpected ','") ;;;
          arguments n' (S p) false na va
        else if isalpha c then
          let id := map toupper (span isalnum (skipn p buf)) in
          let rno := reg_find id in
          if rno <? 0 then
            vp <- expr lineno mainlbl (if out then false else true) pc buf (expr_depth buf) p ;;
            match fst vp with
            | None => ret None
            | Some q =>
                let va := set_k va na kN in
                let va := set_val va na (int32 (snd vp)) in
                arguments n' q true (S na) va
            end
          else
            let va := set_k va na kR in
            let va := set_rno va na (reg_find id) in
            arguments n' (p + length id)%nat true (S na) va
        else if c =? ch "[" then
          let va := set_k va na kM in
          let va := set_val va na 0 in
          let p := skip_blanks buf (S p) in
          let id := map toupper (span isalnum (skipn p buf)) in
          let p := (p + length id)%nat in
          let va := set_rno va na (reg_find id) in
          when (va_rno va na <? 0) (error lineno "unknown register") ;;;
          let p := skip_blanks buf p in
          r <- (if (peek buf p =? ch "+") || (peek buf p =? ch "-") then
                  let minus := peek buf p =? ch "-" in
                  vp <- expr lineno mainlbl (negb out) pc buf (expr_depth buf) (S p) ;;
                  match fst vp with
                  | None => ret None
                  | Some q =>
                      ret (Some (q, set_val va na
                                      (int32 (if minus then uint32 (0 - snd vp)
                                              else snd vp))))
                  end
                else ret (Some (p, va))) ;;
          match r with
          | None => ret None
          | Some (p, va) =>
              if negb (peek buf p =? ch "]") then
                error lineno "memory access arg without ']'" ;;;
                ret None
              else arguments n' (S p) true (S na) va
          end
        else if (c =? ch ":") || (c =? ch ".") || (c =? ch "$") || (c =? ch "'")
                || (c =? ch "-") || isdigit c then
          vp <- expr lineno mainlbl (negb out) pc buf (expr_depth buf) p ;;
          match fst vp with
          | None => ret None
          | Some q =>
              let va := set_k va na kN in
              let va := set_val va na (int32 (snd vp)) in
              arguments n' q true (S na) va
          end
        else ret (Some (p, na, va))
  end.

(** An instruction; [p] is at the first letter of the mnemonic. *)
Definition instruction (p : nat) : M (option lvars) :=
  let id := map toupper (span isalnum (skipn p buf)) in
  let p := (p + length id)%nat in
  match op_find id with
  | None =>
      error lineno "unknown opcode" ;;;
      ret None
  | Some op =>
      r <- arguments (S (S (length buf))) p false 0 [arg0; arg0; arg0] ;;
      match r with
      | None => ret None
      | Some (p, na, va) =>
          let p := skip_blanks buf p in
          match match_entry op (Z.of_nat na) va with
          | None =>
              error lineno "unknown combination of opcode and args" ;;;
              ret None
          | Some te =>
              code <- encode lineno out pc 3 (te_kind te) (te_word te) va [] ;;
              ret (Some (mkLvars p (Z.of_nat (length code)) code 0 false false))
          end
      end
  end.

End Line.

(** [emit (pc + i, code[i])] for the bytes of [code] from index [i] on. *)
Fixpoint emit_bytes (pc : Z) (i : Z) (code : list Z) (s : state) : state :=
  match code with
  | [] => s
  | b :: t => emit_bytes pc (i + 1) t (emit (uint32 (pc + i)) b s)
  end.

(** The first part of one round of the line loop of [assemble], after
    [readline] returned true: the optional label and the directive or
    instruction.  It gives the main label from here on and the variables of
    the round, or [None] for them when the round is cut short by [continue]
    or the jump to [next]. *)
Definition line_body (pass : Z) (out : bool) (lineno : Z) (chunk : list Z)
           (mainlbl : option nat) (pc : Z) : M (option nat * option lvars) :=
  readline chunk ;;;
  buf <- get buffer ;;
  lb <- line_label pass out lineno buf pc mainlbl ;;
  let '(lbl, mainlbl, p) := lb in
  let p := skip_blanks buf p in
  r <- (if peek buf p =? ch "." then directive out lineno buf pc mainlbl lbl p
        else if isalpha (peek buf p) then instruction out lineno buf pc mainlbl p
        else ret (Some (mkLvars p 0 [] 0 false false))) ;;
  ret (mainlbl, r).

(** The rest of the round: output, the counter, and the end of the line.
    The listing, which only prints, is left out. *)
Definition line_tail (out : bool) (lineno : Z) (pc : Z) (lv : lvars) : M Z :=
  buf <- get buffer ;;
  when (out && negb (l_org lv) && negb (l_bytes lv =? 0) && (l_space lv =? 0))
       (modify (emit_bytes pc 0 (firstn (Z.to_nat (l_bytes lv)) (l_code lv)))) ;;;
  let pc := uint32 (pc + l_bytes lv) in
  let c := peek buf (l_p lv) in
  if (c =? 0) || (c =? ch ";") || (c =? ch "#") then ret pc
  else
    error lineno "extra characters at end" ;;;
    ret pc.

(** One round of the line loop: the main label and the counter after it. *)
Definition assemble_line (pass : Z) (out : bool) (lineno : Z) (chunk : list Z)
           (mainlbl : option nat) (pc : Z) : M (option nat * Z) :=
  r <- line_body pass out lineno chunk mainlbl pc ;;
  match snd r with
  | None => ret (fst r, pc)
  | Some lv =>
      pc <- line_tail out lineno pc lv ;;
      ret (fst r, pc)
  end.

Fixpoint assemble_lines (pass : Z) (out : bool) (chunks : list (list Z))
         (lineno : Z) (mainlbl : option nat) (pc : Z) : M Z :=
  match chunks with
  | [] => ret pc
  | chunk :: rest =>
      r <- assemble_line pass out lineno chunk mainlbl pc ;;
      assemble_lines pass out rest (uint32 (lineno + 1)) (fst r) (snd r)
  end.

(** [assemble] on the contents of one file. *)
Definition assemble (file : list Z) (pass : Z) (out : bool) (pc : Z) : M Z :=
  assemble_lines pass out (file_lines [] file) 1 None pc.

(** ** Entry point: the pass loop of [main] *)

Fixpoint assemble_files (files : list (list Z)) (pass : Z) (out : bool) (pc : Z) : M Z :=
  match files with
  | [] => ret pc
  | f :: rest =>
      pc <- assemble f pass out pc ;;
      assemble_files rest pass out pc
  end.

(** One pass over all the input files. *)
Definition one_pass (files : list (list Z)) (pass : Z) (last : bool) : M unit :=
  when (negb (pass =? 0)) (modify output_to) ;;;
  set_mark false ;;;
  assemble_files files pass last 0 ;;;
  when last (modify emit_done).

(** The pass loop; the C loop has no bound, [n] is the fuel of the model.
    The result is the number of passes made. *)
Fixpoint passes (n : nat) (files : list (list Z)) (pass : Z) (last : bool) : M Z :=
  match n with
  | O => fun _ => NoFuel
  | S n' =>
      ec <- get errcount ;;
      if negb (ec =? 0) then ret pass
      else
        one_pass files pass last ;;;
        m <- get more ;;
        if last then ret (uint32 (pass + 1))
        else passes n' files (uint32 (pass + 1)) (negb m)
  end.

(** The error summary of [main]. *)
Definition summary (s : state) : state :=
  set_diag s (errcount s) (stderr s ++ [Summary (errcount s)]).

(** [main] after the options, [files] being the input files: the exit
    status.  With no input file the usage text is printed, on standard
    output, and the process exits. *)
Definition main (n : nat) (files : list (list Z)) : M Z :=
  match files with
  | [] => fun s => Exit s
  | _ :: _ =>
      passes n files 0 false ;;;
      ec <- get errcount ;;
      if negb (ec =? 0) then
        modify summary ;;;
        ret 1
      else ret 0
  end.


(** * Observations used to state the properties *)

(** The outcome [r] of a computation started in [s] printed the diagnostic
    [msg] for line [lineno] as its last line of standard error and counted it;
    [r] is a return, or the exit taken at the error limit. *)
Definition raises {A : Type} (r : outcome A) (s : state) (lineno : Z) (msg : string) : Prop :=
  match r with
  | Ok _ s' | Exit s' =>
      stderr s' = stderr s ++ [Error lineno msg] /\ errcount s' = uint32 (errcount s + 1)
  | _ => False
  end.

(** Reading a record back: two hexadecimal digits make a byte. *)
Definition byte_of_pair (hi lo : Z) : Z := 16 * hexval hi + hexval lo.

Fixpoint unhex (l : list Z) : list Z :=
  match l with
  | hi :: lo :: t => byte_of_pair hi lo :: unhex t
  | _ => []
  end.

(** The bytes a record denotes: its text without the colon and the newline,
    read back pair by pair. *)
Definition record_bytes (txt : list Z) : list Z := unhex (removelast (tl txt)).

Definition sum (l : list Z) : Z := fold_right Z.add 0 l.


(** The invariant of the emission buffer. *)
Definition image_inv (s : state) : Prop :=
  0 <= pending s <= OUTPUT_LINE_BYTES /\ 0 <= basepc s < 65536 /\
  outpc s = basepc s + pending s /\ length (line s) = 32%nat.

(** The pending bytes with the address each has in the record to come: the
    record carries [basepc] and the bytes follow one another from there. *)
Definition pending_image (s : state) : list (Z * Z) :=
  combine (map (fun i => basepc s + Z.of_nat i) (seq 0 (Z.to_nat (pending s))))
          (firstn (Z.to_nat (pending s)) (line s)).

(** A text file from its lines, each closed by a newline. *)
Definition source (ls : list string) : list Z :=
  flat_map (fun l => bytes_of_string l ++ [ch "010"]) ls.

(** What a run leaves to look at: the result, standard error and the output
    file, when the run returned. *)
Definition returned {A : Type} (r : outcome A) : option (A * list diag * list Z) :=
  match r with
  | Ok a s => Some (a, stderr s, ofile s)
  | _ => None
  end.

(** The half-word offset the branch kinds compute for a target. *)
Definition branch_offset (pc target : Z) : Z :=
  Z.quot (int32 (target - int32 (int32 pc + 4))) 2.

(** The argument holding the target of a branch of kind [k]. *)
Definition branch_target (k : Z) (va : list arg) : Z :=
  if k =? ch "B" then va_val va 0
  else if k =? ch "b" then va_val va 2
  else va_val va 1.

(** The run of [main] on the one file [f], for a source that needs the
    passes 0 and 1 before the final pass 2, up to the body of the second line
    of the final pass: the counter at that line and the variables of its
    round. *)
Definition final_pass_second_line (f : list Z) : M (Z * option lvars) :=
  one_pass [f] 0 false ;;;
  one_pass [f] 1 false ;;;
  modify output_to ;;;
  set_mark false ;;;
  r1 <- assemble_line 2 true 1 (nth 0 (file_lines [] f) []) None 0 ;;
  r2 <- line_body 2 true 2 (nth 1 (file_lines [] f) []) (fst r1) (snd r1) ;;
  ret (snd r1, snd r2).

(** A computation whose final state, whether it returns or exits, is related
    by [R] to the state it started in. *)
Definition keeps {A : Type} (R : state -> state -> Prop) (m : M A) : Prop :=
  forall s, match m s with
            | Ok _ s' | Exit s' => R s s'
            | _ => True
            end.

(** A computation that leaves the "more work" flag as it found it. *)
Definition keeps_more {A : Type} (m : M A) : Prop :=
  keeps (fun s s' => more s' = more s) m.

(** A computation that maintains the invariant of the emission buffer. *)
Definition keeps_image {A : Type} (m : M A) : Prop :=
  keeps (fun s s' => image_inv s -> image_inv s') m.

(** The elements the loop of [expr] reads one after the other from position
    [p] in state [s], each after the blanks before it: their values and
    operators, and the position and state after the last one. *)
Inductive reads (el : nat -> M item) (buf : list Z) :
  nat -> state -> list (Z * Z) -> nat -> state -> Prop :=
| reads_nil p s : reads el buf p s [] p s
| reads_cons p s v op q s1 its q' s' :
    el (skip_blanks buf p) s = Ok (Item v op q) s1 ->
    reads el buf q s1 its q' s' ->
    reads el buf p s ((v, op) :: its) q' s'.

(** Values and operators in alternation, a value first. *)
Fixpoint interleave (vs os : list Z) : list (Z * Z) :=
  match vs with
  | [] => []
  | v :: vs' =>
      (v, 0) :: match os with
                | [] => []
                | o :: os' => (0, o) :: interleave vs' os'
                end
  end.

(** The state in which a non-final pass over the one file [f] ends, started
    in [s] ([s] itself if the pass does not return). *)
Definition after_pass (f : list Z) (pass : Z) (s : state) : state :=
  match one_pass [f] pass false s with
  | Ok _ s' => s'
  | _ => s
  end.


(** A computation that never uses up its fuel. *)
Definition total {A : Type} (m : M A) : Prop := forall s, m s <> NoFuel.

(** The kinds the sugar kinds are rewritten to; they are encoded at once. *)
Definition plain_kind (k : Z) : Prop :=
  k = ch "R" \/ k = ch "A" \/ k = ch "B" \/ k = ch "M" \/ k = ch "G".

(** * Further parts of the program *)

(** ** Format engine: the [%5] conversion of [fmt]

    The digits are written from the right into [out], [d] being the index of
    the write pointer; a sixth digit would be written before the start of
    the array, which has no defined behaviour: the result is then [None]. *)
Fixpoint fmt5_loop (d : nat) (n : Z) (out : list Z) : option (list Z) :=
  match d with
  | O => if n >? 0 then None else Some out
  | S d' =>
      if n >? 0 then fmt5_loop d' (n / 10) (upd d' (n mod 10 + ch "0") out)
      else Some out
  end.

Definition fmt_5 (n : Z) : option (list Z) :=
  match fmt5_loop 5 (uint32 n) [ch " "; ch " "; ch " "; ch " "; ch "0"; 0] with
  | Some out => Some (firstn 5 out)
  | None => None
  end.

(** * Further observations *)

(** ** Observations on the tables and the encoder *)

(** An identifier that is a C string: no character of it is the terminator. *)
Definition no_nul (l : list Z) : Prop := Forall (fun c => c <> 0) l.

(** Each name comes before all the later ones in the order of [strcmp]. *)
Fixpoint ascending (l : list (list Z)) : bool :=
  match l with
  | [] => true
  | x :: t => forallb (fun y => strcmp x y <? 0) t && ascending t
  end.

Definition names {A : Type} (tbl : list (string * A)) : list (list Z) :=
  map (fun e => bytes_of_string (fst e)) tbl.

(** The rows [i] and [j] of [tmatch] would both fit one instruction: the
    same operation, the same number of arguments and the same kinds. *)
Fixpoint kinds_agree (n : nat) (a b : list akind) : bool :=
  match n, a, b with
  | O, _, _ => true
  | S n', x :: a', y :: b' => akind_eqb x y && kinds_agree n' a' b'
  | S _, _, _ => false
  end.

Definition clash (e1 e2 : tentry) : bool :=
  (op_num (te_op e1) =? op_num (te_op e2)) && (te_na e1 =? te_na e2)
  && kinds_agree (Z.to_nat (te_na e1)) (te_args e1) (te_args e2).

(** The diagnostics of the encoder for a value out of range. *)
Definition range_messages : list string :=
  ["inmediate out of range"; "branch out of range"; "memory offset out of range";
   "special register of range"]%string.

(** What the encoder does for a kind: it puts [bs] after the code and, on the
    final pass, reports [msg] if [c] holds. *)
Definition encodes (lineno pc : Z) (n : nat) (k w : Z) (va : list arg) (code : list Z)
           (c : bool) (msg : string) (bs : list Z) : Prop :=
  forall out s,
    encode lineno out pc n k w va code s
    = (when (out && c) (error lineno msg) ;;; ret (code ++ bs)) s.

Definition instruction_bytes (bs : list Z) : Prop :=
  (length bs = 2 \/ length bs = 4 \/ length bs = 6)%nat /\
  Forall (fun b => 0 <= b < 256) bs.

(** The kinds that occur in [tmatch]. *)
Definition table_kinds : list Z :=
  [ch "N"; ch "R"; ch "r"; ch "a"; ch "A"; ch "U"; ch "u"; ch "E"; ch "B"; ch "b";
   ch "!"; ch "M"; ch "m"; ch "J"; ch "L"; ch "l"; ch "I"; ch "1"; ch "="; ch "G"; ch "g"].

(** ** Observations on the label table *)

(** The table has its [MAX_LABELS] entries; the global labels grow from the
    bottom and the local ones from the top, and they have not met. *)
Definition table_inv (s : state) : Prop :=
  length (tlabel s) = 256%nat /\ 0 <= nlabel s <= lstack s /\ lstack s <= MAX_LABELS.

(** The characters of an identifier that count. *)
Definition significant (id : list Z) : list Z := firstn (Z.to_nat MAX_CHAR_LABEL) id.

(** ** Observations on the output file *)

(** The data bytes a record of the output file carries, each with its
    address: for a data record (type 00) the count, the address and the bytes
    are read back from the text; any other record carries none. *)
Definition record_image (txt : list Z) : list (Z * Z) :=
  match record_bytes txt with
  | n :: hi :: lo :: ty :: rest =>
      if ty =? 0 then
        combine (map (fun i => 256 * hi + lo + Z.of_nat i) (seq 0 (Z.to_nat n)))
                (firstn (Z.to_nat n) rest)
      else []
  | _ => []
  end.

(** The output file read back, record by record. *)
Definition file_image (f : list Z) : list (Z * Z) :=
  flat_map record_image (file_lines [] f).

(** The bytes that reached the emitter, oldest first: those of the records
    written and those still pending. *)
Definition emitted (s : state) : list (Z * Z) := file_image (ofile s) ++ pending_image s.

(** A file of complete lines. *)
Definition closed (f : list Z) : Prop := f = [] \/ exists f', f = f' ++ [ch "010"].

(** The emitter between two calls of [emit]: the invariant of the buffer,
    bytes in the buffer, and complete records in the file. *)
Definition hex_inv (s : state) : Prop :=
  image_inv s /\
  Forall (fun b => 0 <= b < 256) (firstn (Z.to_nat (pending s)) (line s)) /\
  closed (ofile s).

(** The addresses and bytes the output loop of [assemble] hands to the
    emitter for the [code] of a line at the counter [pc]: the byte of index
    [i] at the counter [pc + i] cut to 16 bits. *)
Fixpoint placed_from (pc i : Z) (code : list Z) : list (Z * Z) :=
  match code with
  | [] => []
  | b :: t => ((pc + i) mod 65536, b mod 256) :: placed_from pc (i + 1) t
  end.

Definition placed (pc : Z) (code : list Z) : list (Z * Z) := placed_from pc 0 code.

(** A data record: a record whose type field is 00. *)
Definition data_record (txt : list Z) : bool :=
  match record_bytes txt with
  | _ :: _ :: _ :: ty :: _ => ty =? 0
  | _ => false
  end.

(** The file of [s'] is the file of [s] with data records after it. *)
Definition data_added (s s' : state) : Prop :=
  exists ls, file_lines [] (ofile s') = file_lines [] (ofile s) ++ ls /\
             forallb data_record ls = true.

(** ** Observations on expressions *)

(** The number a string of decimal digits denotes, and the one a string of
    hexadecimal digits denotes. *)
Definition decimal (ds : list Z) : Z := fold_left (fun v c => v * 10 + (c - ch "0")) ds 0.
Definition hexadecimal (ds : list Z) : Z := fold_left (fun v c => v * 16 + hexval c) ds 0.

(** The value of [v1 o1 v2 o2 ... vn] with the operators applied from the
    right; [None] where a division by zero occurs. *)
Fixpoint eval_right (vs os : list Z) : option Z :=
  match vs, os with
  | v :: vs', o :: os' =>
      match eval_right vs' os' with
      | Some x => binop o v x
      | None => None
      end
  | v :: _, [] => Some v
  | [], _ => None
  end.

(** ** Observations on whole runs *)

(** A computation whose final state is related to the state it started in by
    [R] when it returns, and by [Q] when the process exits. *)
Definition ends {A : Type} (R Q : state -> state -> Prop) (m : M A) : Prop :=
  forall s, match m s with
            | Ok _ s' => R s s'
            | Exit s' => Q s s'
            | _ => True
            end.



(** The output file and the emitter are the same in both states. *)
Definition same_image (s s' : state) : Prop :=
  ofile s' = ofile s /\ line s' = line s /\ pending s' = pending s /\
  basepc s' = basepc s /\ outpc s' = outpc s.

(** The entry [l'] is the entry [l] up to its value and its range of local
    labels: the same name, and no mark of [l] is missing in [l']. *)
Definition label_kept (l l' : label) : Prop :=
  name l' = name l /\ len l' = len l /\
  (Z.land (flags l) LABEL_USED <> 0 -> Z.land (flags l') LABEL_USED <> 0) /\
  (Z.land (flags l) LABEL_EQU <> 0 -> Z.land (flags l') LABEL_EQU <> 0).

(** From a sound table to a sound table in which every global label is
    kept. *)
Definition labels_kept (s s' : state) : Prop :=
  table_inv s ->
  table_inv s' /\ nlabel s <= nlabel s' /\ lstack s' <= lstack s /\
  forall i, Z.of_nat i < nlabel s -> label_kept (get_label s i) (get_label s' i).

(** The two states differ at most in the flags of labels and in what was
    reported. *)
Definition same_but_marks (s s' : state) : Prop :=
  nlabel s' = nlabel s /\ lstack s' = lstack s /\ same_image s s' /\
  buffer s' = buffer s /\ more s' = more s /\
  length (tlabel s') = length (tlabel s) /\
  forall i, let l := get_label s i in
            let l' := get_label s' i in
            value l' = value l /\ lbegin l' = lbegin l /\ lend l' = lend l /\
            len l' = len l /\ name l' = name l.

(** ** Observations on encoded values *)

(** The result [r] of a computation started in [s] yields [x]: silently when
    [ok] holds or on a pass that is not the final one, and after the
    diagnostic [msg], which may end the run, otherwise. *)
Definition checked {A : Type} (r : outcome A) (s : state) (out : bool) (ok : Prop)
           (lineno : Z) (msg : string) (x : A) : Prop :=
  (out = false \/ ok -> r = Ok x s) /\
  (out = true -> ~ ok ->
   raises r s lineno msg /\ forall y s', r = Ok y s' -> y = x).

(** The signed 32-bit number held in four bytes, the high byte first. *)
Definition be32 (b3 b2 b1 b0 : Z) : Z :=
  int32 (16777216 * b3 + 65536 * b2 + 256 * b1 + b0).

(** The record that closes an Intel HEX file. *)
Definition end_record : list Z := bytes_of_string ":00000001FF" ++ [ch "010"].
(** * Properties *)

(** ** Integer facts used throughout *)

Lemma uint8_range x : 0 <= uint8 x < 256.
Proof. unfold uint8. apply Z.mod_pos_bound. lia. Qed.

Lemma uint16_range x : 0 <= uint16 x < 65536.
Proof. unfold uint16. apply Z.mod_pos_bound. lia. Qed.

Lemma uint8_small x : 0 <= x < 256 -> uint8 x = x.
Proof. intros. unfold uint8. apply Z.mod_small. lia. Qed.

Lemma uint32_small x : 0 <= x < 4294967296 -> uint32 x = x.
Proof. intros. unfold uint32. apply Z.mod_small. lia. Qed.

(** ** The monad *)

Lemma bind_ok {A B : Type} (m : M A) (k : A -> M B) s a s' :
  m s = Ok a s' -> bind m k s = k a s'.
Proof. intros H. unfold bind. now rewrite H. Qed.

Lemma bind_cong {A B : Type} (m : M A) (k k' : A -> M B) s :
  (forall a s1, m s = Ok a s1 -> k a s1 = k' a s1) -> bind m k s = bind m k' s.
Proof. intros H. unfold bind. destruct (m s); auto. Qed.

Lemma error_raises lineno msg s : raises (error lineno msg s) s lineno msg.
Proof.
  unfold error, raises.
  destruct (errcount _ >=? MAX_ERRORS); simpl; auto.
Qed.

(** ** Intel HEX records *)

Lemma hexval_digit i : (i < 16)%nat -> hexval (nth i hdigit 0) = Z.of_nat i.
Proof.
  intros H.
  assert (C : forallb (fun j => hexval (nth j hdigit 0) =? Z.of_nat j) (seq 0 16) = true)
    by reflexivity.
  rewrite forallb_forall in C. apply Z.eqb_eq, C, in_seq. lia.
Qed.

Lemma hexval_hex1 n : hexval (hex1 n) = n mod 16.
Proof.
  unfold hex1. change 15 with (Z.ones 4). rewrite Z.land_ones by lia.
  change (2 ^ 4) with 16.
  pose proof (Z.mod_pos_bound n 16 ltac:(lia)) as B.
  rewrite hexval_digit by lia. lia.
Qed.

Lemma byte_of_fmt_b x : byte_of_pair (hex1 (Z.shiftr x 4)) (hex1 x) = uint8 x.
Proof.
  unfold byte_of_pair, uint8. rewrite !hexval_hex1.
  rewrite Z.shiftr_div_pow2 by lia. change (2 ^ 4) with 16.
  pose proof (Z.div_mod x 16 ltac:(lia)).
  pose proof (Z.div_mod (x / 16) 16 ltac:(lia)).
  pose proof (Z.div_mod x 256 ltac:(lia)).
  pose proof (Z.mod_pos_bound x 16 ltac:(lia)).
  pose proof (Z.mod_pos_bound (x / 16) 16 ltac:(lia)).
  pose proof (Z.mod_pos_bound x 256 ltac:(lia)).
  lia.
Qed.

Lemma unhex_fmt_b x l : unhex (fmt_b x ++ l) = uint8 x :: unhex l.
Proof. simpl. now rewrite byte_of_fmt_b. Qed.

Lemma unhex_fmt_w x l :
  unhex (fmt_w x ++ l) = uint8 (Z.shiftr x 8) :: uint8 x :: unhex l.
Proof.
  simpl. rewrite byte_of_fmt_b.
  replace (Z.shiftr x 12) with (Z.shiftr (Z.shiftr x 8) 4)
    by (rewrite Z.shiftr_shiftr by lia; reflexivity).
  now rewrite byte_of_fmt_b.
Qed.

Lemma unhex_data d l : unhex (flat_map fmt_b d ++ l) = map uint8 d ++ unhex l.
Proof.
  induction d as [| x d IH]; simpl; [reflexivity |].
  rewrite byte_of_fmt_b. f_equal. exact IH.
Qed.

Lemma crc_fold d c :
  0 <= c < 256 ->
  fold_left (fun c byte => uint8 (c + byte)) d c = uint8 (c + sum d).
Proof.
  revert c. induction d as [| x d IH]; intros c Hc; simpl.
  - rewrite Z.add_0_r. symmetry. now apply uint8_small.
  - rewrite IH by apply uint8_range. unfold uint8.
    rewrite Z.add_assoc. now rewrite Zplus_mod_idemp_l.
Qed.

Lemma sum_app a b : sum (a ++ b) = sum a + sum b.
Proof. induction a as [| x a IH]; simpl; lia. Qed.

Lemma record_text_bytes s :
  let data := map uint8 (firstn (Z.to_nat (pending s)) (line s)) in
  let crc := uint8 (pending s + Z.shiftr (basepc s) 8 + basepc s + sum data) in
  record_bytes (record_text s)
  = [uint8 (pending s); uint8 (Z.shiftr (basepc s) 8); uint8 (basepc s); 0]
      ++ data ++ [uint8 (0 - crc)].
Proof.
  intros data crc. unfold record_bytes, record_text.
  fold data. rewrite crc_fold by apply uint8_range.
  replace (uint8 (uint8 (pending s + Z.shiftr (basepc s) 8 + basepc s) + sum data))
    with crc
    by (unfold crc, uint8; now rewrite Zplus_mod_idemp_l).
  cbn [tl].
  rewrite !app_assoc. rewrite removelast_last. rewrite <- !app_assoc.
  rewrite unhex_fmt_b, unhex_fmt_w.
  cbn [app unhex]. change (byte_of_pair (ch "0") (ch "0")) with 0.
  rewrite unhex_data.
  replace (map uint8 data) with data
    by (unfold data; rewrite map_map; apply map_ext; intros a;
        symmetry; apply uint8_small, uint8_range).
  rewrite <- (app_nil_r (fmt_b _)). rewrite unhex_fmt_b. cbn [unhex app].
  replace (uint8 (Z.land (0 - crc) 255)) with (uint8 (0 - crc)).
  - reflexivity.
  - change 255 with (Z.ones 8). rewrite Z.land_ones by lia.
    unfold uint8. change (2 ^ 8) with 256. now rewrite Zmod_mod.
Qed.

(** C7. Every data record [emit_flush] writes to the Intel HEX output is the
    text [record_text]; read back pair by pair it consists of the byte count,
    the two address bytes, the record type 0, the data bytes and a checksum
    byte, and the low 8 bits of the sum of all of them are 0. *)
Theorem hex_record_checksum (s : state) :
  (pending s <> 0 -> ofile (emit_flush s) = ofile s ++ record_text s) /\
  (exists cc : Z,
      record_bytes (record_text s)
      = [uint8 (pending s); uint8 (Z.shiftr (basepc s) 8); uint8 (basepc s); 0]
          ++ map uint8 (firstn (Z.to_nat (pending s)) (line s)) ++ [cc]) /\
  sum (record_bytes (record_text s)) mod 256 = 0.
Proof.
  split; [| split].
  - intros H. unfold emit_flush.
    destruct (Z.eqb_spec (pending s) 0) as [E | _]; [contradiction | reflexivity].
  - eexists. apply record_text_bytes.
  - rewrite record_text_bytes. cbv zeta.
    set (data := map uint8 (firstn (Z.to_nat (pending s)) (line s))).
    set (h := pending s + Z.shiftr (basepc s) 8 + basepc s).
    rewrite sum_app. cbn [sum fold_right]. rewrite sum_app. cbn [sum fold_right].
    fold (sum data).
    unfold uint8.
    pose proof (Z.div_mod (pending s) 256 ltac:(lia)).
    pose proof (Z.div_mod (Z.shiftr (basepc s) 8) 256 ltac:(lia)).
    pose proof (Z.div_mod (basepc s) 256 ltac:(lia)).
    pose proof (Z.div_mod (h + sum data) 256 ltac:(lia)).
    pose proof (Z.div_mod (0 - (h + sum data) mod 256) 256 ltac:(lia)).
    match goal with |- ?x mod 256 = 0 =>
      apply Z.mod_divide; [lia |];
      exists ((h + sum data) / 256 - (0 - (h + sum data) mod 256) / 256
              - pending s / 256 - Z.shiftr (basepc s) 8 / 256 - basepc s / 256)
    end.
    unfold h in *. lia.
Qed.

Lemma hex_record_checksum_witness :
  let s := emit 7 0xAB (emit 6 0x12 initial_state) in
  pending s <> 0 /\ ofile (emit_flush s) = ofile s ++ record_text s.
Proof.
  split; [vm_compute; discriminate |].
  apply (hex_record_checksum (emit 7 0xAB (emit 6 0x12 initial_state))).
  vm_compute; discriminate.
Defined.

(** The record of the scenario [NOP]: two bytes 0F F1 at address 0. *)
Example nop_record :
  returned (main 8 [source [" NOP"]%string] initial_state)
  = Some (0, [], source [":020000000FF1FE"; ":00000001FF"]%string) /\
  record_bytes (bytes_of_string ":020000000FF1FE" ++ [ch "010"])
  = [0x02; 0x00; 0x00; 0x00; 0x0F; 0xF1; 0xFE] /\
  sum [0x02; 0x00; 0x00; 0x00; 0x0F; 0xF1; 0xFE] mod 256 = 0.
Proof. vm_compute. repeat split. Qed.

(** ** The emission buffer *)

Lemma emit_flush_image s :
  pending (emit_flush s) = 0 /\ line (emit_flush s) = line s.
Proof.
  unfold emit_flush. destruct (Z.eqb_spec (pending s) 0) as [E | E]; simpl; auto.
Qed.

Lemma firstn_upd_last {A : Type} (n : nat) (x : A) (l : list A) :
  (n < length l)%nat -> firstn (S n) (upd n x l) = firstn n l ++ [x].
Proof.
  revert l. induction n as [| n IH]; intros [| h t] H; simpl in *; try lia.
  - reflexivity.
  - f_equal. apply IH. lia.
Qed.

Lemma length_upd {A : Type} (n : nat) (x : A) (l : list A) :
  length (upd n x l) = length l.
Proof.
  revert n. induction l as [| h t IH]; intros [| n]; simpl; auto.
Qed.

Lemma combine_snoc {A B : Type} (a : list A) (b : list B) x y :
  length a = length b -> combine (a ++ [x]) (b ++ [y]) = combine a b ++ [(x, y)].
Proof.
  revert b. induction a as [| h t IH]; intros [| h' t'] H; simpl in *; try lia.
  - reflexivity.
  - f_equal. apply IH. lia.
Qed.

Lemma uint16_uint32 x : uint16 (uint32 x) = x mod 65536.
Proof.
  unfold uint16, uint32. apply Z.mod_mod_divide.
  exists 65536. reflexivity.
Qed.

Lemma pending_image_snoc s ln ba n b f :
  0 <= n -> (Z.to_nat n < length ln)%nat ->
  pending_image (set_image s (upd (Z.to_nat n) b ln) (n + 1) ba (ba + n + 1) f)
  = combine (map (fun i => ba + Z.of_nat i) (seq 0 (Z.to_nat n)))
            (firstn (Z.to_nat n) ln) ++ [(ba + n, b)].
Proof.
  intros Hn Hl. unfold pending_image. cbn [set_image pending basepc line].
  replace (Z.to_nat (n + 1)) with (S (Z.to_nat n)) by lia.
  rewrite firstn_upd_last by exact Hl.
  rewrite seq_S, map_app. cbn [map Nat.add].
  rewrite combine_snoc.
  - now rewrite Z2Nat.id by lia.
  - rewrite length_map, length_seq, length_firstn. lia.
Qed.

(** One call of [emit]: the invariant is kept, and the byte joins the pending
    bytes, or starts them anew, at the address given, cut to 16 bits. *)
Lemma emit_step s at_ byte :
  image_inv s ->
  let s' := emit at_ byte s in
  image_inv s' /\
  pending_image s'
  = (if (pending s >=? OUTPUT_LINE_BYTES) || negb (uint16 at_ =? outpc s)
     then [] else pending_image s) ++ [(uint16 at_, uint8 byte)] /\
  outpc s' <= 65536.
Proof.
  intros (Hp & Hb & Ho & Hl) s'.
  pose proof (uint16_range at_) as Hat.
  unfold s', emit, OUTPUT_LINE_BYTES in *.
  destruct ((pending s >=? 32) || negb (uint16 at_ =? outpc s)) eqn:C.
  - destruct (emit_flush_image s) as [P L].
    cbn [set_image pending line basepc outpc ofile]. rewrite L, P.
    rewrite (uint32_small (0 + 1)) by lia.
    rewrite (uint32_small (uint16 at_ + 1)) by lia.
    split; [| split; [| lia]].
    + unfold image_inv. cbn [set_image pending line basepc outpc].
      rewrite length_upd. unfold OUTPUT_LINE_BYTES. repeat split; lia.
    + replace (uint16 at_ + 1) with (uint16 at_ + 0 + 1) by lia.
      rewrite pending_image_snoc by (simpl; lia).
      simpl. now rewrite Z.add_0_r.
  - apply orb_false_iff in C. destruct C as [C1 C2].
    apply negb_false_iff in C2. apply Z.eqb_eq in C2.
    assert (pending s < 32) by (destruct (Z.geb_spec (pending s) 32); [discriminate | lia]).
    cbn [set_image pending line basepc outpc ofile].
    rewrite (uint32_small (pending s + 1)) by lia.
    rewrite (uint32_small (outpc s + 1)) by lia.
    split; [| split; [| lia]].
    + unfold image_inv. cbn [set_image pending line basepc outpc].
      rewrite length_upd. unfold OUTPUT_LINE_BYTES. repeat split; lia.
    + rewrite C2, Ho. rewrite pending_image_snoc by lia. reflexivity.
Qed.

(** A run whose counter passes 0x10000: the four bytes of the [.WORD] line
    start at 0xFFFE; the last two are recorded at the wrapped address 0000, in
    a data record of their own. *)
Example wrapped_addresses_run :
  returned (main 8 [source [" .ORG $FFFE"; " .WORD $1234, $5678"]%string] initial_state)
  = Some (0, [], source [":02FFFE001234BB"; ":02000000567830"; ":00000001FF"]%string).
Proof. vm_compute. reflexivity. Qed.

(** ** The encoder *)

Lemma encode_A lineno out pc n w va code :
  encode lineno out pc (S n) (ch "A") w va code
  = (when (out && out_of_int16 (va_val va 2)) (error lineno "inmediate out of range") ;;;
     ret (put code [Z.lor (Z.shiftr w 8) (va_rno va 0);
                    Z.lor w (Z.shiftl (va_rno va 1) 4);
                    Z.shiftr (va_val va 2) 8; va_val va 2])).
Proof. reflexivity. Qed.

Lemma encode_I lineno out pc n w va code :
  encode lineno out pc (S n) (ch "I") w va code
  = (let i := va_val va 1 in
     if i =? 0 then ret (put code [Z.lor 0x80 (va_rno va 0); 0xff])
     else if i =? 1 then ret (put code [Z.lor 0x00 (va_rno va 0); 0xf8])
     else if (i >=? -32768) && (i <=? 32767) then
            encode lineno out pc n (ch "A") 0x30f9
                   (set_val (set_rno va 1 0) 2 (va_val (set_rno va 1 0) 1)) code
          else ret (put code [Z.shiftr w 8; Z.lor w (Z.shiftl (va_rno va 0) 4);
                              Z.shiftr i 24; Z.shiftr i 16; Z.shiftr i 8; i])).
Proof. reflexivity. Qed.

Lemma uint8_lor a b : uint8 (Z.lor a b) = Z.lor (uint8 a) (uint8 b).
Proof.
  unfold uint8. change 256 with (2 ^ 8). rewrite <- !Z.land_ones by lia.
  apply Z.land_lor_distr_l.
Qed.

(** Or-ing a register number into a byte gives a byte. *)
Lemma lor_byte c reg :
  0 <= c < 256 -> 0 <= reg < 256 -> uint8 (Z.lor c reg) = Z.lor c reg.
Proof.
  intros Hc Hr. rewrite uint8_lor. now rewrite !uint8_small.
Qed.

(** C5. [LI reg, imm] matches the row of kind [I] with base word [0x0f0c],
    whose cases are tried in this order: [imm = 0] gives the 2 bytes
    [0x80 | reg], [0xff]; [imm = 1] the 2 bytes [0x00 | reg], [0xf8]; any other
    [imm] in -32768..32767 the 4-byte A form with base word [0x30f9], second
    register 0 and no diagnostic; any other [imm] the 6 bytes made of the
    high byte of the base word, its low byte with [reg << 4], and the 32 bits
    of [imm], high byte first. *)
Theorem li_encoding (lineno : Z) (out : bool) (pc reg imm x y : Z) (a2 : arg)
        (code : list Z) (s : state) :
  0 <= reg <= 15 -> -2147483648 <= imm < 2147483648 ->
  let va := [mkArg kR reg x; mkArg kN y imm; a2] in
  match_entry OP_LI 2 va = Some (mkEntry OP_LI 2 [kR; kN; k_] (ch "I") 0x0f0c) /\
  encode lineno out pc 3 (ch "I") 0x0f0c va code s
  = Ok (code ++
        (if imm =? 0 then [Z.lor 0x80 reg; 0xff]
         else if imm =? 1 then [Z.lor 0x00 reg; 0xf8]
         else if (-32768 <=? imm) && (imm <=? 32767) then
                [Z.lor 0x30 reg; 0xf9; uint8 (Z.shiftr imm 8); uint8 imm]
              else [0x0f; Z.lor 0x0c (Z.shiftl reg 4); uint8 (Z.shiftr imm 24);
                    uint8 (Z.shiftr imm 16); uint8 (Z.shiftr imm 8); uint8 imm])) s /\
  ((imm =? 0) || (imm =? 1) = false -> (-32768 <=? imm) && (imm <=? 32767) = true ->
   encode lineno out pc 3 (ch "I") 0x0f0c va code s
   = encode lineno out pc 2 (ch "A") 0x30f9
            [mkArg kR reg x; mkArg kN 0 imm; mkArg (k a2) (rno a2) imm] code s).
Proof.
  intros Hr Hi va. split; [reflexivity |]. split.
  - rewrite encode_I. unfold va. cbv zeta.
    change (va_val [mkArg kR reg x; mkArg kN y imm; a2] 1) with imm.
    change (va_rno [mkArg kR reg x; mkArg kN y imm; a2] 0) with reg.
    destruct (Z.eqb_spec imm 0) as [E0 | N0].
    { unfold ret, put. cbn [map]. change (uint8 255) with 255.
      rewrite (lor_byte 128 reg) by lia. reflexivity. }
    destruct (Z.eqb_spec imm 1) as [E1 | N1].
    { unfold ret, put. cbn [map]. change (uint8 248) with 248.
      rewrite (lor_byte 0 reg) by lia. reflexivity. }
    rewrite Z.geb_leb.
    destruct ((-32768 <=? imm) && (imm <=? 32767)) eqn:R.
    + rewrite encode_A.
      change (va_val _ 2) with imm. change (va_rno _ 0) with reg.
      change (va_rno _ 1) with 0.
      assert (O : out_of_int16 imm = false).
      { apply andb_true_iff in R. destruct R as [R1 R2].
        apply Z.leb_le in R1. apply Z.leb_le in R2. unfold out_of_int16.
        apply orb_false_iff. split; [rewrite Z.geb_leb; apply Z.leb_gt | apply Z.ltb_ge]; lia. }
      rewrite O, andb_false_r. unfold bind, when, ret, put. cbn [map].
      change (Z.shiftr 12537 8) with 48.
      rewrite (lor_byte 48 reg) by lia. reflexivity.
    + unfold ret, put. cbn [map].
      change (uint8 (Z.shiftr 3852 8)) with 15.
      replace (Z.shiftl reg 4) with (16 * reg)
        by (rewrite Z.shiftl_mul_pow2 by lia; change (2 ^ 4) with 16; lia).
      rewrite uint8_lor. change (uint8 3852) with 12.
      rewrite (uint8_small (16 * reg)) by lia. reflexivity.
  - intros E R. rewrite encode_I. unfold va. cbv zeta.
    change (va_val [mkArg kR reg x; mkArg kN y imm; a2] 1) with imm.
    apply orb_false_iff in E. destruct E as [E0 E1]. rewrite E0, E1.
    rewrite Z.geb_leb, R. reflexivity.
Qed.

Lemma li_encoding_witness :
  encode 1 true 0 3 (ch "I") 0x0f0c [mkArg kR 1 0; mkArg kN 0 5; arg0] [] initial_state
  = Ok [0x31; 0xf9; 0x00; 0x05] initial_state.
Proof.
  exact (proj1 (proj2 (li_encoding 1 true 0 1 5 0 0 arg0 [] initial_state
                                   ltac:(lia) ltac:(lia)))).
Defined.

(** The four cases on whole runs: [LI R3, 0], [LI R3, 1], [LI R3, 2] and
    [LI R3, $100000]. *)
Example li_runs :
  returned (main 8 [source [" LI R3, 0"]%string] initial_state)
  = Some (0, [], source [":0200000083FF7C"; ":00000001FF"]%string) /\
  returned (main 8 [source [" LI R3, 1"]%string] initial_state)
  = Some (0, [], source [":0200000003F803"; ":00000001FF"]%string) /\
  returned (main 8 [source [" LI R3, 2"]%string] initial_state)
  = Some (0, [], source [":0400000033F90002CE"; ":00000001FF"]%string) /\
  returned (main 8 [source [" LI R3, $100000"]%string] initial_state)
  = Some (0, [], source [":060000000F3C001000009F"; ":00000001FF"]%string).
Proof. vm_compute. repeat split. Qed.

Lemma encode_B lineno out pc n w va code :
  encode lineno out pc (S n) (ch "B") w va code
  = (let off := branch_offset pc (va_val va 0) in
     when (out && out_of_int16 off) (error lineno "branch out of range") ;;;
     ret (put code [Z.shiftr w 8; w; Z.shiftr off 8; off])).
Proof. reflexivity. Qed.

Lemma encode_b lineno out pc n w va code :
  encode lineno out pc (S n) (ch "b") w va code
  = encode lineno out pc n (ch "B")
           (uint32 (Z.lor w (Z.lor (Z.shiftl (va_rno va 0) 8) (Z.shiftl (va_rno va 1) 4))))
           (set_val va 0 (va_val va 2)) code.
Proof. reflexivity. Qed.

Lemma encode_bang lineno out pc n w va code :
  encode lineno out pc (S n) (ch "!") w va code
  = encode lineno out pc n (ch "B") (uint32 (Z.lor w (Z.shiftl (va_rno va 0) 8)))
           (set_val va 0 (va_val va 1)) code.
Proof. reflexivity. Qed.

Lemma out_of_int16_spec v :
  out_of_int16 v = true <-> (v < -32768 \/ 32767 < v).
Proof.
  unfold out_of_int16. rewrite orb_true_iff, Z.geb_leb, Z.leb_le, Z.ltb_lt. lia.
Qed.

Lemma branch_B lineno out pc w va code s :
  let off := branch_offset pc (va_val va 0) in
  let r := encode lineno out pc 1 (ch "B") w va code s in
  let bytes := code ++ [uint8 (Z.shiftr w 8); uint8 w; uint8 (Z.shiftr off 8); uint8 off] in
  (out = false \/ -32768 <= off <= 32767 -> r = Ok bytes s) /\
  (out = true -> off < -32768 \/ 32767 < off ->
   raises r s lineno "branch out of range" /\
   forall x s', r = Ok x s' -> x = bytes).
Proof.
  intros off r bytes. unfold r. rewrite encode_B. cbv zeta. fold off. split.
  - intros H.
    assert (E : out && out_of_int16 off = false).
    { destruct H as [-> | H]; [reflexivity |].
      destruct (out_of_int16 off) eqn:O; [| apply andb_false_r].
      apply out_of_int16_spec in O. lia. }
    rewrite E. reflexivity.
  - intros -> H. apply out_of_int16_spec in H. rewrite H. cbn [andb when].
    unfold bind. pose proof (error_raises lineno "branch out of range" s) as R.
    destruct (error lineno "branch out of range" s) as [[] s1 | s1 | |];
      cbn in R |- *; try contradiction.
    + split; [exact R |]. intros x s' [= <- _]. reflexivity.
    + split; [exact R |]. intros x s' [=].
Qed.

(** C6, as the code has it.  For the three branch kinds, on the final pass
    ([out] true): a half-word offset from -32768 to 32767 is encoded without a
    diagnostic, and an offset below -32768 or above 32767 raises "branch out
    of range" (the bytes are produced all the same); on the other passes no
    diagnostic is raised whatever the offset. *)
Theorem branch_range (lineno : Z) (out : bool) (pc k w : Z) (a0 a1 a2 : arg)
        (code : list Z) (s : state) :
  k = ch "B" \/ k = ch "b" \/ k = ch "!" ->
  let va := [a0; a1; a2] in
  let off := branch_offset pc (branch_target k va) in
  let r := encode lineno out pc 3 k w va code s in
  (out = false \/ -32768 <= off <= 32767 ->
   exists b0 b1, r = Ok (code ++ [b0; b1; uint8 (Z.shiftr off 8); uint8 off]) s) /\
  (out = true -> off < -32768 \/ 32767 < off ->
   raises r s lineno "branch out of range" /\
   forall x s', r = Ok x s' ->
                exists b0 b1, x = code ++ [b0; b1; uint8 (Z.shiftr off 8); uint8 off]).
Proof.
  intros K va off r.
  assert (E : exists w',
             r = encode lineno out pc 1 (ch "B") w'
                        (set_val va 0 (branch_target k va)) code s).
  { unfold r. destruct K as [-> | [-> | ->]].
    - exists w. destruct a0; reflexivity.
    - eexists. rewrite encode_b. reflexivity.
    - eexists. rewrite encode_bang. reflexivity. }
  destruct E as [w' E]. rewrite E.
  pose proof (branch_B lineno out pc w' (set_val va 0 (branch_target k va)) code s) as B.
  cbv zeta in B.
  change (va_val (set_val va 0 (branch_target k va)) 0) with (branch_target k va) in B.
  fold off in B. destruct B as [B1 B2]. split.
  - intros H. do 2 eexists. apply B1, H.
  - intros Ho H. destruct (B2 Ho H) as [R X]. split; [exact R |].
    intros x s' Hx. do 2 eexists. apply (X x s' Hx).
Qed.

Lemma branch_range_witness :
  let va := [mkArg kN 0 0; arg0; arg0] in
  let off := branch_offset 0xFFFC (branch_target (ch "B") va) in
  -32768 <= off <= 32767 /\
  exists b0 b1,
    encode 1 true 0xFFFC 3 (ch "B") 0x2ff0 va [] initial_state
    = Ok ([] ++ [b0; b1; uint8 (Z.shiftr off 8); uint8 off]) initial_state.
Proof.
  intros va off.
  assert (H : -32768 <= off <= 32767) by (vm_compute; split; discriminate).
  split; [exact H |].
  exact (proj1 (branch_range 1 true 0xFFFC (ch "B") 0x2ff0 (mkArg kN 0 0) arg0 arg0 []
                             initial_state (or_introl eq_refl)) (or_intror H)).
Defined.

(** C6 as stated fails at the offset -32768: on the final pass [BRA 0] at
    0xFFFC has that offset and is encoded without any diagnostic. *)
Lemma branch_minus_32768_accepted :
  branch_offset 0xFFFC 0 = -32768 /\
  encode 2 true 0xFFFC 3 (ch "B") 0x2ff0 [mkArg kN 0 0; arg0; arg0] [] initial_state
  = Ok [0x2f; 0xf0; 0x80; 0x00] initial_state /\
  returned (main 8 [source [" .ORG $FFFC"; " BRA 0"]%string] initial_state)
  = Some (0, [], source [":04FFFC002FF0800062"; ":00000001FF"]%string).
Proof. vm_compute. repeat split. Qed.

(** ** The two-line scenario *)

(** C4 as stated fails: the second line yields the bytes 21 01 FF FC, with
    the registers in the high and the condition in the low nibble of the
    second byte, and not 21 10 FF FC. *)
Lemma bne_bytes_not_21_10 :
  let f := source ["A: ADD R1, R1, 1"; "B: BNE R1, R0, A"]%string in
  returned (final_pass_second_line f initial_state)
  = Some ((4, Some (mkLvars 17 4 [0x21; 0x01; 0xFF; 0xFC] 0 false false)), [], []) /\
  [0x21; 0x01; 0xFF; 0xFC] <> [0x21; 0x10; 0xFF; 0xFC].
Proof. split; [vm_compute; reflexivity | discriminate]. Qed.

(** C4, as the code has it.  Assembling [A: ADD R1, R1, 1] followed by
    [B: BNE R1, R0, A] from counter 0 takes the passes 0 and 1 and the final
    pass 2, without diagnostics.  On the final pass the first line emits the
    4 bytes 31 14 00 01 of the A form; the second line, at counter 4, matches
    the row of kind [b] with base word [0x2001], is rewritten to kind [B] with
    target 0 and offset (0 - 8) / 2 = -4, and emits exactly 21 01 FF FC.  The
    output is one data record with these 8 bytes and the end record. *)
Theorem add_bne_scenario :
  let f := source ["A: ADD R1, R1, 1"; "B: BNE R1, R0, A"]%string in
  returned (main 8 [f] initial_state)
  = Some (0, [], source [":08000000311400012101FFFC95"; ":00000001FF"]%string) /\
  returned (passes 8 [f] 0 false initial_state)
  = Some (3, [], source [":08000000311400012101FFFC95"; ":00000001FF"]%string) /\
  returned ((one_pass [f] 0 false ;;; one_pass [f] 1 false ;;; modify output_to ;;;
             line_body 2 true 1 (nth 0 (file_lines [] f) []) None 0) initial_state)
  = Some ((Some 0%nat, Some (mkLvars 17 4 [0x31; 0x14; 0x00; 0x01] 0 false false)),
          [], []) /\
  returned (final_pass_second_line f initial_state)
  = Some ((4, Some (mkLvars 17 4 [0x21; 0x01; 0xFF; 0xFC] 0 false false)), [], []) /\
  match_entry OP_BNE 3 [mkArg kR 1 0; mkArg kR 0 0; mkArg kN 0 0]
  = Some (mkEntry OP_BNE 3 [kR; kR; kN] (ch "b") 0x2001) /\
  branch_offset 4 0 = -4 /\
  (forall s, encode 2 true 4 3 (ch "b") 0x2001
                    [mkArg kR 1 0; mkArg kR 0 0; mkArg kN 0 0] [] s
             = encode 2 true 4 2 (ch "B") 0x2101
                      [mkArg kR 1 0; mkArg kR 0 0; mkArg kN 0 0] [] s) /\
  (forall s, encode 2 true 4 3 (ch "b") 0x2001
                    [mkArg kR 1 0; mkArg kR 0 0; mkArg kN 0 0] [] s
             = Ok [0x21; 0x01; 0xFF; 0xFC] s).
Proof.
  repeat split; try (vm_compute; reflexivity); intros s; reflexivity.
Qed.

(** ** Data directives *)

Lemma low16_bytes v :
  [uint8 (Z.shiftr v 8); uint8 v] = [(v mod 65536) / 256; (v mod 65536) mod 256].
Proof.
  unfold uint8. rewrite Z.shiftr_div_pow2 by lia. change (2 ^ 8) with 256.
  pose proof (Z.div_mod v 65536 ltac:(lia)).
  pose proof (Z.mod_pos_bound v 65536 ltac:(lia)).
  pose proof (Z.div_mod v 256 ltac:(lia)).
  pose proof (Z.mod_pos_bound v 256 ltac:(lia)).
  pose proof (Z.div_mod (v / 256) 256 ltac:(lia)).
  pose proof (Z.mod_pos_bound (v / 256) 256 ltac:(lia)).
  pose proof (Z.div_mod (v mod 65536) 256 ltac:(lia)).
  pose proof (Z.mod_pos_bound (v mod 65536) 256 ltac:(lia)).
  f_equal; [| f_equal]; lia.
Qed.

Lemma words_step out lineno buf pc mainlbl n p code s q v s1 :
  expr lineno mainlbl (negb out) pc buf (expr_depth buf) p s = Ok (Some q, v) s1 ->
  words out lineno buf pc mainlbl (S n) p code s
  = (when (out && (v >? 65536)) (error lineno ".WORD overflow") ;;;
     if negb (peek buf q =? ch ",")
     then ret (Some (q, put code [Z.shiftr v 8; v]))
     else words out lineno buf pc mainlbl n (S q) (put code [Z.shiftr v 8; v])) s1.
Proof.
  intros E. cbn [words]. rewrite (bind_ok _ _ _ _ _ E). reflexivity.
Qed.

(** C8. Each expression of a [.WORD] list that parses to [v] (an unsigned
    32-bit value) appends the low 16 bits of [v], high byte first, and the
    loop goes on with the next expression after a comma or ends.  The range
    check is made only on the final pass ([out] true) and compares with
    65536 by greater-than: 65536 itself and anything below pass without a
    diagnostic, any greater value raises ".WORD overflow". *)
Theorem word_range_check (out : bool) (lineno : Z) (buf : list Z) (pc : Z)
        (mainlbl : option nat) (n p : nat) (code : list Z) (s : state)
        (q : nat) (v : Z) (s1 : state) :
  expr lineno mainlbl (negb out) pc buf (expr_depth buf) p s = Ok (Some q, v) s1 ->
  let code' := code ++ [(v mod 65536) / 256; (v mod 65536) mod 256] in
  let rest := if negb (peek buf q =? ch ",") then ret (Some (q, code'))
              else words out lineno buf pc mainlbl n (S q) code' in
  let r := words out lineno buf pc mainlbl (S n) p code s in
  (out = false \/ v <= 65536 -> r = rest s1) /\
  (out = true -> 65536 < v ->
   raises (error lineno ".WORD overflow" s1) s1 lineno ".WORD overflow" /\
   r = (error lineno ".WORD overflow" ;;; rest) s1).
Proof.
  intros E code' rest r. unfold r. rewrite (words_step _ _ _ _ _ _ _ _ _ _ _ _ E).
  unfold put. cbn [map]. rewrite low16_bytes. fold code'. fold rest. split.
  - intros H.
    assert (C : out && (v >? 65536) = false).
    { destruct H as [-> | H]; [reflexivity |].
      rewrite Z.gtb_ltb. destruct (Z.ltb_spec 65536 v); [lia | apply andb_false_r]. }
    rewrite C. reflexivity.
  - intros -> H. rewrite Z.gtb_ltb. destruct (Z.ltb_spec 65536 v); [| lia].
    split; [apply error_raises | reflexivity].
Qed.

Lemma word_range_check_witness :
  words true 1 (bytes_of_string " .WORD 65536") 0 None 1 7 [] initial_state
  = Ok (Some (12%nat, [0; 0])) initial_state.
Proof.
  apply (word_range_check true 1 (bytes_of_string " .WORD 65536") 0 None 0 7 []
                          initial_state 12 65536 initial_state).
  - vm_compute. reflexivity.
  - right. lia.
Defined.

(** The same on whole runs: 65536 passes and gives 00 00; 65537 and -1, which
    is 4294967295 as an unsigned value, are diagnosed on the final pass, and
    [main] adds its summary of one error. *)
Example word_runs :
  returned (main 8 [source [" .WORD 65536"]%string] initial_state)
  = Some (0, [], source [":020000000000FE"; ":00000001FF"]%string) /\
  returned (main 8 [source [" .WORD 65537"]%string] initial_state)
  = Some (1, [Error 1 ".WORD overflow"; Summary 1],
          source [":020000000001FD"; ":00000001FF"]%string) /\
  returned (main 8 [source [" .WORD -1"]%string] initial_state)
  = Some (1, [Error 1 ".WORD overflow"; Summary 1],
          source [":02000000FFFF00"; ":00000001FF"]%string) /\
  returned (one_pass [source [" .WORD 65537"]%string] 0 false initial_state)
  = Some (tt, [], []).
Proof. vm_compute. repeat split. Qed.

(** ** The expression parser *)

(** *** What a run leaves alone

    The lemmas of this part hold for any relation [R] between the state before
    and the state after that the elementary updates respect: the assembler
    as a whole then respects it. *)

Create HintDb frame.

Section Frame.
Variable R : state -> state -> Prop.
Hypothesis R_refl : forall s, R s s.
Hypothesis R_trans : forall s1 s2 s3, R s1 s2 -> R s2 s3 -> R s1 s3.
Hypothesis R_diag : forall s n e, R s (set_diag s n e).
Hypothesis R_labels : forall s t n l, R s (set_labels s t n l).
Hypothesis R_emit : forall s a b, R s (emit a b s).

Lemma keeps_ret {A : Type} (a : A) : keeps R (ret a).
Proof. intros s. apply R_refl. Qed.

Lemma keeps_bind {A B : Type} (m : M A) (f : A -> M B) :
  keeps R m -> (forall a, keeps R (f a)) -> keeps R (bind m f).
Proof.
  intros Hm Hf s. unfold bind. specialize (Hm s).
  destruct (m s) as [a s1 | s1 | |]; auto.
  specialize (Hf a s1). destruct (f a s1); eauto.
Qed.

Lemma keeps_error lineno msg : keeps R (error lineno msg).
Proof. intros s. unfold error. destruct (_ >=? _); apply R_diag. Qed.

Lemma keeps_fatal {A : Type} msg : keeps R (@fatal A msg).
Proof. intros s. apply R_diag. Qed.

Lemma keeps_when b (m : M unit) : keeps R m -> keeps R (when b m).
Proof. destruct b; [auto | intros _; apply keeps_ret]. Qed.

Lemma keeps_get {A : Type} (f : state -> A) : keeps R (get f).
Proof. intros s. apply R_refl. Qed.

Lemma keeps_modify (f : state -> state) : (forall s, R s (f s)) -> keeps R (modify f).
Proof. intros H s. apply H. Qed.

Lemma keeps_undefined {A : Type} : keeps R (@undefined A).
Proof. intros s. exact I. Qed.

Lemma keeps_nofuel {A : Type} : keeps R (fun _ : state => @NoFuel A).
Proof. intros s. exact I. Qed.

Lemma R_set_label i l s : R s (set_label i l s).
Proof. apply R_labels. Qed.

Lemma R_or_flags l f s : R s (or_flags l f s).
Proof. apply R_labels. Qed.

Lemma R_set_value l v s : R s (set_value l v s).
Proof. apply R_labels. Qed.

Lemma keeps_add_label master id at_ : keeps R (add_label master id at_).
Proof.
  intros s. unfold add_label.
  destruct (_ >=? _); [apply R_diag |].
  destruct (_ >? _); [exact I |].
  destruct master; (eapply R_trans; [apply R_labels |]);
    repeat (first [apply R_labels | eapply R_trans; [apply R_labels |]]).
Qed.

Lemma R_emit_bytes pc code : forall i s, R s (emit_bytes pc i code s).
Proof.
  induction code as [| b t IH]; intros i s; cbn [emit_bytes]; [apply R_refl |].
  eapply R_trans; [apply R_emit | apply IH].
Qed.

End Frame.

#[local] Hint Resolve keeps_ret keeps_error keeps_fatal keeps_when keeps_get
  keeps_undefined keeps_nofuel keeps_add_label : frame.

Ltac keeps_step :=
  match goal with
  | |- keeps _ (bind _ _) => apply keeps_bind; [assumption | | intros ?]
  | |- keeps _ (if ?c then _ else _) => destruct c
  | |- keeps _ (match ?x with _ => _ end) => destruct x
  | |- keeps _ (modify _) =>
      apply keeps_modify; intros ?;
      unfold or_flags, set_value, set_label;
      solve [auto | apply R_emit_bytes; assumption]
  | |- keeps _ (when _ _) => apply keeps_when; [assumption |]
  | |- keeps _ _ => solve [auto with frame]
  end.

Section FrameAssembler.
Variable R : state -> state -> Prop.
Hypothesis R_refl : forall s, R s s.
Hypothesis R_trans : forall s1 s2 s3, R s1 s2 -> R s2 s3 -> R s1 s3.
Hypothesis R_diag : forall s n e, R s (set_diag s n e).
Hypothesis R_labels : forall s t n l, R s (set_labels s t n l).

Lemma keeps_element lineno mainlbl allow_undef pc buf rec p :
  (forall q, keeps R (rec q)) ->
  keeps R (element lineno mainlbl allow_undef pc buf rec p).
Proof.
  intros Hrec. unfold element. repeat keeps_step.
Qed.



Lemma keeps_expr_loop lineno mainlbl allow_undef pc buf rec n :
  (forall q, keeps R (rec q)) ->
  forall sval sop p,
    keeps R (expr_loop lineno mainlbl allow_undef pc buf rec n sval sop p).
Proof.
  intros Hrec. induction n as [| n IH]; intros sval sop p; cbn [expr_loop].
  - apply keeps_nofuel.
  - apply keeps_bind; [assumption | now apply keeps_element |].
    intros [v op q | q]; repeat keeps_step; apply IH.
Qed.

Lemma keeps_expr_done lineno r : keeps R (expr_done lineno r).
Proof.
  destruct r as [[sval sop] p]. unfold expr_done. repeat keeps_step.
Qed.

Lemma keeps_expr lineno mainlbl allow_undef pc buf d :
  forall p, keeps R (expr lineno mainlbl allow_undef pc buf d p).
Proof.
  induction d as [| d IH]; intros p; cbn [expr].
  - apply keeps_nofuel.
  - apply keeps_bind; [assumption | now apply keeps_expr_loop |].
    intros r. apply keeps_expr_done.
Qed.

Hypothesis R_more : forall s b, R s (set_more s b).
Hypothesis R_buffer : forall s b, R s (set_buffer s b).
Hypothesis R_emit : forall s a b, R s (emit a b s).
Hypothesis R_file : forall s, R s (output_to s).
Hypothesis R_done : forall s, R s (emit_done s).

Lemma keeps_line_label pass out lineno buf pc mainlbl :
  keeps R (line_label pass out lineno buf pc mainlbl).
Proof.
  unfold line_label, set_mark. repeat keeps_step.
Qed.

Lemma keeps_words out lineno buf pc mainlbl n :
  forall p code, keeps R (words out lineno buf pc mainlbl n p code).
Proof.
  induction n as [| n IH]; intros p code; cbn [words].
  - apply keeps_nofuel.
  - apply keeps_bind; [assumption | apply keeps_expr; assumption |].
    intros vp. repeat keeps_step.
Qed.

Lemma keeps_bytes out lineno buf pc mainlbl n :
  forall p code, keeps R (bytes_ out lineno buf pc mainlbl n p code).
Proof.
  induction n as [| n IH]; intros p code; cbn [bytes_].
  - apply keeps_nofuel.
  - repeat keeps_step; apply keeps_expr; assumption.
Qed.

Lemma keeps_directive out lineno buf pc mainlbl lbl p :
  keeps R (directive out lineno buf pc mainlbl lbl p).
Proof.
  unfold directive.
  repeat keeps_step;
    first [apply keeps_expr; assumption | apply keeps_words | apply keeps_bytes].
Qed.

Lemma keeps_encode lineno out pc n :
  forall k w va code, keeps R (encode lineno out pc n k w va code).
Proof.
  induction n as [| n IH]; intros k w va code; cbn [encode].
  - apply keeps_nofuel.
  - repeat keeps_step.
Qed.

Lemma keeps_arguments out lineno buf pc mainlbl n :
  forall p sep na va, keeps R (arguments out lineno buf pc mainlbl n p sep na va).
Proof.
  induction n as [| n IH]; intros p sep na va; cbn [arguments].
  - apply keeps_nofuel.
  - repeat keeps_step; apply keeps_expr; assumption.
Qed.

Lemma keeps_instruction out lineno buf pc mainlbl p :
  keeps R (instruction out lineno buf pc mainlbl p).
Proof.
  unfold instruction.
  repeat keeps_step; first [apply keeps_arguments | apply keeps_encode].
Qed.

Lemma keeps_readline chunk : keeps R (readline chunk).
Proof.
  intros s. unfold readline. destruct (_ >=? _); [apply R_diag | apply R_buffer].
Qed.

Lemma keeps_line_body pass out lineno chunk mainlbl pc :
  keeps R (line_body pass out lineno chunk mainlbl pc).
Proof.
  unfold line_body.
  repeat keeps_step;
    first [apply keeps_readline | apply keeps_line_label | apply keeps_directive
           | apply keeps_instruction].
Qed.

Lemma keeps_line_tail out lineno pc lv : keeps R (line_tail out lineno pc lv).
Proof.
  unfold line_tail. repeat keeps_step.
Qed.

Lemma keeps_assemble_line pass out lineno chunk mainlbl pc :
  keeps R (assemble_line pass out lineno chunk mainlbl pc).
Proof.
  unfold assemble_line.
  repeat keeps_step; first [apply keeps_line_body | apply keeps_line_tail].
Qed.

Lemma keeps_assemble_lines pass out chunks :
  forall lineno mainlbl pc, keeps R (assemble_lines pass out chunks lineno mainlbl pc).
Proof.
  induction chunks as [| c t IH]; intros lineno mainlbl pc; cbn [assemble_lines].
  - apply keeps_ret; assumption.
  - apply keeps_bind; [assumption | apply keeps_assemble_line |].
    intros r. apply IH.
Qed.

Lemma keeps_assemble_files files pass out :
  forall pc, keeps R (assemble_files files pass out pc).
Proof.
  induction files as [| f t IH]; intros pc; cbn [assemble_files].
  - apply keeps_ret; assumption.
  - apply keeps_bind; [assumption | apply keeps_assemble_lines |].
    intros r. apply IH.
Qed.

Lemma keeps_one_pass files pass last : keeps R (one_pass files pass last).
Proof.
  unfold one_pass, set_mark. repeat keeps_step. apply keeps_assemble_files.
Qed.

Lemma keeps_passes n files :
  forall pass last, keeps R (passes n files pass last).
Proof.
  induction n as [| n IH]; intros pass last; cbn [passes].
  - apply keeps_nofuel.
  - repeat keeps_step. apply keeps_one_pass.
Qed.

Lemma keeps_main n files : keeps R (main n files).
Proof.
  unfold main. destruct files as [| f files]; [intros s; apply R_refl |].
  apply keeps_bind; [assumption | apply keeps_passes | intros ?].
  apply keeps_bind; [assumption | apply keeps_get; assumption | intros ec].
  destruct (negb (ec =? 0)); [| apply keeps_ret; assumption].
  apply keeps_bind; [assumption | | intros ?; apply keeps_ret; assumption].
  apply keeps_modify. intros s. apply R_diag.
Qed.

End FrameAssembler.

(** The evaluator never writes the "more work" flag. *)
Lemma expr_keeps_more lineno mainlbl allow_undef pc buf d p :
  keeps_more (expr lineno mainlbl allow_undef pc buf d p).
Proof.
  apply keeps_expr; try reflexivity; intros; congruence.
Qed.

Lemma error_keeps_more lineno msg : keeps_more (error lineno msg).
Proof. intros s. unfold error. destruct (_ >=? _); reflexivity. Qed.

(** *** References to labels *)

(** A character that starts a reference to a label starts no other kind of
    element. *)
Lemma label_start_only c :
  0 <= c < 256 ->
  (c =? ch ":") || isalpha c || (c =? ch ".") = true ->
  (c =? ch "(") = false /\ (c =? ch "$") = false /\ isdigit c = false /\
  (c =? ch "-") = false /\ (c =? ch "'") = false /\ isbinop c = false.
Proof.
  intros Hc H.
  assert (C : forallb (fun n => let c := Z.of_nat n in
                implb ((c =? ch ":") || isalpha c || (c =? ch "."))
                      (negb (c =? ch "(") && negb (c =? ch "$") && negb (isdigit c)
                       && negb (c =? ch "-") && negb (c =? ch "'") && negb (isbinop c)))
              (seq 0 256) = true) by (vm_compute; reflexivity).
  rewrite forallb_forall in C. specialize (C (Z.to_nat c)).
  cbv zeta in C. rewrite Z2Nat.id in C by lia. rewrite H in C.
  specialize (C ltac:(apply in_seq; lia)). cbn [implb] in C.
  repeat (apply andb_true_iff in C; destruct C as [C ?]).
  repeat match goal with X : negb _ = true |- _ => apply negb_true_iff in X end.
  auto 10.
Qed.

Lemma find_from_table s s' id n :
  tlabel s' = tlabel s -> forall i, find_from s' id n i = find_from s id n i.
Proof.
  intros T. induction n as [| n IH]; intros i; cbn [find_from]; [reflexivity |].
  unfold get_label. rewrite T, IH. reflexivity.
Qed.

(** A diagnostic does not change what [find_label] finds. *)
Lemma error_find_label lineno msg s a s1 master id :
  error lineno msg s = Ok a s1 -> find_label s1 master id = find_label s master id.
Proof.
  unfold error. cbv zeta. destruct (_ >=? _); [discriminate |].
  intros [= _ <-]. unfold find_label, get_label. cbn [set_diag tlabel nlabel].
  apply find_from_table. reflexivity.
Qed.

(** What [element] does on a reference to a label that [find_label] does not
    find. *)
Lemma element_undefined lineno mainlbl allow_undef pc buf rec p s :
  let c := peek buf p in
  let p1 := if c =? ch ":" then S p else p in
  let local := peek buf p1 =? ch "." in
  let p2 := if local then S p1 else p1 in
  let id := map toupper (span isident (skipn p2 buf)) in
  0 <= c < 256 ->
  (c =? ch ":") || isalpha c || (c =? ch ".") = true ->
  find_label s (if local then mainlbl else None) id = None ->
  element lineno mainlbl allow_undef pc buf rec p s
  = (when (local && is_null mainlbl)
          (error lineno "local label in expr without main label") ;;;
     when (negb allow_undef) (error lineno "undefined label in expr") ;;;
     ret (Item 0 0 (p2 + length id)%nat)) s.
Proof.
  intros c p1 local p2 id Hc Hstart Hfind.
  destruct (label_start_only c Hc Hstart) as (H1 & H2 & H3 & H4 & H5 & H6).
  unfold element. fold c. rewrite H1, H2, H3, H4, H5, H6. cbn [orb andb].
  rewrite Hstart. fold p1. fold local. fold p2. fold id.
  apply bind_cong. intros [] s1 W.
  assert (F : find_label s1 (if local then mainlbl else None) id = None).
  { destruct (local && is_null mainlbl); cbn [when] in W.
    - now rewrite (error_find_label _ _ _ _ _ _ _ W).
    - injection W as <-. exact Hfind. }
  unfold bind at 1. unfold get at 1. rewrite F. reflexivity.
Qed.

(** What [expr] does with a reference that finds no label, once the check of
    a local reference is behind it, in the state [s]. *)
Lemma undefined_after_check lineno allow_undef q s :
  let r := (when (negb allow_undef) (error lineno "undefined label in expr") ;;;
            ret (Item 0 0 q)) s in
  (allow_undef = true -> r = Ok (Item 0 0 q) s) /\
  (allow_undef = false ->
   raises r s lineno "undefined label in expr" /\
   forall it s', r = Ok it s' -> it = Item 0 0 q /\ more s' = more s).
Proof.
  intros r. unfold r. split.
  - intros ->. reflexivity.
  - intros ->. cbn [negb when]. unfold bind.
    pose proof (error_raises lineno "undefined label in expr" s) as R.
    pose proof (error_keeps_more lineno "undefined label in expr" s) as K.
    destruct (error lineno "undefined label in expr" s) as [[] s1 | s1 | |];
      cbn in R |- *; try contradiction.
    + split; [exact R |]. intros it s' [= <- <-]. auto.
    + split; [exact R |]. intros it s' [=].
Qed.

(** C3, as the code has it.  When [expr] meets a reference to a label that
    is not in the symbol table, the value of the operand is 0.  A local
    reference made while there is no main label is first reported, with
    "local label in expr without main label", whatever [allow_undef] is (the
    name is then looked for among the global labels); if this report reaches
    the error limit the process exits there.  After that, with [allow_undef]
    false the diagnostic "undefined label in expr" is raised, and with
    [allow_undef] true nothing more is raised and the state is left as it
    is.  The "more work" flag is not set in any of these cases: no run of
    [expr] ever changes it, it is set where labels are defined. *)
Theorem undefined_label_reference (lineno : Z) (mainlbl : option nat)
        (allow_undef : bool) (pc : Z) (buf : list Z)
        (rec : nat -> M (option nat * Z)) (p : nat) (s : state) :
  let c := peek buf p in
  let p1 := if c =? ch ":" then S p else p in
  let local := peek buf p1 =? ch "." in
  let p2 := if local then S p1 else p1 in
  let id := map toupper (span isident (skipn p2 buf)) in
  let it0 := Item 0 0 (p2 + length id)%nat in
  let r := element lineno mainlbl allow_undef pc buf rec p s in
  let report := error lineno "local label in expr without main label" s in
  0 <= c < 256 ->
  (c =? ch ":") || isalpha c || (c =? ch ".") = true ->
  find_label s (if local then mainlbl else None) id = None ->
  (local && is_null mainlbl = false ->
   (allow_undef = true -> r = Ok it0 s) /\
   (allow_undef = false ->
    raises r s lineno "undefined label in expr" /\
    forall it s', r = Ok it s' -> it = it0 /\ more s' = more s)) /\
  (local && is_null mainlbl = true ->
   raises report s lineno "local label in expr without main label" /\
   match report with
   | Ok _ s1 =>
       more s1 = more s /\
       (allow_undef = true -> r = Ok it0 s1) /\
       (allow_undef = false ->
        raises r s1 lineno "undefined label in expr" /\
        forall it s', r = Ok it s' -> it = it0 /\ more s' = more s)
   | Exit s1 => r = Exit s1
   | _ => False
   end) /\
  (forall d q, keeps_more (expr lineno mainlbl allow_undef pc buf d q)).
Proof.
  intros c p1 local p2 id it0 r report Hc Hstart Hfind.
  unfold r. rewrite (element_undefined _ _ _ _ _ _ _ _ Hc Hstart Hfind).
  fold c p1 local p2 id it0. split; [| split].
  - intros ->. cbn [when]. unfold bind at 1. unfold ret at 1.
    apply undefined_after_check.
  - intros ->. cbn [when]. subst report.
    pose proof (error_raises lineno "local label in expr without main label" s) as R.
    pose proof (error_keeps_more lineno "local label in expr without main label" s) as K.
    split; [exact R |].
    destruct (error lineno "local label in expr without main label" s)
      as [[] s1 | s1 | |] eqn:E; cbn in R, K |- *; try contradiction.
    2:{ unfold bind at 1. now rewrite E. }
    rewrite (bind_ok _ _ _ _ _ E).
    split; [exact K |].
    destruct (undefined_after_check lineno allow_undef (p2 + length id)%nat s1) as [A B].
    split; [exact A |]. intros U. destruct (B U) as [B1 B2]. split; [exact B1 |].
    intros it s' H. destruct (B2 it s' H) as [B3 B4]. split; [exact B3 | congruence].
  - intros d q. apply expr_keeps_more.
Qed.

Lemma undefined_label_reference_witness :
  element 1 None true 0 (bytes_of_string "FWD") (fun _ => ret (None, 0)) 0 initial_state
  = Ok (Item 0 0 3) initial_state.
Proof.
  refine (proj1 (proj1 (undefined_label_reference 1 None true 0 (bytes_of_string "FWD")
                          (fun _ => ret (None, 0)) 0 initial_state _ _ _) eq_refl)
                eq_refl).
  - vm_compute. split; [discriminate | reflexivity].
  - reflexivity.
  - reflexivity.
Defined.

(** C3 as stated fails for [allow_undef] true: the reference to the unknown
    label [FWD] leaves the state, flag included, as it was.  On pass 0 of the
    one-line source [LI R1, FWD] the flag is therefore still false at the end,
    and pass 1 is already the final pass, on which the label is diagnosed. *)
Lemma undefined_reference_sets_no_flag :
  expr 1 None true 0 (bytes_of_string "FWD")
       (expr_depth (bytes_of_string "FWD")) 0 initial_state
  = Ok (Some 3%nat, 0) initial_state /\
  more initial_state = false /\
  match one_pass [source [" LI R1, FWD"]%string] 0 false initial_state with
  | Ok _ s => more s = false /\ stderr s = []
  | _ => False
  end /\
  returned (passes 8 [source [" LI R1, FWD"]%string] 0 false initial_state)
  = Some (2, [Error 1 "undefined label in expr"],
          source [":0200000081FF7E"; ":00000001FF"]%string).
Proof. vm_compute. repeat split. Qed.

(** ** Labels defined by [.EQU] *)

Lemma nth_upd_same {A : Type} (i : nat) (x d : A) (l : list A) :
  (i < length l)%nat -> nth i (upd i x l) d = x.
Proof.
  revert l. induction i as [| i IH]; intros [| h t] H; simpl in *; try lia.
  - reflexivity.
  - apply IH. lia.
Qed.

Lemma get_set_label i l s :
  (i < length (tlabel s))%nat -> get_label (set_label i l s) i = l.
Proof. intros H. unfold get_label, set_label. cbn. now apply nth_upd_same. Qed.

Lemma tlabel_set_label i l s : length (tlabel (set_label i l s)) = length (tlabel s).
Proof. unfold set_label. cbn. apply length_upd. Qed.

Lemma land_lor_equ f : Z.land (uint8 (Z.lor f (Z.lor LABEL_USED LABEL_EQU))) LABEL_EQU <> 0.
Proof.
  rewrite uint8_lor. change (uint8 (Z.lor LABEL_USED LABEL_EQU)) with 3.
  unfold LABEL_EQU. rewrite Z.land_lor_distr_l. change (Z.land 3 2) with 2.
  intros H. apply Z.lor_eq_0_iff in H. destruct H as [_ H]. discriminate.
Qed.

(** The label step on a line whose label is already there, on a pass after
    the first, when the label carries the [EQU] flag: nothing is changed. *)
Lemma line_label_equ pass out lineno buf pc mainlbl s l :
  let c := peek buf 0 in
  let local := c =? ch "." in
  let p := if local then 1%nat else 0%nat in
  let id := map toupper (span isident (skipn p buf)) in
  let p' := (p + length id)%nat in
  isalpha c || (c =? ch ".") = true ->
  local && is_null mainlbl = false ->
  find_label s (if local then mainlbl else None) id = Some l ->
  pass <> 0 ->
  Z.land (flags (get_label s l)) LABEL_EQU <> 0 ->
  line_label pass out lineno buf pc mainlbl s
  = Ok (Some l, (if local then mainlbl else Some l),
        (if peek buf p' =? ch ":" then S p' else p')) s.
Proof.
  intros c local p id p' Hstart Hloc Hfind Hpass Hequ.
  unfold line_label. fold c. rewrite Hstart. fold local. fold p. fold id. fold p'.
  rewrite Hloc. unfold bind at 1. cbn [when ret].
  unfold bind at 1. unfold get at 1. rewrite Hfind.
  unfold bind at 1. unfold bind at 1. unfold get at 1.
  unfold bind at 1. unfold get at 1.
  destruct (Z.eqb_spec pass 0) as [E | _]; [contradiction |].
  destruct (Z.eqb_spec (Z.land (flags (get_label s l)) LABEL_EQU) 0) as [E | _];
    [contradiction |].
  cbn [andb]. reflexivity.
Qed.

(** The [.EQU] directive on a line with a label, once its expression is
    parsed: the label takes the value of the expression and the flags. *)
Lemma directive_equ out lineno buf pc mainlbl l p s q v s1 :
  map toupper (span isalpha (skipn (S p) buf)) = bytes_of_string "EQU" ->
  expr lineno mainlbl false pc buf (expr_depth buf) (skip_blanks buf (S p + 3)) s
  = Ok (Some q, v) s1 ->
  directive out lineno buf pc mainlbl (Some l) p s
  = Ok (Some (mkLvars q 0 [] 0 false true))
       (or_flags l (Z.lor LABEL_USED LABEL_EQU) (set_value l v s1)).
Proof.
  intros Hid E. unfold directive. rewrite Hid.
  change (strcmp (bytes_of_string "EQU") (bytes_of_string "ORG") =? 0) with false.
  change (strcmp (bytes_of_string "EQU") (bytes_of_string "EQU") =? 0) with true.
  cbv iota.
  change (S p + length (bytes_of_string "EQU"))%nat with (S p + 3)%nat.
  rewrite (bind_ok _ _ _ _ _ E). reflexivity.
Qed.

(** C2, as the code has it.  The value of a label defined by [.EQU] is not
    fixed at its first definition: on every pass the directive assigns the
    label the value its expression has on that pass (and sets the [EQU]
    flag), so the value is the same at the end of two passes when the
    expression evaluates to the same value on both, and not otherwise.  What
    the [EQU] flag fixes is the label step: on a pass after the first, the
    label at the start of the line is found again and, carrying the flag, is
    left alone (its value is not set to the counter, nothing is changed). *)
Theorem equ_value_each_pass :
  (forall pass out lineno buf pc mainlbl s l,
      let c := peek buf 0 in
      let local := c =? ch "." in
      let p := if local then 1%nat else 0%nat in
      let id := map toupper (span isident (skipn p buf)) in
      let p' := (p + length id)%nat in
      isalpha c || (c =? ch ".") = true ->
      local && is_null mainlbl = false ->
      find_label s (if local then mainlbl else None) id = Some l ->
      pass <> 0 ->
      Z.land (flags (get_label s l)) LABEL_EQU <> 0 ->
      line_label pass out lineno buf pc mainlbl s
      = Ok (Some l, (if local then mainlbl else Some l),
            (if peek buf p' =? ch ":" then S p' else p')) s) /\
  (forall out lineno buf pc mainlbl l p s q v s1,
      map toupper (span isalpha (skipn (S p) buf)) = bytes_of_string "EQU" ->
      expr lineno mainlbl false pc buf (expr_depth buf) (skip_blanks buf (S p + 3)) s
      = Ok (Some q, v) s1 ->
      (l < length (tlabel s1))%nat ->
      exists s2,
        directive out lineno buf pc mainlbl (Some l) p s
        = Ok (Some (mkLvars q 0 [] 0 false true)) s2 /\
        value (get_label s2 l) = v /\
        Z.land (flags (get_label s2 l)) LABEL_EQU <> 0).
Proof.
  split.
  - intros. now apply line_label_equ.
  - intros out lineno buf pc mainlbl l p s q v s1 Hid E Hl.
    eexists. split; [exact (directive_equ _ _ _ _ _ _ _ _ _ _ _ Hid E) |].
    unfold or_flags, set_value.
    rewrite !get_set_label by (rewrite ?tlabel_set_label; exact Hl).
    cbn [value flags]. split; [reflexivity | apply land_lor_equ].
Qed.

Lemma equ_value_each_pass_witness :
  let buf := bytes_of_string "X .EQU 5" in
  let s := after_pass (source ["X .EQU 5"]%string) 0 initial_state in
  line_label 1 false 1 buf 0 None s = Ok (Some 0%nat, Some 0%nat, 1%nat) s /\
  exists s2,
    directive false 1 buf 0 (Some 0%nat) (Some 0%nat) 2 s
    = Ok (Some (mkLvars 8 0 [] 0 false true)) s2 /\
    value (get_label s2 0) = 5 /\
    Z.land (flags (get_label s2 0)) LABEL_EQU <> 0.
Proof.
  intros buf s. split.
  - refine (proj1 equ_value_each_pass 1 false 1 buf 0 None s 0%nat _ _ _ _ _).
    + reflexivity.
    + reflexivity.
    + vm_compute. reflexivity.
    + discriminate.
    + vm_compute. discriminate.
  - refine (proj2 equ_value_each_pass false 1 buf 0 (Some 0%nat) 0%nat 2%nat s 8%nat 5 s
                  _ _ _).
    + reflexivity.
    + vm_compute. reflexivity.
    + vm_compute. lia.
Defined.

(** C2 as stated fails when the expression refers to a label that moves.
    [LI R1, E] takes 2 bytes on pass 0, where [E] is not yet known, and 4 bytes
    from pass 1 on, so that [L] moves from 2 to 4; [X], defined by [.EQU] as
    [L], is 2 at the end of pass 0 and 4 at the end of pass 1.  The run as a
    whole succeeds, in 4 passes. *)
Lemma equ_value_changes :
  let f := source [" LI R1, E"; "L: NOP"; "X .EQU L"; "E .EQU $1234"]%string in
  let s0 := after_pass f 0 initial_state in
  let s1 := after_pass f 1 s0 in
  name (get_label s0 1) = bytes_of_string "X" /\
  Z.land (flags (get_label s0 1)) LABEL_EQU = LABEL_EQU /\
  value (get_label s0 1) = 2 /\
  name (get_label s1 1) = bytes_of_string "X" /\
  value (get_label s1 1) = 4 /\
  returned (passes 8 [f] 0 false initial_state)
  = Some (4, [], source [":0600000031F912340FF18A"; ":00000001FF"]%string).
Proof. vm_compute. repeat split. Qed.

(** *** Positions only move forward *)

Lemma peek_overflow buf p : (length buf <= p)%nat -> peek buf p = 0.
Proof. intros H. unfold peek. now apply nth_overflow. Qed.

Lemma skipn_peek buf p :
  (p < length buf)%nat -> skipn p buf = peek buf p :: skipn (S p) buf.
Proof.
  revert buf. induction p as [| p IH]; intros [| c t] H; simpl in *; try lia.
  - reflexivity.
  - apply IH. lia.
Qed.

Lemma span_pos f buf p :
  (p < length buf)%nat -> f (peek buf p) = true ->
  (1 <= length (span f (skipn p buf)))%nat.
Proof.
  intros H Hf. rewrite skipn_peek by exact H. cbn [span]. rewrite Hf. simpl. lia.
Qed.

Lemma element_at_end lineno mainlbl allow_undef pc buf rec p s :
  peek buf p = 0 ->
  element lineno mainlbl allow_undef pc buf rec p s = Ok (Break (Some p)) s.
Proof. intros H. unfold element. rewrite H. reflexivity. Qed.

Section Progress.
Variables (lineno : Z) (mainlbl : option nat) (allow_undef : bool) (pc : Z) (buf : list Z).
Variable rec : nat -> M (option nat * Z).
Hypothesis rec_advances :
  forall q0 s0 q1 v1 s1, rec q0 s0 = Ok (Some q1, v1) s1 -> (q0 <= q1)%nat.

Lemma element_progress p s v op q s1 :
  element lineno mainlbl allow_undef pc buf rec p s = Ok (Item v op q) s1 ->
  (p < q)%nat /\ (p < length buf)%nat.
Proof.
  intros E.
  destruct (Nat.lt_ge_cases p (length buf)) as [L | G].
  2:{ rewrite element_at_end in E by (now apply peek_overflow). discriminate. }
  split; [| exact L].
  unfold element in E.
  set (c := peek buf p) in *.
  destruct (c =? ch "(") eqn:C1.
  { unfold bind in E. destruct (rec (S p) s) as [[[q1 |] v1] s2 | | |] eqn:R; try discriminate.
    cbn [fst snd] in E. destruct (negb (peek buf q1 =? ch ")")); try discriminate.
    inversion E; subst. apply rec_advances in R. lia. }
  destruct (c =? ch "$") eqn:C2.
  { destruct (peek buf (S p) =? ch "$"); inversion E; subst; lia. }
  destruct (isdigit c || (c =? ch "-") && isdigit (peek buf (S p))) eqn:C3.
  { inversion E; subst. clear E.
    destruct (c =? ch "-") eqn:Cm; [lia |].
    rewrite andb_false_l, orb_false_r in C3.
    pose proof (span_pos isdigit buf p L C3). lia. }
  destruct ((c =? ch "'") && (peek buf (S (S p)) =? ch "'")) eqn:C4.
  { inversion E; subst; lia. }
  destruct (isbinop c) eqn:C5.
  { inversion E; subst; lia. }
  destruct ((c =? ch ":") || isalpha c || (c =? ch ".")) eqn:C6.
  2:{ discriminate. }
  set (p1 := if c =? ch ":" then S p else p) in *.
  set (local := peek buf p1 =? ch ".") in *.
  set (p2 := if local then S p1 else p1) in *.
  set (id := map toupper (span isident (skipn p2 buf))) in *.
  assert (Q : q = (p2 + length id)%nat).
  { unfold bind in E.
    destruct (when _ _ s) as [[] s2 | | |]; try discriminate.
    unfold get at 1 in E.
    destruct (find_label s2 _ id) as [l |].
    - cbn in E. inversion E. reflexivity.
    - destruct (when _ _ s2) as [[] s3 | | |]; try discriminate.
      cbn in E. inversion E. reflexivity. }
  subst q. clear E.
  destruct (c =? ch ":") eqn:Cc.
  { unfold p2, p1. destruct local; lia. }
  cbn [orb] in C6. unfold p2, local, p1. fold c.
  destruct (c =? ch ".") eqn:Cd; [lia |].
  rewrite orb_false_r in C6.
  assert (I : isident c = true) by (unfold isident, isalnum; rewrite C6; apply orb_true_r).
  unfold id, p2, local, p1. fold c. rewrite Cd. rewrite length_map.
  pose proof (span_pos isident buf p L I). lia.
Qed.

Lemma element_break p s q s1 :
  element lineno mainlbl allow_undef pc buf rec p s = Ok (Break (Some q)) s1 ->
  (p <= q)%nat.
Proof.
  intros E. unfold element in E.
  set (c := peek buf p) in *.
  destruct (c =? ch "(").
  { unfold bind in E. destruct (rec (S p) s) as [[[q1 |] v1] s2 | | |] eqn:R; try discriminate.
    cbn [fst snd] in E. destruct (negb (peek buf q1 =? ch ")")); try discriminate.
    inversion E; subst. apply rec_advances in R. lia. }
  destruct (c =? ch "$").
  { destruct (peek buf (S p) =? ch "$"); discriminate. }
  destruct (isdigit c || (c =? ch "-") && isdigit (peek buf (S p))); [discriminate |].
  destruct ((c =? ch "'") && (peek buf (S (S p)) =? ch "'")); [discriminate |].
  destruct (isbinop c); [discriminate |].
  destruct ((c =? ch ":") || isalpha c || (c =? ch ".")).
  - unfold bind in E.
    destruct (when _ _ s) as [[] s2 | | |]; try discriminate.
    unfold get at 1 in E.
    destruct (find_label s2 _ _) as [l |].
    + cbn in E. discriminate.
    + destruct (when _ _ s2) as [[] s3 | | |]; discriminate.
  - inversion E. lia.
Qed.

Lemma skip_blanks_ge p : (p <= skip_blanks buf p)%nat.
Proof. unfold skip_blanks. lia. Qed.

Lemma expr_loop_advances n :
  forall sval sop p s sv so q s',
    expr_loop lineno mainlbl allow_undef pc buf rec n sval sop p s = Ok (sv, so, Some q) s' ->
    (p <= q)%nat.
Proof.
  induction n as [| n IH]; intros sval sop p s sv so q s' E; cbn [expr_loop] in E.
  - discriminate.
  - unfold bind in E.
    destruct (element _ _ _ _ _ _ _ s) as [[v op q1 | q1] s1 | | |] eqn:El; try discriminate.
    + apply element_progress in El. pose proof (skip_blanks_ge p).
      destruct (negb (op =? 0)).
      * destruct (_ || _).
        -- inversion E; subst. lia.
        -- apply IH in E. lia.
      * destruct (_ || _).
        -- inversion E; subst. lia.
        -- apply IH in E. lia.
    + inversion E; subst. apply element_break in El.
      pose proof (skip_blanks_ge p). lia.
Qed.
End Progress.

Lemma expr_advances lineno mainlbl allow_undef pc buf d :
  forall p s q v s',
    expr lineno mainlbl allow_undef pc buf d p s = Ok (Some q, v) s' -> (p <= q)%nat.
Proof.
  induction d as [| d IH]; intros p s q v s' E; cbn [expr] in E.
  - discriminate.
  - unfold bind in E.
    destruct (expr_loop _ _ _ _ _ _ _ _ _ _ s) as [[[sv so] q1] s1 | | |] eqn:L;
      try discriminate.
    unfold expr_done in E.
    destruct (negb (osp so + 1 =? vsp sv)).
    + unfold bind in E. destruct (error _ _ s1); discriminate.
    + destruct (reduce sv so); [| discriminate].
      inversion E; subst. eapply expr_loop_advances; eauto.
Qed.


Section Loop.
Variables (lineno : Z) (mainlbl : option nat) (allow_undef : bool) (pc : Z) (buf : list Z).
Variable rec : nat -> M (option nat * Z).

#[local] Abbreviation el := (element lineno mainlbl allow_undef pc buf rec).
#[local] Abbreviation loop := (expr_loop lineno mainlbl allow_undef pc buf rec).

Lemma loop_val n sval sop p s v q s1 :
  el (skip_blanks buf p) s = Ok (Item v 0 q) s1 ->
  length sval = length sop -> (length sval < 8)%nat ->
  loop (S n) sval sop p s = loop n (v :: sval) sop q s1.
Proof.
  intros E Hl Hc. cbn [expr_loop]. rewrite (bind_ok _ _ _ _ _ E).
  cbn [Z.eqb negb]. unfold vsp, osp, expr_max. rewrite Hl, Z.eqb_refl. cbn [negb orb].
  destruct (Z.geb_spec (Z.of_nat (length sop)) 8); [lia | reflexivity].
Qed.

Lemma loop_op n sval sop p s v op q s1 :
  el (skip_blanks buf p) s = Ok (Item v op q) s1 ->
  op <> 0 -> length sval = S (length sop) -> (length sop < 8)%nat ->
  loop (S n) sval sop p s = loop n sval (op :: sop) q s1.
Proof.
  intros E Ho Hl Hc. cbn [expr_loop]. rewrite (bind_ok _ _ _ _ _ E).
  destruct (Z.eqb_spec op 0) as [? | _]; [contradiction |]. cbn [negb].
  unfold vsp, osp, expr_max. rewrite Hl.
  replace (Z.of_nat (length sop) + 1 =? Z.of_nat (S (length sop))) with true
    by (symmetry; apply Z.eqb_eq; lia).
  cbn [negb orb].
  destruct (Z.geb_spec (Z.of_nat (length sop)) 8); [lia | reflexivity].
Qed.

Lemma loop_break n sval sop p s q s1 :
  el (skip_blanks buf p) s = Ok (Break q) s1 ->
  loop (S n) sval sop p s = Ok (sval, sop, q) s1.
Proof. intros E. cbn [expr_loop]. now rewrite (bind_ok _ _ _ _ _ E). Qed.



Lemma loop_interleave vs :
  forall os sval sop p s q s' m,
    (length os <= length vs <= S (length os))%nat ->
    length sval = length sop ->
    (length sval + length vs <= 8)%nat ->
    Forall (fun o => o <> 0) os ->
    reads el buf p s (interleave vs os) q s' ->
    loop (length (interleave vs os) + m) sval sop p s
    = loop m (rev vs ++ sval) (rev os ++ sop) q s'.
Proof.
  induction vs as [| v vs IH]; intros os sval sop p s q s' m Hl Hs Hc Ho R.
  - destruct os; [| simpl in Hl; lia]. inversion R; subst. reflexivity.
  - cbn [interleave] in R |- *. inversion R as [| ? ? ? ? q1 s1 ? ? ? E1 R1]; subst.
    cbn [length Nat.add] in *.
    rewrite (loop_val _ _ _ _ _ _ _ _ E1 Hs) by lia.
    destruct os as [| o os].
    + destruct vs; [| simpl in Hl; lia].
      inversion R1; subst. reflexivity.
    + inversion R1 as [| ? ? ? ? q2 s2 ? ? ? E2 R2]; subst.
      inversion Ho as [| ? ? Ho1 Ho2]; subst.
      cbn [length Nat.add] in *.
      rewrite (loop_op _ _ _ _ _ _ _ _ _ E2 Ho1) by (simpl; lia).
      rewrite (IH os (v :: sval) (o :: sop) q2 s2 q s' m); try (simpl; lia); auto.
      cbn [rev]. now rewrite <- !app_assoc.
Qed.


Hypothesis rec_advances :
  forall q0 s0 q1 v1 s1, rec q0 s0 = Ok (Some q1, v1) s1 -> (q0 <= q1)%nat.

Lemma reads_bound p s its q s' :
  reads el buf p s its q s' ->
  its <> [] -> (p + length its <= length buf)%nat.
Proof.
  induction 1 as [| p s v op q1 s1 its q s' E R IH]; intros N; [contradiction |].
  apply (element_progress _ _ _ _ _ _ rec_advances) in E.
  pose proof (skip_blanks_ge buf p).
  destruct its as [| i its].
  - simpl. lia.
  - specialize (IH ltac:(discriminate)). simpl in *. lia.
Qed.

End Loop.

Lemma expr_done_balanced lineno sval sop pe s :
  length sval = S (length sop) ->
  expr_done lineno (sval, sop, pe) s
  = match reduce sval sop with
    | Some r => Ok (pe, last r 0) s
    | None => Undef
    end.
Proof.
  intros H. unfold expr_done, vsp, osp. rewrite H.
  replace (Z.of_nat (length sop) + 1 =? Z.of_nat (S (length sop))) with true
    by (symmetry; apply Z.eqb_eq; lia).
  cbn [negb]. destruct (reduce sval sop); reflexivity.
Qed.


Lemma interleave_nonempty v vs os : interleave (v :: vs) os <> [].
Proof. discriminate. Qed.

Section Alternation.
Variables (lineno : Z) (mainlbl : option nat) (allow_undef : bool) (pc : Z) (buf : list Z).
Variable d : nat.

#[local] Abbreviation rec := (expr lineno mainlbl allow_undef pc buf d).
#[local] Abbreviation el := (element lineno mainlbl allow_undef pc buf rec).

(** A well-formed run of values and operators, followed by something that
    ends the loop. *)
Lemma expr_alternating vs os p s q s' pe s'' :
  length vs = S (length os) -> (length vs <= 8)%nat ->
  Forall (fun o => o <> 0) os ->
  reads el buf p s (interleave vs os) q s' ->
  el (skip_blanks buf q) s' = Ok (Break pe) s'' ->
  expr lineno mainlbl allow_undef pc buf (S d) p s
  = match reduce (rev vs) (rev os) with
    | Some r => Ok (pe, last r 0) s''
    | None => Undef
    end.
Proof.
  intros Hl Hc Ho R B.
  assert (N : interleave vs os <> []) by (destruct vs; [discriminate | apply interleave_nonempty]).
  pose proof (reads_bound _ _ _ _ _ _ (expr_advances _ _ _ _ _ d) _ _ _ _ _ R N) as F.
  cbn [expr].
  replace (S (length buf))
    with (length (interleave vs os) + S (length buf - length (interleave vs os)))%nat by lia.
  unfold bind.
  rewrite (loop_interleave _ _ _ _ _ _ vs os [] [] p s q s'); auto; try (simpl; lia).
  erewrite loop_break by exact B.
  rewrite !app_nil_r. apply expr_done_balanced.
  rewrite !length_rev. exact Hl.
Qed.



End Alternation.

(** *** Enough fuel *)

Section Fuel.
Variables (lineno : Z) (mainlbl : option nat) (allow_undef : bool) (pc : Z) (buf : list Z).
Variable rec : nat -> M (option nat * Z).
Variable d : nat.

Hypothesis rec_advances :
  forall q0 s0 q1 v1 s1, rec q0 s0 = Ok (Some q1, v1) s1 -> (q0 <= q1)%nat.
Hypothesis rec_fuel :
  forall q s, (length buf - q < d)%nat -> rec q s <> NoFuel.

Lemma element_fuel p s :
  (length buf - p <= d)%nat ->
  element lineno mainlbl allow_undef pc buf rec p s <> NoFuel.
Proof.
  intros H.
  destruct (Nat.lt_ge_cases p (length buf)) as [L | G].
  2:{ rewrite element_at_end by (now apply peek_overflow). discriminate. }
  unfold element.
  destruct (peek buf p =? ch "(").
  { unfold bind. pose proof (rec_fuel (S p) s ltac:(lia)) as F.
    destruct (rec (S p) s) as [[[q1 |] v1] s2 | | |]; try discriminate; try contradiction.
    cbn [fst snd]. destruct (negb _); discriminate. }
  destruct (peek buf p =? ch "$"); [destruct (_ =? _); discriminate |].
  destruct (_ || _); [discriminate |].
  destruct (_ && _); [discriminate |].
  destruct (isbinop _); [discriminate |].
  destruct (_ || _); [| discriminate].
  unfold bind.
  destruct (when _ _ s) as [[] s2 | | |] eqn:W; try discriminate.
  - unfold get at 1. destruct (find_label s2 _ _) as [l |].
    + cbn. discriminate.
    + destruct (when _ _ s2) as [[] s3 | | |] eqn:W2; try discriminate.
      destruct (negb allow_undef); cbn in W2; try discriminate.
      unfold error in W2. destruct (_ >=? _) in W2; discriminate.
  - destruct (_ && _); cbn in W; try discriminate.
    unfold error in W. destruct (_ >=? _) in W; discriminate.
Qed.

Lemma expr_loop_fuel n :
  forall sval sop p s,
    (length buf - p < n)%nat -> (length buf - p <= d)%nat ->
    expr_loop lineno mainlbl allow_undef pc buf rec n sval sop p s <> NoFuel.
Proof.
  induction n as [| n IH]; intros sval sop p s Hn Hd; [lia |].
  cbn [expr_loop]. unfold bind.
  pose proof (skip_blanks_ge buf p) as G.
  pose proof (element_fuel (skip_blanks buf p) s ltac:(lia)) as F.
  destruct (element _ _ _ _ _ _ _ s) as [[v op q | q] s1 | | |] eqn:E;
    try discriminate; try contradiction.
  apply (element_progress _ _ _ _ _ _ rec_advances) in E.
  destruct (negb (op =? 0)); destruct (_ || _); try discriminate; apply IH; lia.
Qed.

End Fuel.

(** [expr] never runs out of fuel when the depth allowed exceeds the number
    of characters left, as [expr_depth] does. *)
Lemma expr_total lineno mainlbl allow_undef pc buf d :
  forall p s,
    (length buf - p < d)%nat ->
    expr lineno mainlbl allow_undef pc buf d p s <> NoFuel.
Proof.
  induction d as [| d IH]; intros p s H; [lia |].
  cbn [expr]. unfold bind.
  pose proof (expr_loop_fuel lineno mainlbl allow_undef pc buf _ d
                (expr_advances _ _ _ _ _ d) IH (S (length buf)) [] [] p s
                ltac:(lia) ltac:(lia)) as F.
  destruct (expr_loop _ _ _ _ _ _ _ _ _ _ s) as [[[sv so] q] s1 | | |];
    try discriminate; try contradiction.
  unfold expr_done. destruct (negb _).
  - unfold bind, error. destruct (_ >=? _); discriminate.
  - destruct (reduce sv so); discriminate.
Qed.

(** *** The order of reduction *)

Lemma isbinop_nonzero op : isbinop op = true -> op <> 0.
Proof. intros H ->. discriminate. Qed.

(** C1, as the code has it.  The binary operators have no precedence and are
    applied from the right: when the loop of [expr] reads the value [a], the
    operator [op1], the value [b], the operator [op2] and the value [c], each
    parsed successfully, and then something that ends the expression, and no
    division or modulo by zero occurs, the value of the expression is
    [a op1 (b op2 c)] in 32-bit arithmetic, for all values and all pairs of
    operators. *)
Theorem expr_right_to_left (lineno : Z) (mainlbl : option nat) (allow_undef : bool)
        (pc : Z) (buf : list Z) (d p : nat) (s : state)
        (a op1 b op2 c : Z) (q : nat) (s' : state) (pe : nat) (s'' : state) (x v : Z) :
  let el := element lineno mainlbl allow_undef pc buf
                    (expr lineno mainlbl allow_undef pc buf d) in
  reads el buf p s [(a, 0); (0, op1); (b, 0); (0, op2); (c, 0)] q s' ->
  el (skip_blanks buf q) s' = Ok (Break (Some pe)) s'' ->
  isbinop op1 = true -> isbinop op2 = true ->
  binop op2 b c = Some x -> binop op1 a x = Some v ->
  expr lineno mainlbl allow_undef pc buf (S d) p s = Ok (Some pe, v) s''.
Proof.
  intros el R B H1 H2 X V.
  rewrite (expr_alternating lineno mainlbl allow_undef pc buf d [a; b; c] [op1; op2]
             p s q s' (Some pe) s''); auto.
  - cbn [rev app reduce]. rewrite X, V. reflexivity.
  - simpl. lia.
  - repeat constructor; now apply isbinop_nonzero.
Qed.

Lemma expr_right_to_left_witness :
  expr 1 None false 0 (bytes_of_string "10 - 5 - 2") 1 0 initial_state
  = Ok (Some 10%nat, 7) initial_state.
Proof.
  refine (expr_right_to_left 1 None false 0 (bytes_of_string "10 - 5 - 2") 0 0
            initial_state 10 (ch "-") 5 (ch "-") 2 10 initial_state 10 initial_state
            3 7 _ _ _ _ _ _).
  - apply (reads_cons _ _ 0 initial_state 10 0 2 initial_state); [reflexivity |].
    apply (reads_cons _ _ 2 initial_state 0 (ch "-") 4 initial_state); [reflexivity |].
    apply (reads_cons _ _ 4 initial_state 5 0 6 initial_state); [reflexivity |].
    apply (reads_cons _ _ 6 initial_state 0 (ch "-") 8 initial_state); [reflexivity |].
    apply (reads_cons _ _ 8 initial_state 2 0 10 initial_state); [reflexivity |].
    apply reads_nil.
  - reflexivity.
  - reflexivity.
  - reflexivity.
  - reflexivity.
  - reflexivity.
Defined.

(** C1 as stated fails: [10 - 5 - 2] evaluates to 10 - (5 - 2) = 7, while
    applying the operators from the left gives (10 - 5) - 2 = 3.  The byte
    that [.BYTE 10 - 5 - 2] puts in the output is 07. *)
Lemma left_to_right_fails :
  expr 1 None false 0 (bytes_of_string "10 - 5 - 2")
       (expr_depth (bytes_of_string "10 - 5 - 2")) 0 initial_state
  = Ok (Some 10%nat, 7) initial_state /\
  binop (ch "-") 10 5 = Some 5 /\ binop (ch "-") 5 2 = Some 3 /\
  returned (main 8 [source [" .BYTE 10 - 5 - 2"]%string] initial_state)
  = Some (0, [], source [":0100000007F8"; ":00000001FF"]%string).
Proof. vm_compute. repeat split. Qed.

(** *** The capacity of the two stacks *)




(** ** The invariant of the emission buffer along a run *)

Lemma image_inv_initial : image_inv initial_state.
Proof. unfold image_inv, OUTPUT_LINE_BYTES. cbn. repeat split; lia. Qed.

(** All emission happens in [assemble], which keeps the invariant; so does a
    pass that is not the final one.  The final pass ends with [emit_done],
    after which nothing is emitted any more. *)
Lemma assemble_files_keeps_image files pass out pc :
  keeps_image (assemble_files files pass out pc).
Proof.
  apply keeps_assemble_files; try (intros; assumption); auto.
  intros s a b H. now apply emit_step.
Qed.

Lemma one_pass_keeps_image files pass : keeps_image (one_pass files pass false).
Proof.
  unfold one_pass, set_mark, keeps_image.
  apply keeps_bind; [auto | | intros ?].
  { apply keeps_when; [auto |]. apply keeps_modify. intros s H. exact H. }
  apply keeps_bind; [auto | | intros ?].
  { apply keeps_modify. intros s H. exact H. }
  apply keeps_bind; [auto | apply assemble_files_keeps_image | intros ?].
  apply keeps_ret. auto.
Qed.

(** ** Every loop but the pass loop comes to an end *)

Create HintDb total.

Lemma total_ret {A : Type} (a : A) : total (ret a).
Proof. intros s. discriminate. Qed.

Lemma total_bind {A B : Type} (m : M A) (f : A -> M B) :
  total m -> (forall a, total (f a)) -> total (bind m f).
Proof.
  intros Hm Hf s. unfold bind. specialize (Hm s).
  destruct (m s) as [a s1 | s1 | |]; try discriminate; [apply Hf | contradiction].
Qed.

Lemma total_error lineno msg : total (error lineno msg).
Proof. intros s. unfold error. destruct (_ >=? _); discriminate. Qed.

Lemma total_fatal {A : Type} msg : total (@fatal A msg).
Proof. intros s. discriminate. Qed.

Lemma total_when b (m : M unit) : total m -> total (when b m).
Proof. destruct b; [auto | intros _; apply total_ret]. Qed.

Lemma total_get {A : Type} (f : state -> A) : total (get f).
Proof. intros s. discriminate. Qed.

Lemma total_modify (f : state -> state) : total (modify f).
Proof. intros s. discriminate. Qed.

Lemma total_undefined {A : Type} : total (@undefined A).
Proof. intros s. discriminate. Qed.

Lemma total_add_label master id at_ : total (add_label master id at_).
Proof.
  intros s. unfold add_label.
  destruct (_ >=? _); [discriminate |].
  destruct (_ >? _); [discriminate |].
  destruct master; discriminate.
Qed.

Lemma total_readline chunk : total (readline chunk).
Proof. intros s. unfold readline. destruct (_ >=? _); discriminate. Qed.

#[local] Hint Resolve total_ret total_error total_fatal total_when total_get
  total_modify total_undefined total_add_label total_readline : total.

Ltac total_step :=
  match goal with
  | |- total (bind _ _) => apply total_bind; [| intros ?]
  | |- total (if ?c then _ else _) => destruct c
  | |- total (match ?x with _ => _ end) => destruct x
  | |- total _ => solve [auto with total]
  end.


Lemma total_encode_plain lineno out pc n k w va code :
  plain_kind k -> total (encode lineno out pc (S n) k w va code).
Proof.
  intros [-> | [-> | [-> | [-> | ->]]]].
  - change (total (ret (put code [Z.lor (Z.shiftr w 8) (va_rno va 0);
                                  Z.lor (Z.shiftl (va_rno va 1) 4) (va_rno va 2)]))).
    auto with total.
  - rewrite encode_A. repeat total_step.
  - rewrite encode_B. cbv zeta. repeat total_step.
  - change (total (when (out && out_of_int16 (va_val va 1))
                        (error lineno "memory offset out of range") ;;;
                   ret (put code [Z.lor (Z.shiftr w 8) (va_rno va 0);
                                  Z.lor w (Z.shiftl (va_rno va 1) 4);
                                  Z.shiftr (va_val va 1) 8; va_val va 1]))).
    repeat total_step.
  - change (total (when (out && ((va_val va 1 <? 0) || (va_val va 1 >? 15)))
                        (error lineno "special register of range") ;;;
                   ret (put code [Z.shiftr w 8; Z.lor w (Z.shiftl (va_rno va 0) 4);
                                  Z.shiftr (va_val va 1) 8; va_val va 1]))).
    repeat total_step.
Qed.

Lemma total_encode lineno out pc n k w va code :
  total (encode lineno out pc (S (S n)) k w va code).
Proof.
  generalize (S n) (fun k' w' va' code' =>
                      total_encode_plain lineno out pc n k' w' va' code').
  intros m IH. cbn [encode].
  repeat (match goal with
          | |- total (if ?c then _ else _) => destruct c
          end;
          try solve [repeat total_step
                    | apply IH; unfold plain_kind; auto 6]).
Qed.

(** *** [expr] moves on when it succeeds *)

Section Strict.
Variables (lineno : Z) (mainlbl : option nat) (allow_undef : bool) (pc : Z) (buf : list Z).
Variable rec : nat -> M (option nat * Z).
Hypothesis rec_advances :
  forall q0 s0 q1 v1 s1, rec q0 s0 = Ok (Some q1, v1) s1 -> (q0 <= q1)%nat.

Lemma expr_loop_grows n :
  forall sval sop p s sv so q s',
    expr_loop lineno mainlbl allow_undef pc buf rec n sval sop p s = Ok (sv, so, q) s' ->
    (length sval + length sop <= length sv + length so)%nat /\
    ((length sval + length sop < length sv + length so)%nat ->
     (p < length buf)%nat /\ forall q', q = Some q' -> (p < q')%nat).
Proof.
  induction n as [| n IH]; intros sval sop p s sv so q s' E; cbn [expr_loop] in E.
  - discriminate.
  - unfold bind in E.
    destruct (element _ _ _ _ _ _ _ s) as [[v op q1 | q1] s1 | | |] eqn:El; try discriminate.
    + apply (element_progress _ _ _ _ _ _ rec_advances) in El.
      pose proof (skip_blanks_ge buf p).
      destruct (negb (op =? 0)).
      * destruct (_ || _).
        -- inversion E; subst. split; [lia | intros; lia].
        -- pose proof E as E'. apply IH in E. cbn [length] in E. destruct E as [E1 E2].
           split; [lia |]. intros _. split; [lia |]. intros q' ->.
           apply (expr_loop_advances _ _ _ _ _ _ rec_advances) in E'. lia.
      * destruct (_ || _).
        -- inversion E; subst. split; [lia | intros; lia].
        -- pose proof E as E'. apply IH in E. cbn [length] in E. destruct E as [E1 E2].
           split; [lia |]. intros _. split; [lia |]. intros q' ->.
           apply (expr_loop_advances _ _ _ _ _ _ rec_advances) in E'. lia.
    + inversion E; subst. split; [lia | intros; lia].
Qed.

End Strict.

(** A successful [expr] has read at least one character of the buffer. *)
Lemma expr_moves lineno mainlbl allow_undef pc buf d p s q v s' :
  expr lineno mainlbl allow_undef pc buf d p s = Ok (Some q, v) s' ->
  (p < q)%nat /\ (p < length buf)%nat.
Proof.
  destruct d as [| d]; cbn [expr]; intros E; [discriminate |].
  unfold bind in E.
  destruct (expr_loop _ _ _ _ _ _ _ _ _ _ s) as [[[sv so] q1] s1 | | |] eqn:L;
    try discriminate.
  unfold expr_done in E.
  destruct (Z.eqb_spec (osp so + 1) (vsp sv)) as [B | B]; cbn [negb] in E.
  - destruct (reduce sv so); [| discriminate].
    inversion E; subst.
    apply (expr_loop_grows _ _ _ _ _ _ (expr_advances _ _ _ _ _ d)) in L.
    destruct L as [_ L].
    destruct L as [L1 L2]; [unfold osp, vsp in B; simpl; lia |].
    split; [apply L2; reflexivity | exact L1].
  - unfold bind in E. destruct (error _ _ s1); discriminate.
Qed.

Lemma total_bind_ok {A B : Type} (m : M A) (f : A -> M B) :
  total m -> (forall a s s', m s = Ok a s' -> f a s' <> NoFuel) -> total (bind m f).
Proof.
  intros Hm Hf s. unfold bind. specialize (Hm s).
  destruct (m s) as [a s1 | s1 | |] eqn:E; try discriminate; [| contradiction].
  eapply Hf; eauto.
Qed.

Lemma peek_nonzero buf p : peek buf p <> 0 -> (p < length buf)%nat.
Proof.
  intros H. destruct (Nat.lt_ge_cases p (length buf)) as [L | G]; [exact L |].
  now rewrite peek_overflow in H.
Qed.

Lemma total_expr lineno mainlbl allow_undef pc buf p :
  total (expr lineno mainlbl allow_undef pc buf (expr_depth buf) p).
Proof. intros s. apply expr_total. unfold expr_depth. lia. Qed.

#[local] Hint Resolve total_expr total_encode : total.

Section TotalLine.
Variables (out : bool) (lineno : Z) (buf : list Z) (pc : Z) (mainlbl : option nat).

Lemma total_words n :
  forall p code,
    (length buf - p < n)%nat -> total (words out lineno buf pc mainlbl n p code).
Proof.
  induction n as [| n IH]; intros p code H; [lia |].
  cbn [words]. apply total_bind_ok; [apply total_expr |].
  intros [[q |] v] s s' E; cbn [fst snd]; [| discriminate].
  apply expr_moves in E.
  apply total_bind; [auto with total | intros _].
  destruct (negb _); [auto with total | apply IH; lia].
Qed.

Lemma total_bytes n :
  forall p code,
    (length buf - p < n)%nat -> total (bytes_ out lineno buf pc mainlbl n p code).
Proof.
  induction n as [| n IH]; intros p code H; [lia |].
  cbn [bytes_]. pose proof (skip_blanks_ge buf p) as G.
  set (p0 := skip_blanks buf p) in *.
  apply total_bind_ok.
  - repeat total_step.
  - intros [[q code'] |] s s' E; [| discriminate].
    assert (Q : (p0 < q)%nat).
    { destruct (peek buf p0 =? ch "034").
      - destruct (negb _).
        + unfold bind in E. destruct (error _ _ s); discriminate.
        + inversion E; subst.
          match goal with
          | |- (_ < skip_blanks buf ?x)%nat => pose proof (skip_blanks_ge buf x)
          end.
          lia.
      - unfold bind in E.
        destruct (expr _ _ _ _ _ _ _ s) as [[[q1 |] v] s1 | | |] eqn:X;
          try discriminate; cbn [fst snd] in E.
        destruct (when _ _ s1) as [[] s2 | | |]; try discriminate.
        inversion E; subst. apply expr_moves in X. lia. }
    destruct (Z.eqb_spec (peek buf q) (ch ",")) as [C | _]; [| discriminate].
    assert ((q < length buf)%nat) by (apply peek_nonzero; rewrite C; discriminate).
    cbn [negb]. apply IH. lia.
Qed.

Lemma total_directive lbl p : total (directive out lineno buf pc mainlbl lbl p).
Proof.
  unfold directive.
  repeat total_step; first [apply total_bytes | apply total_words]; lia.
Qed.

Lemma total_arguments n :
  forall p sep na va,
    (length buf - p < n)%nat ->
    total (arguments out lineno buf pc mainlbl n p sep na va).
Proof.
  induction n as [| n IH]; intros p sep na va H; [lia |].
  cbn [arguments]. destruct (negb (na <? 3)%nat); [auto with total |].
  pose proof (skip_blanks_ge buf p) as G.
  set (p0 := skip_blanks buf p) in *.
  destruct (Z.eqb_spec (peek buf p0) (ch ",")) as [C | _].
  { assert ((p0 < length buf)%nat) by (apply peek_nonzero; rewrite C; discriminate).
    apply total_bind; [auto with total | intros _]. apply IH. lia. }
  destruct (isalpha (peek buf p0)) eqn:A.
  { assert (L : (p0 < length buf)%nat)
      by (apply peek_nonzero; intros Z0; rewrite Z0 in A; discriminate).
    destruct (_ <? 0).
    - apply total_bind_ok; [apply total_expr |].
      intros [[q |] v] s s' E; cbn [fst snd]; [| discriminate].
      apply expr_moves in E. apply IH. lia.
    - apply IH.
      assert (I : isalnum (peek buf p0) = true) by (unfold isalnum; now rewrite A).
      pose proof (span_pos isalnum buf p0 L I). rewrite length_map. lia. }
  destruct (Z.eqb_spec (peek buf p0) (ch "[")) as [C | _].
  { assert ((p0 < length buf)%nat) by (apply peek_nonzero; rewrite C; discriminate).
    apply total_bind; [auto with total | intros _].
    set (p1 := skip_blanks buf (S p0)).
    pose proof (skip_blanks_ge buf (S p0)).
    set (p2 := (p1 + length (map toupper (span isalnum (skipn p1 buf))))%nat).
    pose proof (skip_blanks_ge buf p2). fold p1 in H1.
    set (p3 := skip_blanks buf p2) in *.
    apply total_bind_ok.
    - repeat total_step.
    - intros [[q va'] |] s s' E; [| discriminate].
      assert (Q : (p3 <= q)%nat).
      { destruct (_ || _).
        - unfold bind in E.
          destruct (expr _ _ _ _ _ _ _ s) as [[[q1 |] v] s1 | | |] eqn:X;
            try discriminate; cbn [fst snd] in E.
          inversion E; subst. apply expr_moves in X. lia.
        - inversion E; subst. lia. }
      destruct (Z.eqb_spec (peek buf q) (ch "]")) as [C2 | _]; cbn [negb];
        [| apply total_bind; auto with total].
      assert ((q < length buf)%nat) by (apply peek_nonzero; rewrite C2; discriminate).
      apply IH. lia. }
  destruct (_ || _) eqn:D; [| auto with total].
  assert (L : (p0 < length buf)%nat).
  { apply peek_nonzero. intros Z0. rewrite Z0 in D. discriminate. }
  apply total_bind_ok; [apply total_expr |].
  intros [[q |] v] s s' E; cbn [fst snd]; [| discriminate].
  apply expr_moves in E. apply IH. lia.
Qed.

Lemma total_instruction p : total (instruction out lineno buf pc mainlbl p).
Proof.
  unfold instruction.
  repeat total_step. apply total_arguments. lia.
Qed.

End TotalLine.

#[local] Hint Resolve total_directive total_instruction : total.

Lemma total_line_label pass out lineno buf pc mainlbl :
  total (line_label pass out lineno buf pc mainlbl).
Proof. unfold line_label, set_mark. repeat total_step. Qed.

#[local] Hint Resolve total_line_label : total.

Lemma total_line_body pass out lineno chunk mainlbl pc :
  total (line_body pass out lineno chunk mainlbl pc).
Proof. unfold line_body. repeat total_step. Qed.

Lemma total_line_tail out lineno pc lv : total (line_tail out lineno pc lv).
Proof. unfold line_tail. repeat total_step. Qed.

#[local] Hint Resolve total_line_body total_line_tail : total.

Lemma total_assemble_line pass out lineno chunk mainlbl pc :
  total (assemble_line pass out lineno chunk mainlbl pc).
Proof. unfold assemble_line. repeat total_step. Qed.

Lemma total_assemble_lines pass out chunks :
  forall lineno mainlbl pc, total (assemble_lines pass out chunks lineno mainlbl pc).
Proof.
  induction chunks as [| c t IH]; intros lineno mainlbl pc; cbn [assemble_lines].
  - apply total_ret.
  - apply total_bind; [apply total_assemble_line | intros r; apply IH].
Qed.

Lemma total_assemble_files files pass out :
  forall pc, total (assemble_files files pass out pc).
Proof.
  induction files as [| f t IH]; intros pc; cbn [assemble_files].
  - apply total_ret.
  - apply total_bind; [apply total_assemble_lines | intros r; apply IH].
Qed.

(** One pass over the input always comes to an end: the only loop of the
    program that may go on for ever is the pass loop of [main]. *)
Lemma total_one_pass files pass last : total (one_pass files pass last).
Proof.
  unfold one_pass, set_mark. repeat total_step. apply total_assemble_files.
Qed.

(** * Further properties of the code *)

(** ** The tables of registers and operations *)

Lemma strcmp_refl a : strcmp a a = 0.
Proof. induction a as [| x a IH]; simpl; [reflexivity |]. now rewrite Z.eqb_refl. Qed.

Lemma strcmp_asym a : forall b, strcmp a b < 0 -> strcmp b a < 0 -> False.
Proof.
  induction a as [| x a IH]; intros [| y b]; simpl; try lia.
  rewrite (Z.eqb_sym y x). destruct (Z.eqb_spec x y); [apply IH | lia].
Qed.

Lemma strcmp_eq a : forall b, no_nul a -> no_nul b -> strcmp a b = 0 -> a = b.
Proof.
  induction a as [| x a IH]; intros [| y b] Ha Hb; simpl; intros H.
  - reflexivity.
  - inversion Hb; subst. lia.
  - inversion Ha; subst. lia.
  - inversion Ha; inversion Hb; subst.
    destruct (Z.eqb_spec x y); [| lia]. subst. f_equal. now apply IH.
Qed.

Lemma ascending_nth l :
  ascending l = true ->
  forall i j a b, (i < j)%nat -> nth_error l i = Some a -> nth_error l j = Some b ->
                  strcmp a b < 0.
Proof.
  induction l as [| x t IH]; intros H i j a b Hij Hi Hj.
  - destruct i; discriminate.
  - simpl in H. apply andb_true_iff in H. destruct H as [H1 H2].
    destruct j as [| j]; [lia |]. simpl in Hj.
    destruct i as [| i]; simpl in Hi.
    + injection Hi as <-. rewrite forallb_forall in H1.
      apply Z.ltb_lt, H1. eapply nth_error_In; eassumption.
    + apply (IH H2 i j); auto. lia.
Qed.

Lemma no_nul_check (l : list (list Z)) :
  forallb (forallb (fun c => negb (c =? 0))) l = true -> Forall no_nul l.
Proof.
  intros C. apply Forall_forall. intros nm Hin.
  rewrite forallb_forall in C. specialize (C nm Hin). rewrite forallb_forall in C.
  apply Forall_forall. intros c Hc. specialize (C c Hc).
  now destruct (Z.eqb_spec c 0).
Qed.

Section Bsearch.
Context {A : Type}.
Variable tbl : list (string * A).
Variable key : list Z.
Hypothesis tbl_ascending : ascending (names tbl) = true.
Hypothesis tbl_no_nul : Forall no_nul (names tbl).
Hypothesis key_no_nul : no_nul key.

Lemma names_nth i id x :
  nth_error tbl i = Some (id, x) -> nth_error (names tbl) i = Some (bytes_of_string id).
Proof. intros H. unfold names. rewrite nth_error_map, H. reflexivity. Qed.

Lemma name_no_nul i id x : nth_error tbl i = Some (id, x) -> no_nul (bytes_of_string id).
Proof.
  intros H. apply names_nth in H. apply nth_error_In in H.
  rewrite Forall_forall in tbl_no_nul. now apply tbl_no_nul.
Qed.

(** The entry at [i] carries the key: the side of [m] on which it lies, from
    the comparison made at [m]. *)
Lemma bsearch_side i id x m idm xm :
  nth_error tbl i = Some (id, x) -> bytes_of_string id = key ->
  nth_error tbl m = Some (idm, xm) ->
  let r := strcmp key (bytes_of_string idm) in
  (r = 0 -> i = m) /\ (r < 0 -> (i < m)%nat) /\ (0 < r -> (m < i)%nat).
Proof.
  intros Hi Hid Hm r.
  pose proof (names_nth _ _ _ Hi) as Ni. pose proof (names_nth _ _ _ Hm) as Nm.
  rewrite Hid in Ni.
  assert (L : (i < m)%nat -> r < 0)
    by (intros L; exact (ascending_nth _ tbl_ascending i m _ _ L Ni Nm)).
  assert (G : (m < i)%nat -> strcmp (bytes_of_string idm) key < 0)
    by (intros G; exact (ascending_nth _ tbl_ascending m i _ _ G Nm Ni)).
  assert (E : i = m -> r = 0).
  { intros ->. rewrite Hm in Hi. injection Hi as -> ->. unfold r. rewrite <- Hid.
    apply strcmp_refl. }
  assert (Z0 : r = 0 -> key = bytes_of_string idm).
  { intros R0. apply strcmp_eq; auto. eapply name_no_nul; eassumption. }
  repeat split.
  - intros R0. destruct (Nat.lt_trichotomy i m) as [C | [C | C]]; auto.
    + specialize (L C). lia.
    + specialize (G C). rewrite <- (Z0 R0) in G. rewrite strcmp_refl in G. lia.
  - intros R. destruct (Nat.lt_trichotomy i m) as [C | [C | C]]; auto.
    + specialize (E C). lia.
    + exfalso. exact (strcmp_asym _ _ R (G C)).
  - intros R. destruct (Nat.lt_trichotomy i m) as [C | [C | C]]; auto.
    + specialize (L C). lia.
    + specialize (E C). lia.
Qed.

Lemma bsearch_present i id x :
  nth_error tbl i = Some (id, x) -> bytes_of_string id = key ->
  forall n a b, 0 <= a <= Z.of_nat i -> Z.of_nat i <= b < Z.of_nat (length tbl) ->
                b - a + 1 <= Z.of_nat n ->
                bsearch tbl key n a b = Some x.
Proof.
  intros Hi Hid. induction n as [| n IH]; intros a b Ha Hb Hn; [lia |].
  cbn [bsearch]. destruct (Z.leb_spec a b); [| lia].
  assert (Hm : a <= (a + b) / 2 <= b)
    by (split; [apply Z.div_le_lower_bound | apply Z.div_le_upper_bound]; lia).
  destruct (nth_error tbl (Z.to_nat ((a + b) / 2))) as [[idm xm] |] eqn:Em.
  - destruct (bsearch_side _ _ _ _ _ _ Hi Hid Em) as (S0 & S1 & S2).
    destruct (Z.eqb_spec (strcmp key (bytes_of_string idm)) 0) as [R0 | R0].
    + specialize (S0 R0). subst i. rewrite Em in Hi. now injection Hi as _ ->.
    + destruct (Z.ltb_spec (strcmp key (bytes_of_string idm)) 0) as [R | R].
      * specialize (S1 R). apply IH; lia.
      * assert (R' : 0 < strcmp key (bytes_of_string idm)) by lia.
        specialize (S2 R'). apply IH; lia.
  - apply nth_error_None in Em. lia.
Qed.

Lemma bsearch_sound n :
  forall a b x, bsearch tbl key n a b = Some x ->
                exists id, In (id, x) tbl /\ bytes_of_string id = key.
Proof.
  induction n as [| n IH]; intros a b x; cbn [bsearch]; [discriminate |].
  destruct (a <=? b); [| discriminate].
  destruct (nth_error tbl (Z.to_nat ((a + b) / 2))) as [[idm xm] |] eqn:Em; [| discriminate].
  destruct (Z.eqb_spec (strcmp key (bytes_of_string idm)) 0) as [R0 | R0].
  - intros [= <-]. exists idm. split; [eapply nth_error_In; eassumption |].
    symmetry. apply strcmp_eq; auto. eapply name_no_nul; eassumption.
  - destruct (_ <? _); apply IH.
Qed.

Lemma bsearch_exact x :
  bsearch tbl key (S (length tbl)) 0 (Z.of_nat (length tbl) - 1) = Some x
  <-> exists id, In (id, x) tbl /\ bytes_of_string id = key.
Proof.
  split; [apply bsearch_sound |].
  intros (id & Hin & Hid). apply In_nth_error in Hin. destruct Hin as [i Hi].
  assert (i < length tbl)%nat by (apply nth_error_Some; congruence).
  apply (bsearch_present i id x Hi Hid); lia.
Qed.

End Bsearch.

Lemma vreg_proper : ascending (names vreg) = true /\ Forall no_nul (names vreg).
Proof. split; [reflexivity | apply no_nul_check; reflexivity]. Qed.

Lemma vop_proper : ascending (names vop) = true /\ Forall no_nul (names vop).
Proof. split; [vm_compute; reflexivity | apply no_nul_check; vm_compute; reflexivity]. Qed.

(** X1. [reg_find] is exact.  For an identifier without a terminator inside,
    the binary search returns [r] exactly when [vreg] pairs the very same
    name with [r], and -1 exactly when no name of the table is the identifier:
    every register is found, nothing else is, and a name that only begins
    like a register (or that a register only begins) is not taken for it. *)
Theorem reg_find_exact (key : list Z) (r : Z) :
  no_nul key ->
  (reg_find key = r <->
   (exists id, In (id, r) vreg /\ bytes_of_string id = key) \/
   (r = -1 /\ forall id x, In (id, x) vreg -> bytes_of_string id <> key)).
Proof.
  intros Hkey. destruct vreg_proper as [Ha Hn].
  pose proof (fun x => bsearch_exact vreg key Ha Hn Hkey x) as B.
  unfold reg_find.
  destruct (bsearch vreg key (S (length vreg)) 0 (Z.of_nat (length vreg) - 1)) as [x |] eqn:E.
  - split.
    + intros <-. left. now apply B.
    + intros [H | [-> H]].
      * apply B in H. congruence.
      * destruct (proj1 (B x) eq_refl) as (id & Hin & Hid). now destruct (H id x Hin).
  - split.
    + intros <-. right. split; [reflexivity |]. intros id x Hin Hid.
      assert (Some x = None) by (rewrite <- (proj2 (B x)); [reflexivity | eauto]).
      discriminate.
    + intros [H | [-> _]]; [| reflexivity]. apply B in H. discriminate.
Qed.

Lemma reg_find_exact_witness :
  no_nul (bytes_of_string "R10") /\ reg_find (bytes_of_string "R10") = 10.
Proof.
  assert (H : no_nul (bytes_of_string "R10")) by (repeat constructor; discriminate).
  split; [exact H |].
  apply (proj2 (reg_find_exact (bytes_of_string "R10") 10 H)).
  left. exists "R10"%string. split; [| reflexivity].
  unfold vreg. cbn [In]. auto.
Defined.

(** X2. [op_find] is exact in the same way: it returns an operation exactly
    when [vop] pairs the very same mnemonic with it, and nothing (the -1 of
    the C code) for every other identifier. *)
Theorem op_find_exact (key : list Z) (op : opcode) :
  no_nul key ->
  (op_find key = Some op <-> exists id, In (id, op) vop /\ bytes_of_string id = key).
Proof.
  intros Hkey. destruct vop_proper as [Ha Hn].
  exact (bsearch_exact vop key Ha Hn Hkey op).
Qed.

Lemma op_find_exact_witness :
  no_nul (bytes_of_string "BLEI") /\ op_find (bytes_of_string "BLEI") = Some OP_BLEI.
Proof.
  assert (H : no_nul (bytes_of_string "BLEI")) by (repeat constructor; discriminate).
  split; [exact H |].
  apply (proj2 (op_find_exact (bytes_of_string "BLEI") OP_BLEI H)).
  exists "BLEI"%string. split; [| reflexivity].
  unfold vop. cbn [In]. auto 6.
Defined.

(** ** The opcode match engine *)

Lemma op_num_inj a b : op_num a = op_num b -> a = b.
Proof.
  destruct a; intros H; destruct b; try reflexivity; discriminate H.
Qed.

Lemma akind_eqb_eq a b : akind_eqb a b = true <-> a = b.
Proof. destruct a, b; cbn; split; congruence. Qed.

Lemma agree_kinds n : forall va ks1 ks2,
  args_agree n va ks1 = true -> args_agree n va ks2 = true -> kinds_agree n ks1 ks2 = true.
Proof.
  induction n as [| n IH]; intros va ks1 ks2 H1 H2; [reflexivity |].
  destruct va as [| a va]; [discriminate |].
  destruct ks1 as [| x ks1]; [discriminate |].
  destruct ks2 as [| y ks2]; [discriminate |].
  cbn in *. apply andb_true_iff in H1, H2. destruct H1 as [A1 B1], H2 as [A2 B2].
  apply akind_eqb_eq in A1, A2. subst x y.
  apply andb_true_iff. split; [now apply akind_eqb_eq | eapply IH; eassumption].
Qed.

Lemma find_first {A : Type} (p : A -> bool) (l : list A) e :
  find p l = Some e ->
  exists i, nth_error l i = Some e /\ p e = true.
Proof.
  induction l as [| x l IH]; cbn; [discriminate |].
  destruct (p x) eqn:P.
  - intros [= <-]. exists 0%nat. auto.
  - intros H. destruct (IH H) as (i & Hi & Pe). exists (S i). auto.
Qed.

(** No two rows of [tmatch] fit the same instruction. *)
Lemma tmatch_no_clash i j e1 e2 :
  nth_error tmatch i = Some e1 -> nth_error tmatch j = Some e2 ->
  clash e1 e2 = true -> i = j.
Proof.
  intros H1 H2 C.
  assert (T : forallb (fun i => forallb (fun j =>
                 match nth_error tmatch i, nth_error tmatch j with
                 | Some a, Some b => (i =? j)%nat || negb (clash a b)
                 | _, _ => true
                 end) (seq 0 (length tmatch))) (seq 0 (length tmatch)) = true)
    by (vm_compute; reflexivity).
  rewrite forallb_forall in T.
  assert (Li : (i < length tmatch)%nat) by (apply nth_error_Some; congruence).
  assert (Lj : (j < length tmatch)%nat) by (apply nth_error_Some; congruence).
  specialize (T i ltac:(apply in_seq; lia)). rewrite forallb_forall in T.
  specialize (T j ltac:(apply in_seq; lia)). rewrite H1, H2, C in T.
  rewrite orb_false_r in T. now apply Nat.eqb_eq.
Qed.

(** X3. [match] returns the one row that fits.  The row returned is a row of
    [tmatch] for the operation, with the number of arguments read and with
    their kinds; and any row of the table that fits in this way is the row
    returned, since no two rows fit the same instruction: the order of the
    rows in the table does not matter. *)
Theorem match_entry_unique (op : opcode) (na : Z) (va : list arg) (e : tentry) :
  match_entry op na va = Some e <->
  In e tmatch /\ te_op e = op /\ te_na e = na /\
  args_agree (Z.to_nat na) va (te_args e) = true.
Proof.
  unfold match_entry. split.
  - intros H. apply find_some in H. destruct H as [Hin H].
    apply andb_true_iff in H. destruct H as [H H3].
    apply andb_true_iff in H. destruct H as [H1 H2].
    apply Z.eqb_eq in H1, H2. apply op_num_inj in H1. auto.
  - intros (Hin & <- & <- & Ha).
    apply In_nth_error in Hin. destruct Hin as [j Hj].
    match goal with |- find ?p _ = _ => set (p0 := p) end.
    assert (Pe : p0 e = true).
    { unfold p0. now rewrite !Z.eqb_refl, Ha. }
    destruct (find p0 tmatch) as [e' |] eqn:F.
    + destruct (find_first _ _ _ F) as (i & Hi & Pe').
      unfold p0 in Pe'.
      apply andb_true_iff in Pe'. destruct Pe' as [H H3].
      apply andb_true_iff in H. destruct H as [H1 H2].
      apply Z.eqb_eq in H1, H2.
      assert (C : clash e' e = true).
      { unfold clash. rewrite H1, H2, !Z.eqb_refl. cbn [andb].
        eapply agree_kinds; eassumption. }
      pose proof (tmatch_no_clash _ _ _ _ Hi Hj C). subst j. congruence.
    + apply nth_error_In in Hj. pose proof (find_none _ _ F e Hj). congruence.
Qed.

(** ** The encoder, for every row of the table *)

Lemma bytes_uint8 xs : Forall (fun b => 0 <= b < 256) (map uint8 xs).
Proof.
  apply Forall_forall. intros b Hb. apply in_map_iff in Hb.
  destruct Hb as (x & <- & _). apply uint8_range.
Qed.

Ltac shape_rest :=
  split; [unfold range_messages; cbn; auto 6 | split; [cbn; auto | apply bytes_uint8]].

Ltac shape c msg xs :=
  exists c, msg, (map uint8 xs);
  split; [intros out s; try (destruct out; reflexivity); reflexivity | shape_rest].

Lemma encode_plain_shape lineno pc n k w va code :
  plain_kind k ->
  exists c msg bs,
    encodes lineno pc (S n) k w va code c msg bs /\ In msg range_messages /\
    instruction_bytes bs.
Proof.
  intros [-> | [-> | [-> | [-> | ->]]]].
  - shape false "branch out of range"%string
          [Z.lor (Z.shiftr w 8) (va_rno va 0); Z.lor (Z.shiftl (va_rno va 1) 4) (va_rno va 2)].
  - shape (out_of_int16 (va_val va 2)) "inmediate out of range"%string
          [Z.lor (Z.shiftr w 8) (va_rno va 0); Z.lor w (Z.shiftl (va_rno va 1) 4);
           Z.shiftr (va_val va 2) 8; va_val va 2].
  - shape (out_of_int16 (branch_offset pc (va_val va 0))) "branch out of range"%string
          [Z.shiftr w 8; w; Z.shiftr (branch_offset pc (va_val va 0)) 8;
           branch_offset pc (va_val va 0)].
  - shape (out_of_int16 (va_val va 1)) "memory offset out of range"%string
          [Z.lor (Z.shiftr w 8) (va_rno va 0); Z.lor w (Z.shiftl (va_rno va 1) 4);
           Z.shiftr (va_val va 1) 8; va_val va 1].
  - shape ((va_val va 1 <? 0) || (va_val va 1 >? 15)) "special register of range"%string
          [Z.shiftr w 8; Z.lor w (Z.shiftl (va_rno va 0) 4);
           Z.shiftr (va_val va 1) 8; va_val va 1].
Qed.

Lemma table_kind e : In e tmatch -> In (te_kind e) table_kinds.
Proof.
  intros He.
  assert (C : forallb (fun e => existsb (Z.eqb (te_kind e)) table_kinds) tmatch = true)
    by reflexivity.
  rewrite forallb_forall in C. specialize (C e He).
  apply existsb_exists in C. destruct C as (k & Hk & E).
  apply Z.eqb_eq in E. now rewrite E.
Qed.

(** X4. The encoder on a row of the table, whatever the arguments.  The
    switch never reaches its default case ("opcode type"), is done within
    the three rounds it is given, and behaves the same on every pass but for
    one diagnostic: it appends 2, 4 or 6 bytes, each in 0..255, that do not
    depend on the pass, and it reports at most one error, one of the four
    "out of range" messages, and only on the final pass.  On the other
    passes the state is left as it was. *)
Theorem encode_shape (lineno pc : Z) (e : tentry) (va : list arg) (code : list Z) :
  In e tmatch ->
  exists c msg bs,
    encodes lineno pc 3 (te_kind e) (te_word e) va code c msg bs /\
    In msg range_messages /\ instruction_bytes bs.
Proof.
  intros He. apply table_kind in He.
  generalize (te_kind e) (te_word e) He. clear e He. intros k w Hk.
  change 3%nat with (S (S 1)).
  generalize (S 1) (fun k' w' va' code' =>
                      encode_plain_shape lineno pc 1 k' w' va' code').
  intros m IH. unfold encodes in *. cbn [encode].
  repeat (match goal with
          | |- context [if ?c then _ else _] => destruct c eqn:?
          end;
          try solve [ apply IH; unfold plain_kind; auto 6
                    | exists false, "branch out of range"%string; eexists;
                      split; [intros [|] s; reflexivity | shape_rest]
                    | eexists _, _, _; split; [intros out s; reflexivity | shape_rest] ]).
  exfalso. unfold table_kinds in Hk. cbn [In] in Hk.
  repeat match goal with
         | H : (k =? _) = false |- _ => apply Z.eqb_neq in H
         end.
  intuition congruence.
Qed.

Lemma encode_shape_witness :
  In (mkEntry OP_ADD 2 [kR; kN; k_] (ch "a") 0x3004) tmatch /\
  exists c msg bs,
    encodes 1 0 3 (ch "a") 0x3004 [mkArg kR 1 0; mkArg kN 0 70000; arg0] [] c msg bs /\
    In msg range_messages /\ instruction_bytes bs.
Proof.
  assert (H : In (mkEntry OP_ADD 2 [kR; kN; k_] (ch "a") 0x3004) tmatch)
    by (apply (nth_error_In tmatch 2); reflexivity).
  split; [exact H |].
  exact (encode_shape 1 0 (mkEntry OP_ADD 2 [kR; kN; k_] (ch "a") 0x3004)
                      [mkArg kR 1 0; mkArg kN 0 70000; arg0] [] H).
Defined.

(** ** The label table: insert and look up *)


Lemma nth_upd_other {A : Type} (i j : nat) (x d : A) (l : list A) :
  i <> j -> nth j (upd i x l) d = nth j l d.
Proof.
  revert i j. induction l as [| h t IH]; intros [| i] [| j] H; simpl; auto; try lia.
Qed.

Lemma get_set_other i j l s : i <> j -> get_label (set_label i l s) j = get_label s j.
Proof. intros H. unfold get_label, set_label. cbn. now apply nth_upd_other. Qed.

Lemma memeq_eq a : forall b, length a = length b -> (memeq a b = true <-> a = b).
Proof.
  induction a as [| x a IH]; intros [| y b] H; simpl in *; try lia.
  - tauto.
  - rewrite andb_true_iff, Z.eqb_eq, IH by lia. split.
    + intros [-> ->]. reflexivity.
    + intros [= -> ->]. auto.
Qed.

(** The test of the search loop on an entry named [nm]. *)
Lemma entry_test id nm :
  (Z.of_nat (length id) =? Z.of_nat (length nm)) && memeq id nm = true <-> id = nm.
Proof.
  rewrite andb_true_iff, Z.eqb_eq. split.
  - intros [L H]. apply memeq_eq in H; [exact H | lia].
  - intros ->. split; [reflexivity |]. now apply memeq_eq.
Qed.

Lemma find_from_ext s s' id n : forall i,
  (forall j, (i <= j < i + n)%nat ->
             len (get_label s' j) = len (get_label s j) /\
             name (get_label s' j) = name (get_label s j)) ->
  find_from s' id n i = find_from s id n i.
Proof.
  induction n as [| n IH]; intros i H; cbn [find_from]; [reflexivity |].
  destruct (H i ltac:(lia)) as [-> ->].
  destruct (_ && _); [reflexivity |]. apply IH. intros j Hj. apply H. lia.
Qed.

Lemma find_from_snoc s id n : forall i,
  find_from s id (S n) i
  = match find_from s id n i with
    | Some j => Some j
    | None =>
        let l := get_label s (i + n) in
        if (Z.of_nat (length id) =? len l) && memeq id (name l) then Some (i + n)%nat
        else None
    end.
Proof.
  induction n as [| n IH]; intros i.
  - cbn [find_from]. rewrite Nat.add_0_r. reflexivity.
  - change (find_from s id (S (S n)) i)
      with (let l := get_label s i in
            if (Z.of_nat (length id) =? len l) && memeq id (name l) then Some i
            else find_from s id (S n) (S i)).
    cbv zeta. rewrite (IH (S i)). cbn [find_from].
    destruct (_ && _); [reflexivity |].
    replace (S i + n)%nat with (i + S n)%nat by lia. reflexivity.
Qed.

(** X5. Insert, then look up, for a global label.  With room in the table and
    an identifier of at most [MAX_CHAR_LABEL] characters, [add_label] returns
    the entry at the old [nlabel] with the value given; afterwards
    [find_label] finds every global label it found before at the same entry
    (an older label of the same name is not shadowed), finds the new entry
    for exactly the identifiers whose first [MAX_CHAR_LABEL] characters are
    the new name, and finds nothing else. *)
Theorem add_then_find_global (s : state) (id : list Z) (at_ : Z) :
  table_inv s -> nlabel s < lstack s -> (length id <= 22)%nat ->
  exists s',
    add_label None id at_ s = Ok (Z.to_nat (nlabel s)) s' /\
    table_inv s' /\
    value (get_label s' (Z.to_nat (nlabel s))) = uint32 at_ /\
    forall id',
      find_label s' None id'
      = match find_label s None id' with
        | Some j => Some j
        | None => if list_eq_dec Z.eq_dec (significant id') id
                  then Some (Z.to_nat (nlabel s)) else None
        end.
Proof.
  intros (Hl & Hn & Hs) Hlt Hid. unfold MAX_LABELS in Hs.
  unfold add_label.
  destruct (Z.geb_spec (nlabel s) (lstack s)) as [G | _]; [lia |].
  destruct (Z.gtb_spec (Z.of_nat (length id)) MAX_CHAR_LABEL) as [G | _];
    [unfold MAX_CHAR_LABEL in G; lia |].
  eexists. split; [reflexivity |].
  set (n := Z.to_nat (nlabel s)).
  assert (Hn' : uint32 (nlabel s + 1) = nlabel s + 1) by (apply uint32_small; lia).
  assert (Hi : (n < length (tlabel s))%nat) by (unfold n; lia).
  split; [| split].
  - unfold table_inv, MAX_LABELS. cbn. rewrite length_upd, Hn'. lia.
  - rewrite get_set_label by exact Hi. reflexivity.
  - intros id'. unfold find_label.
    cbn [set_label set_labels nlabel]. rewrite Hn', !Z.sub_0_r.
    replace (Z.to_nat (nlabel s + 1)) with (S n) by (unfold n; lia).
    fold (significant id'). fold n.
    rewrite find_from_snoc. cbn [Z.to_nat Nat.add].
    match goal with |- context [find_from ?s1 _ n 0] => set (s' := s1) end.
    rewrite (find_from_ext s s').
    2:{ intros j Hj. unfold s'. fold (set_label n
          (mkLabel (uint32 at_) (uint16 (lstack s)) (uint16 (lstack s))
                   (flags (get_label (set_labels s (tlabel s) (uint32 (nlabel s + 1)) (lstack s)) n))
                   (Z.of_nat (length id)) id)
          (set_labels s (tlabel s) (nlabel s + 1) (lstack s))).
        rewrite get_set_other by lia. split; reflexivity. }
    destruct (find_from s (significant id') n 0); [reflexivity |].
    cbv zeta. unfold s'.
    fold (set_label n
          (mkLabel (uint32 at_) (uint16 (lstack s)) (uint16 (lstack s))
                   (flags (get_label (set_labels s (tlabel s) (uint32 (nlabel s + 1)) (lstack s)) n))
                   (Z.of_nat (length id)) id)
          (set_labels s (tlabel s) (nlabel s + 1) (lstack s))).
    rewrite get_set_label by exact Hi. cbn [len name].
    destruct (list_eq_dec Z.eq_dec (significant id') id) as [E | E].
    + rewrite (proj2 (entry_test _ _) E). reflexivity.
    + destruct (_ && _) eqn:T; [| reflexivity]. apply entry_test in T. contradiction.
Qed.

Lemma find_label_ext s s' master id b e :
  0 <= b ->
  (match master with Some m => lbegin (get_label s m) | None => 0 end) = b ->
  (match master with Some m => lend (get_label s m) | None => nlabel s end) = e ->
  (match master with Some m => lbegin (get_label s' m) | None => 0 end) = b ->
  (match master with Some m => lend (get_label s' m) | None => nlabel s' end) = e ->
  (forall j, b <= Z.of_nat j < e ->
             len (get_label s' j) = len (get_label s j) /\
             name (get_label s' j) = name (get_label s j)) ->
  find_label s' master id = find_label s master id.
Proof.
  intros B0 B E B' E' H. unfold find_label. rewrite B, E, B', E'.
  apply find_from_ext. intros j Hj. apply H. lia.
Qed.

Lemma add_then_find_global_witness :
  table_inv initial_state /\ nlabel initial_state < lstack initial_state /\
  (length (bytes_of_string "LOOP") <= 22)%nat /\
  exists s',
    add_label None (bytes_of_string "LOOP") 16 initial_state = Ok 0%nat s' /\
    find_label s' None (bytes_of_string "LOOP") = Some 0%nat.
Proof.
  assert (I : table_inv initial_state)
    by (unfold table_inv; cbn; unfold MAX_LABELS; repeat split; lia).
  assert (L : nlabel initial_state < lstack initial_state) by (cbn; reflexivity).
  assert (N : (length (bytes_of_string "LOOP") <= 22)%nat) by (cbn; lia).
  split; [exact I |]. split; [exact L |]. split; [exact N |].
  destruct (add_then_find_global initial_state (bytes_of_string "LOOP") 16 I L N)
    as (s' & E & _ & _ & F).
  exists s'. split; [exact E |]. rewrite F. reflexivity.
Defined.

(** X6. Insert, then look up, for a local label.  Let [m] be a global label
    whose local labels are the most recent ones ([lbegin] is [lstack]).
    [add_label] puts the new label just below them and returns it; afterwards
    a search under [m] finds the new label for the identifiers whose first
    [MAX_CHAR_LABEL] characters are its name, and for every other identifier
    what it found before; the global search, and the search under any other
    main label whose local labels lie above, find exactly what they found
    before: a local label is invisible outside its main label. *)
Theorem add_then_find_local (s : state) (m : nat) (id : list Z) (at_ : Z) :
  table_inv s -> nlabel s < lstack s -> (length id <= 22)%nat ->
  Z.of_nat m < nlabel s ->
  lbegin (get_label s m) = lstack s -> lstack s <= lend (get_label s m) ->
  let i := Z.to_nat (lstack s - 1) in
  exists s',
    add_label (Some m) id at_ s = Ok i s' /\
    table_inv s' /\
    value (get_label s' i) = uint32 at_ /\
    lbegin (get_label s' m) = lstack s' /\
    (forall id',
        find_label s' (Some m) id'
        = if list_eq_dec Z.eq_dec (significant id') id then Some i
          else find_label s (Some m) id') /\
    (forall id', find_label s' None id' = find_label s None id') /\
    (forall m2 id',
        m2 <> m -> Z.of_nat m2 < nlabel s -> lstack s <= lbegin (get_label s m2) ->
        find_label s' (Some m2) id' = find_label s (Some m2) id').
Proof.
  intros (Hl & Hn & Hs) Hlt Hid Hm Hb He i. unfold MAX_LABELS in Hs.
  unfold add_label.
  destruct (Z.geb_spec (nlabel s) (lstack s)) as [G | _]; [lia |].
  destruct (Z.gtb_spec (Z.of_nat (length id)) MAX_CHAR_LABEL) as [G | _];
    [unfold MAX_CHAR_LABEL in G; lia |].
  assert (U : uint32 (lstack s - 1) = lstack s - 1) by (apply uint32_small; lia).
  assert (U16 : uint16 (lstack s - 1) = lstack s - 1)
    by (unfold uint16; apply Z.mod_small; lia).
  rewrite U. cbv zeta. fold i. rewrite U16.
  set (s1 := set_labels s (tlabel s) (nlabel s) (lstack s - 1)).
  set (ml := get_label s1 m).
  set (s2 := set_label m (mkLabel (value ml) (lstack s - 1) (lend ml) (flags ml) (len ml)
                                  (name ml)) s1).
  set (nl := mkLabel (uint32 at_) (lbegin (get_label s2 i)) (lend (get_label s2 i))
                     (flags (get_label s2 i)) (Z.of_nat (length id)) id).
  exists (set_label i nl s2). split; [reflexivity |].
  assert (Hmi : m <> i) by (unfold i; lia).
  assert (Li : (i < length (tlabel s2))%nat)
    by (unfold s2; rewrite tlabel_set_label; unfold s1; cbn; unfold i; lia).
  assert (Lm : (m < length (tlabel s1))%nat) by (unfold s1; cbn; lia).
  assert (Gi : get_label (set_label i nl s2) i = nl) by (now apply get_set_label).
  assert (Gm : get_label (set_label i nl s2) m
               = mkLabel (value ml) (lstack s - 1) (lend ml) (flags ml) (len ml) (name ml)).
  { rewrite get_set_other by auto. unfold s2. now rewrite get_set_label. }
  assert (Go : forall j, j <> i -> j <> m -> get_label (set_label i nl s2) j = get_label s j).
  { intros j J1 J2. rewrite get_set_other by auto. unfold s2.
    rewrite get_set_other by auto. reflexivity. }
  assert (Same : forall j, j <> i ->
                           len (get_label (set_label i nl s2) j) = len (get_label s j) /\
                           name (get_label (set_label i nl s2) j) = name (get_label s j)).
  { intros j J. destruct (Nat.eq_dec j m) as [-> | J2].
    - rewrite Gm. split; reflexivity.
    - rewrite Go by auto. split; reflexivity. }
  split; [| split; [| split; [| split; [| split]]]].
  - unfold table_inv, MAX_LABELS. rewrite tlabel_set_label.
    unfold s2. rewrite tlabel_set_label. unfold s1. cbn. lia.
  - rewrite Gi. reflexivity.
  - rewrite Gm. reflexivity.
  - intros id'. unfold find_label at 1. rewrite Gm. cbn [lbegin lend].
    fold (significant id').
    change (lend ml) with (lend (get_label s m)).
    replace (Z.to_nat (lend (get_label s m) - (lstack s - 1)))
      with (S (Z.to_nat (lend (get_label s m) - lstack s))) by lia.
    fold i. cbn [find_from]. rewrite Gi.
    change (len nl) with (Z.of_nat (length id)). change (name nl) with id.
    destruct (list_eq_dec Z.eq_dec (significant id') id) as [E | E].
    + rewrite (proj2 (entry_test _ _) E). reflexivity.
    + destruct (_ && _) eqn:T; [apply entry_test in T; contradiction |].
      unfold find_label. rewrite Hb. fold (significant id').
      replace (S i) with (Z.to_nat (lstack s)) by (unfold i; lia).
      apply find_from_ext. intros j Hj. apply Same. unfold i. lia.
  - intros id'. apply (find_label_ext s _ None id' 0 (nlabel s)); auto; [lia |].
    intros j Hj. apply Same. unfold i. lia.
  - intros m2 id' M2 Hm2 Hb2.
    apply (find_label_ext s _ (Some m2) id' (lbegin (get_label s m2)) (lend (get_label s m2)));
      auto.
    + lia.
    + rewrite Go; auto. unfold i. lia.
    + rewrite Go; auto. unfold i. lia.
    + intros j Hj. apply Same. unfold i. lia.
Qed.

Lemma add_then_find_local_witness :
  let s := match add_label None (bytes_of_string "MAIN") 0 initial_state with
           | Ok _ s1 => s1
           | _ => initial_state
           end in
  table_inv s /\ nlabel s < lstack s /\ (length (bytes_of_string "L1") <= 22)%nat /\
  Z.of_nat 0 < nlabel s /\ lbegin (get_label s 0) = lstack s /\
  lstack s <= lend (get_label s 0) /\
  exists s',
    add_label (Some 0%nat) (bytes_of_string "L1") 4 s = Ok 255%nat s' /\
    find_label s' (Some 0%nat) (bytes_of_string "L1") = Some 255%nat /\
    find_label s' None (bytes_of_string "L1") = None.
Proof.
  intros s.
  assert (I : table_inv s) by (unfold table_inv; cbn; unfold MAX_LABELS; repeat split; lia).
  assert (L : nlabel s < lstack s) by (cbn; reflexivity).
  assert (N : (length (bytes_of_string "L1") <= 22)%nat) by (cbn; lia).
  assert (M : Z.of_nat 0 < nlabel s) by (cbn; reflexivity).
  assert (B : lbegin (get_label s 0) = lstack s) by reflexivity.
  assert (E : lstack s <= lend (get_label s 0)) by (cbn; discriminate).
  repeat (split; [assumption |]).
  destruct (add_then_find_local s 0 (bytes_of_string "L1") 4 I L N M B E)
    as (s' & A & _ & _ & _ & F & G & _).
  exists s'. split; [exact A |]. split.
  - rewrite F. reflexivity.
  - rewrite G. reflexivity.
Defined.

(** ** The output file read back *)

Lemma file_lines_app f' g : forall cur,
  file_lines cur (f' ++ ch "010" :: g) = file_lines cur (f' ++ [ch "010"]) ++ file_lines [] g.
Proof.
  induction f' as [| c t IH]; intros cur.
  - reflexivity.
  - cbn [app file_lines]. destruct (c =? ch "010").
    + rewrite IH. reflexivity.
    + apply IH.
Qed.

Lemma file_lines_closed f g :
  closed f -> file_lines [] (f ++ g) = file_lines [] f ++ file_lines [] g.
Proof.
  intros [-> | [f' ->]]; [reflexivity |].
  rewrite <- app_assoc. apply file_lines_app.
Qed.

Lemma file_lines_one body : forall cur,
  Forall (fun c => c <> ch "010") body ->
  file_lines cur (body ++ [ch "010"]) = [rev cur ++ body ++ [ch "010"]].
Proof.
  induction body as [| c t IH]; intros cur H.
  - cbn. reflexivity.
  - inversion H; subst. cbn [app file_lines].
    destruct (Z.eqb_spec c (ch "010")); [contradiction |].
    rewrite IH by assumption. cbn [rev]. now rewrite <- app_assoc.
Qed.

Lemma hex1_digit n : hex1 n <> ch "010".
Proof.
  unfold hex1.
  assert (C : forallb (fun j => negb (nth j hdigit 0 =? ch "010")) (seq 0 16) = true)
    by reflexivity.
  rewrite forallb_forall in C.
  assert (B : 0 <= Z.land n 15 < 16).
  { change 15 with (Z.ones 4). rewrite Z.land_ones by lia. apply Z.mod_pos_bound. lia. }
  specialize (C (Z.to_nat (Z.land n 15)) ltac:(apply in_seq; lia)).
  now destruct (Z.eqb_spec (nth (Z.to_nat (Z.land n 15)) hdigit 0) (ch "010")).
Qed.

Lemma fmt_b_digits n : Forall (fun c => c <> ch "010") (fmt_b n).
Proof. repeat constructor; apply hex1_digit. Qed.

Lemma record_text_line s :
  exists body, record_text s = body ++ [ch "010"] /\ Forall (fun c => c <> ch "010") body.
Proof.
  unfold record_text. cbv zeta.
  set (data := map uint8 (firstn (Z.to_nat (pending s)) (line s))).
  set (crc := fold_left _ data _).
  exists (ch ":" :: fmt_b (pending s) ++ fmt_w (basepc s) ++ [ch "0"; ch "0"]
            ++ flat_map fmt_b data ++ fmt_b (Z.land (0 - crc) 255)).
  split.
  - cbn [app]. f_equal. rewrite <- !app_assoc. cbn [app]. rewrite <- !app_assoc. reflexivity.
  - constructor; [discriminate |].
    repeat (apply Forall_app; split); try apply fmt_b_digits.
    + repeat constructor; apply hex1_digit.
    + repeat constructor; discriminate.
    + apply Forall_forall. intros c Hc. apply in_flat_map in Hc.
      destruct Hc as (x & _ & Hc).
      pose proof (fmt_b_digits x) as F. rewrite Forall_forall in F. now apply F.
Qed.

Lemma file_image_record f s :
  closed f -> file_image (f ++ record_text s) = file_image f ++ record_image (record_text s).
Proof.
  intros C. unfold file_image. rewrite file_lines_closed by exact C.
  rewrite flat_map_app. f_equal.
  destruct (record_text_line s) as (body & -> & Hb).
  rewrite file_lines_one by exact Hb. cbn [rev app flat_map]. apply app_nil_r.
Qed.

Lemma closed_record f s : closed (f ++ record_text s).
Proof.
  right. destruct (record_text_line s) as (body & -> & _).
  exists (f ++ body). now rewrite app_assoc.
Qed.

Lemma map_uint8_bytes l : Forall (fun b => 0 <= b < 256) l -> map uint8 l = l.
Proof.
  induction 1 as [| x l Hx _ IH]; [reflexivity |].
  cbn [map]. rewrite IH. f_equal. now apply uint8_small.
Qed.

Lemma record_image_text s :
  0 <= pending s <= 32 -> 0 <= basepc s < 65536 -> length (line s) = 32%nat ->
  Forall (fun b => 0 <= b < 256) (firstn (Z.to_nat (pending s)) (line s)) ->
  record_image (record_text s) = pending_image s.
Proof.
  intros Hp Hb Hl Hd. unfold record_image. rewrite record_text_bytes. cbv zeta.
  cbn [app]. rewrite Z.eqb_refl.
  rewrite (uint8_small (pending s)) by lia.
  rewrite map_uint8_bytes by exact Hd.
  rewrite firstn_app.
  rewrite firstn_all2 by (rewrite length_firstn; lia).
  replace (Z.to_nat (pending s) - length (firstn (Z.to_nat (pending s)) (line s)))%nat
    with 0%nat by (rewrite length_firstn; lia).
  cbn [firstn]. rewrite app_nil_r.
  unfold pending_image. f_equal. apply map_ext. intros i. f_equal.
  unfold uint8. rewrite Z.shiftr_div_pow2 by lia. change (2 ^ 8) with 256.
  rewrite (Z.mod_small (basepc s / 256)).
  - pose proof (Z.div_mod (basepc s) 256 ltac:(lia)). lia.
  - split; [apply Z.div_pos; lia | apply Z.div_lt_upper_bound; lia].
Qed.

(** [emit_flush] moves the pending bytes into the file. *)
Lemma emit_flush_emitted s :
  hex_inv s ->
  file_image (ofile (emit_flush s)) = emitted s /\ closed (ofile (emit_flush s)).
Proof.
  intros ((Hp & Hb & Ho & Hl) & Hd & Hc). unfold OUTPUT_LINE_BYTES in Hp.
  unfold emit_flush, emitted.
  destruct (Z.eqb_spec (pending s) 0) as [E | E].
  - split; [| exact Hc]. unfold pending_image. rewrite E. cbn. now rewrite app_nil_r.
  - cbn [iprint set_image ofile]. split; [| apply closed_record].
    rewrite file_image_record by exact Hc. f_equal.
    apply record_image_text; auto.
Qed.

Lemma emit_emitted (s : state) (at_ byte : Z) :
  hex_inv s ->
  hex_inv (emit at_ byte s) /\
  emitted (emit at_ byte s) = emitted s ++ [(uint16 at_, uint8 byte)].
Proof.
  intros H. pose proof H as (I & Hd & Hc).
  destruct (emit_step s at_ byte I) as (I' & P & _). cbv zeta in P.
  destruct (emit_flush_emitted s H) as (F & C).
  destruct (emit_flush_image s) as (P0 & L0).
  destruct I as (Hp & Hb & Ho & Hl). unfold OUTPUT_LINE_BYTES in *.
  assert (O : ofile (emit at_ byte s)
              = if (pending s >=? 32) || negb (uint16 at_ =? outpc s)
                then ofile (emit_flush s) else ofile s).
  { unfold emit, OUTPUT_LINE_BYTES. destruct (_ || _); reflexivity. }
  assert (D : firstn (Z.to_nat (pending (emit at_ byte s))) (line (emit at_ byte s))
              = (if (pending s >=? 32) || negb (uint16 at_ =? outpc s)
                 then [] else firstn (Z.to_nat (pending s)) (line s)) ++ [uint8 byte]).
  { unfold emit, OUTPUT_LINE_BYTES. destruct (_ || _) eqn:Cd.
    - cbn [set_image pending line]. rewrite P0, L0.
      rewrite (uint32_small (0 + 1)) by lia.
      change (Z.to_nat (0 + 1)) with 1%nat. change (Z.to_nat 0) with 0%nat.
      rewrite firstn_upd_last by lia. reflexivity.
    - apply orb_false_iff in Cd. destruct Cd as [C1 _].
      assert (pending s < 32) by (destruct (Z.geb_spec (pending s) 32); [discriminate | lia]).
      cbn [set_image pending line].
      rewrite (uint32_small (pending s + 1)) by lia.
      replace (Z.to_nat (pending s + 1)) with (S (Z.to_nat (pending s))) by lia.
      rewrite firstn_upd_last by lia. reflexivity. }
  split.
  - split; [exact I' |]. split.
    + rewrite D. apply Forall_app. split.
      * destruct (_ || _); [constructor | exact Hd].
      * repeat constructor; apply uint8_range.
    + rewrite O. destruct (_ || _); assumption.
  - unfold emitted at 1. rewrite P, O.
    destruct (_ || _).
    + rewrite F. reflexivity.
    + unfold emitted. now rewrite app_assoc.
Qed.

Lemma hex_inv_initial : hex_inv initial_state.
Proof.
  split; [apply image_inv_initial |]. split; [constructor | now left].
Qed.

Lemma emits_emitted l : forall s,
  hex_inv s ->
  let s' := fold_left (fun s ab => emit (fst ab) (snd ab) s) l s in
  hex_inv s' /\
  emitted s' = emitted s ++ map (fun ab => (uint16 (fst ab), uint8 (snd ab))) l.
Proof.
  induction l as [| [a b] l IH]; intros s H; cbn [fold_left map fst snd].
  - split; [exact H | now rewrite app_nil_r].
  - destruct (emit_emitted s a b H) as (H1 & E1).
    destruct (IH _ H1) as (H2 & E2). cbv zeta in H2, E2.
    split; [exact H2 |]. rewrite E2, E1. now rewrite <- app_assoc.
Qed.

(** X7. The output file read back.  From a state of the emitter between two
    calls, any sequence of calls of [emit], at any addresses and with any
    bytes, followed by [emit_done], leaves a file whose data records, read
    back in order (count, address and data of each record of type 00), carry
    exactly the bytes that had reached the emitter before, followed by the
    bytes of the calls in their order, each once, at its address cut to 16
    bits and with its value cut to 8 bits; the closing record carries
    none. *)
Theorem hex_round_trip (s : state) (l : list (Z * Z)) :
  hex_inv s ->
  file_image (ofile (emit_done (fold_left (fun s ab => emit (fst ab) (snd ab) s) l s)))
  = emitted s ++ map (fun ab => (uint16 (fst ab), uint8 (snd ab))) l.
Proof.
  intros H. destruct (emits_emitted l s H) as (H' & E). cbv zeta in H', E.
  rewrite <- E.
  destruct (emit_flush_emitted _ H') as (F & C).
  unfold emit_done. cbn [iprint set_image ofile].
  unfold file_image. rewrite file_lines_closed by exact C.
  rewrite flat_map_app. fold (file_image (ofile (emit_flush
    (fold_left (fun s ab => emit (fst ab) (snd ab) s) l s)))).
  rewrite F. apply app_nil_r.
Qed.

Lemma hex_round_trip_witness :
  hex_inv initial_state /\
  file_image (ofile (emit_done (fold_left (fun s ab => emit (fst ab) (snd ab) s)
                                          [(0x10, 1); (0x11, 2); (0x10020, 0x103)]
                                          initial_state)))
  = [(0x10, 1); (0x11, 2); (0x20, 3)].
Proof.
  split; [exact hex_inv_initial |].
  exact (hex_round_trip initial_state [(0x10, 1); (0x11, 2); (0x10020, 0x103)]
                        hex_inv_initial).
Defined.

(** *** The output loop of [assemble] *)

Lemma data_added_refl s : data_added s s.
Proof. exists []. now rewrite app_nil_r. Qed.

Lemma data_added_trans s1 s2 s3 :
  data_added s1 s2 -> data_added s2 s3 -> data_added s1 s3.
Proof.
  intros (l1 & E1 & D1) (l2 & E2 & D2). exists (l1 ++ l2).
  rewrite E2, E1, <- app_assoc, forallb_app, D1, D2. auto.
Qed.

Lemma data_record_text s : data_record (record_text s) = true.
Proof.
  unfold data_record. pose proof (record_text_bytes s) as E. cbv zeta in E.
  rewrite E. reflexivity.
Qed.

Lemma emit_flush_added s : hex_inv s -> data_added s (emit_flush s).
Proof.
  intros (_ & _ & C). unfold emit_flush.
  destruct (pending s =? 0); [apply data_added_refl |].
  exists [record_text s]. cbn [iprint set_image ofile]. split.
  - rewrite file_lines_closed by exact C. f_equal.
    destruct (record_text_line s) as (body & E & Hb). rewrite E.
    rewrite file_lines_one by exact Hb. reflexivity.
  - cbn [forallb]. now rewrite data_record_text.
Qed.

Lemma emit_added s a b : hex_inv s -> data_added s (emit a b s).
Proof.
  intros H.
  assert (O : ofile (emit a b s) = ofile s \/ ofile (emit a b s) = ofile (emit_flush s)).
  { unfold emit. destruct (_ || _); [right | left]; reflexivity. }
  unfold data_added. destruct O as [-> | ->].
  - apply data_added_refl.
  - apply emit_flush_added. exact H.
Qed.

Lemma emit_bytes_emitted code : forall pc i s,
  hex_inv s ->
  hex_inv (emit_bytes pc i code s) /\
  emitted (emit_bytes pc i code s) = emitted s ++ placed_from pc i code /\
  data_added s (emit_bytes pc i code s).
Proof.
  induction code as [| b t IH]; intros pc i s H; cbn [emit_bytes placed_from].
  - split; [exact H |]. split; [now rewrite app_nil_r | apply data_added_refl].
  - destruct (emit_emitted s (uint32 (pc + i)) b H) as (H1 & E1).
    destruct (IH pc (i + 1) _ H1) as (H2 & E2 & D2).
    split; [exact H2 |]. split.
    + rewrite E2, E1, uint16_uint32, <- app_assoc. reflexivity.
    + eapply data_added_trans; [apply emit_added; exact H | exact D2].
Qed.

Lemma placed_from_range code : forall pc i,
  Forall (fun ab => 0 <= fst ab < 65536 /\ 0 <= snd ab < 256) (placed_from pc i code).
Proof.
  induction code as [| b t IH]; intros pc i; cbn [placed_from]; constructor; [| apply IH].
  cbn [fst snd]. split; apply Z.mod_pos_bound; lia.
Qed.

(** What [error] leaves of the emitter and the file: all of it. *)
Lemma error_same_image lineno msg s :
  match error lineno msg s with
  | Ok _ s' | Exit s' => same_image s s'
  | _ => False
  end.
Proof.
  unfold error. cbv zeta. destruct (_ >=? _); unfold same_image; cbn; auto.
Qed.

Lemma same_image_hex s s' :
  same_image s s' -> hex_inv s ->
  hex_inv s' /\ emitted s' = emitted s /\ ofile (emit_flush s') = ofile (emit_flush s).
Proof.
  intros (O & L & P & B & U) H.
  unfold hex_inv, image_inv, emitted, pending_image, emit_flush, record_text in *.
  rewrite P. destruct (pending s =? 0); cbn [iprint set_image ofile];
    rewrite ?O, ?L, ?P, ?B, ?U; auto.
Qed.

(** C9. [emit] takes its address as a 16-bit quantity.  On the final pass,
    for a line that is neither [.ORG] nor [.SPACE], the output loop of
    [assemble] hands each byte [code[i]] to [emit] at the counter [pc + i],
    whatever 32-bit value it has.  From a state of the emitter between two
    calls, the round ends (it returns, or exits at the error limit) with the
    bytes that have reached the emitter being those before, followed by the
    bytes of the line in order, each at its counter reduced modulo 2^16, so
    below 0x10000.  Once flushed, the output file read back holds exactly
    these bytes at these addresses; and what the round and the flush added
    to the file are data records only, type 00 with a 16-bit address field,
    which carry the bytes that were pending and the bytes of the line: no
    record of another type, and so no extended address, is written. *)
Theorem emit_address_16bit (lineno pc : Z) (lv : lvars) (s : state) :
  hex_inv s -> l_org lv = false -> l_space lv = 0 ->
  let code := firstn (Z.to_nat (l_bytes lv)) (l_code lv) in
  match line_tail true lineno pc lv s with
  | Ok _ s' | Exit s' =>
      hex_inv s' /\
      emitted s' = emitted s ++ placed pc code /\
      Forall (fun ab => 0 <= fst ab < 65536 /\ 0 <= snd ab < 256) (placed pc code) /\
      file_image (ofile (emit_flush s')) = emitted s ++ placed pc code /\
      exists ls,
        file_lines [] (ofile (emit_flush s')) = file_lines [] (ofile s) ++ ls /\
        forallb data_record ls = true /\
        flat_map record_image ls = pending_image s ++ placed pc code
  | _ => False
  end.
Proof.
  intros H Ho Hs code.
  set (s1 := if negb (l_bytes lv =? 0) then emit_bytes pc 0 code s else s).
  assert (A : hex_inv s1 /\ emitted s1 = emitted s ++ placed pc code /\ data_added s s1).
  { unfold s1, placed. destruct (Z.eqb_spec (l_bytes lv) 0) as [E | E]; cbn [negb].
    - unfold code. rewrite E. cbn [Z.to_nat firstn placed_from]. split; [exact H |].
      split; [now rewrite app_nil_r | apply data_added_refl].
    - apply emit_bytes_emitted. exact H. }
  destruct A as (H1 & E1 & D1).
  assert (G : forall s', same_image s1 s' ->
              hex_inv s' /\
              emitted s' = emitted s ++ placed pc code /\
              Forall (fun ab => 0 <= fst ab < 65536 /\ 0 <= snd ab < 256) (placed pc code) /\
              file_image (ofile (emit_flush s')) = emitted s ++ placed pc code /\
              exists ls,
                file_lines [] (ofile (emit_flush s')) = file_lines [] (ofile s) ++ ls /\
                forallb data_record ls = true /\
                flat_map record_image ls = pending_image s ++ placed pc code).
  { intros s' S. destruct (same_image_hex _ _ S H1) as (H' & E' & F').
    destruct (emit_flush_emitted s1 H1) as (F1 & _).
    split; [exact H' |]. split; [now rewrite E' |].
    split; [apply placed_from_range |].
    rewrite F'. split; [now rewrite F1 |].
    destruct (data_added_trans _ _ _ D1 (emit_flush_added s1 H1)) as (ls & L & D).
    exists ls. split; [exact L |]. split; [exact D |].
    pose proof F1 as F2. unfold file_image in F2. rewrite L, flat_map_app in F2.
    rewrite E1 in F2. unfold emitted, file_image in F2. rewrite <- app_assoc in F2.
    now apply app_inv_head in F2. }
  assert (W : when (true && negb (l_org lv) && negb (l_bytes lv =? 0) && (l_space lv =? 0))
                   (modify (emit_bytes pc 0 code)) s
              = Ok tt s1).
  { rewrite Ho, Hs. unfold s1. destruct (l_bytes lv =? 0); reflexivity. }
  unfold line_tail. unfold bind at 1. unfold get at 1. cbv beta iota.
  unfold bind at 1. fold code. rewrite W.
  destruct (_ || _).
  - apply G. unfold same_image. auto.
  - unfold bind. pose proof (error_same_image lineno "extra characters at end" s1) as S.
    destruct (error lineno "extra characters at end" s1) as [[] s2 | s2 | |];
      try contradiction; apply G; exact S.
Qed.

Lemma emit_address_16bit_witness :
  let lv := mkLvars 0 4 [0x12; 0x34; 0x56; 0x78] 0 false false in
  (hex_inv initial_state /\ l_org lv = false /\ l_space lv = 0) /\
  placed 0xFFFE (firstn (Z.to_nat (l_bytes lv)) (l_code lv))
  = [(0xFFFE, 0x12); (0xFFFF, 0x34); (0, 0x56); (1, 0x78)] /\
  let code := firstn (Z.to_nat (l_bytes lv)) (l_code lv) in
  match line_tail true 1 0xFFFE lv initial_state with
  | Ok _ s' | Exit s' =>
      hex_inv s' /\
      emitted s' = emitted initial_state ++ placed 0xFFFE code /\
      Forall (fun ab => 0 <= fst ab < 65536 /\ 0 <= snd ab < 256) (placed 0xFFFE code) /\
      file_image (ofile (emit_flush s')) = emitted initial_state ++ placed 0xFFFE code /\
      exists ls,
        file_lines [] (ofile (emit_flush s'))
        = file_lines [] (ofile initial_state) ++ ls /\
        forallb data_record ls = true /\
        flat_map record_image ls = pending_image initial_state ++ placed 0xFFFE code
  | _ => False
  end.
Proof.
  intros lv.
  split; [split; [exact hex_inv_initial | split; reflexivity] |].
  split; [reflexivity |].
  exact (emit_address_16bit 1 0xFFFE lv initial_state hex_inv_initial eq_refl eq_refl).
Defined.

(** ** Expressions: literals and chains *)

Lemma decimal_fold ds : forall v w,
  v = w mod 4294967296 ->
  fold_left (fun v c => uint32 (v * 10 + c - ch "0")) ds v
  = fold_left (fun v c => v * 10 + (c - ch "0")) ds w mod 4294967296.
Proof.
  induction ds as [| c ds IH]; intros v w E; cbn [fold_left]; [exact E |].
  apply IH. subst v. unfold uint32.
  replace (w * 10 + (c - ch "0")) with (w * 10 + c - ch "0") by lia.
  rewrite <- Z.add_sub_assoc.
  rewrite <- (Zplus_mod_idemp_l (w mod 4294967296 * 10)).
  rewrite Zmult_mod_idemp_l. rewrite Zplus_mod_idemp_l.
  f_equal. lia.
Qed.

Lemma lor_nibble v d : 0 <= d < 16 -> Z.lor (Z.shiftl v 4) d = v * 16 + d.
Proof.
  intros Hd.
  assert (L : Z.land (Z.shiftl v 4) d = 0).
  { apply Z.bits_inj'. intros n Hn. rewrite Z.land_spec, Z.bits_0.
    destruct (Z.lt_ge_cases n 4) as [C | C].
    - rewrite Z.shiftl_spec_low by lia. reflexivity.
    - destruct (Z.eq_dec d 0) as [-> | D]; [now rewrite Z.bits_0, andb_false_r |].
      assert (Z.log2 d < 4) by (apply Z.log2_lt_pow2; [lia | change (2 ^ 4) with 16; lia]).
      rewrite (Z.bits_above_log2 d n) by lia. apply andb_false_r. }
  assert (A : Z.lor (Z.shiftl v 4) d = Z.shiftl v 4 + d)
    by (pose proof (Z.add_lor_land (Z.shiftl v 4) d) as A; rewrite L in A; lia).
  rewrite A. f_equal. rewrite Z.shiftl_mul_pow2 by lia. reflexivity.
Qed.

Lemma hexval_range c : ishex c = true -> 0 <= hexval c < 16.
Proof.
  unfold ishex, hexval. intros H.
  destruct ((ch "0" <=? c) && (c <=? ch "9")) eqn:A.
  { apply andb_true_iff in A. destruct A as [A1 A2].
    apply Z.leb_le in A1, A2. change (ch "0") with 48 in *. change (ch "9") with 57 in *. lia. }
  destruct ((ch "a" <=? c) && (c <=? ch "f")) eqn:B.
  { apply andb_true_iff in B. destruct B as [B1 B2].
    apply Z.leb_le in B1, B2. change (ch "a") with 97 in *. change (ch "f") with 102 in *. lia. }
  destruct ((ch "A" <=? c) && (c <=? ch "F")) eqn:C.
  { apply andb_true_iff in C. destruct C as [C1 C2].
    apply Z.leb_le in C1, C2. change (ch "A") with 65 in *. change (ch "F") with 70 in *. lia. }
  discriminate.
Qed.

Lemma span_all f l : Forall (fun c => f c = true) (span f l).
Proof.
  induction l as [| c l IH]; cbn [span]; [constructor |].
  destruct (f c) eqn:E; constructor; auto.
Qed.

Lemma hexadecimal_fold ds : forall v w,
  Forall (fun c => ishex c = true) ds ->
  v = w mod 4294967296 ->
  fold_left (fun v c => uint32 (Z.lor (Z.shiftl v 4) (hexval c))) ds v
  = fold_left (fun v c => v * 16 + hexval c) ds w mod 4294967296.
Proof.
  induction ds as [| c ds IH]; intros v w H E; cbn [fold_left]; [exact E |].
  inversion H; subst. apply IH; [assumption |].
  rewrite lor_nibble by (now apply hexval_range). unfold uint32.
  rewrite <- (Zplus_mod_idemp_l (w mod 4294967296 * 16)).
  rewrite Zmult_mod_idemp_l. rewrite Zplus_mod_idemp_l. reflexivity.
Qed.

Lemma digit_not c x : isdigit c = true -> uint32 (x - ch "0") >= 10 -> (c =? x) = false.
Proof.
  intros H Hx. apply Z.eqb_neq. intros ->. unfold isdigit in H.
  apply Z.ltb_lt in H. lia.
Qed.

(** X8. Numeric literals in an expression.  A string of decimal digits is
    read to its last digit and its value is the number it denotes modulo
    2^32; with a minus sign directly before the first digit the value is the
    negated number modulo 2^32; a dollar sign not followed by another one is
    read with all the hexadecimal digits after it (there may be none, the
    value is then 0) as the number they denote modulo 2^32.  In each case the
    position after the literal is returned, nothing is reported whatever the
    size of the number, and the state is left as it was. *)
Theorem numeric_literals (lineno : Z) (mainlbl : option nat) (allow_undef : bool)
        (pc : Z) (buf : list Z) (rec : nat -> M (option nat * Z)) (p : nat) (s : state) :
  let el := element lineno mainlbl allow_undef pc buf rec in
  (isdigit (peek buf p) = true ->
   let ds := span isdigit (skipn p buf) in
   el p s = Ok (Item (decimal ds mod 2 ^ 32) 0 (p + length ds)) s) /\
  (peek buf p = ch "-" -> isdigit (peek buf (S p)) = true ->
   let ds := span isdigit (skipn (S p) buf) in
   el p s = Ok (Item ((0 - decimal ds) mod 2 ^ 32) 0 (S p + length ds)) s) /\
  (peek buf p = ch "$" -> peek buf (S p) <> ch "$" ->
   let ds := span ishex (skipn (S p) buf) in
   el p s = Ok (Item (hexadecimal ds mod 2 ^ 32) 0 (S p + length ds)) s).
Proof.
  intros el. unfold el, element. change (2 ^ 32) with 4294967296.
  split; [| split].
  - intros D.
    rewrite (digit_not _ (ch "(") D) by (vm_compute; discriminate).
    rewrite (digit_not _ (ch "$") D) by (vm_compute; discriminate).
    rewrite D. cbn [orb].
    rewrite (digit_not _ (ch "-") D) by (vm_compute; discriminate).
    unfold ret. f_equal. f_equal.
    apply decimal_fold. reflexivity.
  - intros M D. rewrite M.
    change (ch "-" =? ch "(") with false. change (ch "-" =? ch "$") with false.
    change (isdigit (ch "-")) with false. change (ch "-" =? ch "-") with true.
    rewrite D. cbn [orb andb].
    unfold ret. f_equal. f_equal.
    rewrite (decimal_fold _ 0 0) by reflexivity. fold (decimal (span isdigit (skipn (S p) buf))).
    unfold uint32. rewrite Zminus_mod_idemp_r. reflexivity.
  - intros M D. rewrite M.
    change (ch "$" =? ch "(") with false. change (ch "$" =? ch "$") with true.
    destruct (Z.eqb_spec (peek buf (S p)) (ch "$")); [contradiction |].
    unfold ret. f_equal. f_equal.
    apply hexadecimal_fold; [apply span_all | reflexivity].
Qed.

Lemma numeric_literals_witness :
  isdigit (peek (bytes_of_string "4294967301 ") 0) = true /\
  element 1 None false 0 (bytes_of_string "4294967301 ") (fun _ => ret (None, 0)) 0
          initial_state
  = Ok (Item 5 0 10) initial_state.
Proof.
  split; [reflexivity |].
  exact (proj1 (numeric_literals 1 None false 0 (bytes_of_string "4294967301 ")
                                 (fun _ => ret (None, 0)) 0 initial_state) eq_refl).
Defined.

Lemma reduce_full so : forall sv,
  length sv = S (length so) ->
  (reduce sv so = None /\ forall tv to, reduce (sv ++ tv) (so ++ to) = None) \/
  (exists r, reduce sv so = Some [r] /\
             forall tv to, reduce (sv ++ tv) (so ++ to) = reduce (r :: tv) to).
Proof.
  induction so as [| o so IH]; intros sv H.
  - destruct sv as [| x [| ? ?]]; try discriminate. right. exists x. split; reflexivity.
  - destruct sv as [| vr [| vl sv]]; try discriminate.
    cbn [reduce app]. destruct (binop o vl vr) as [vv |].
    + destruct (IH (vv :: sv)) as [[E F] | (r & E & F)]; [simpl in *; lia | |].
      * left. split; [exact E |]. intros tv to. apply (F tv to).
      * right. exists r. split; [exact E |]. intros tv to. apply (F tv to).
    + left. split; reflexivity.
Qed.

Lemma reduce_rev vs : forall os,
  length vs = S (length os) ->
  reduce (rev vs) (rev os) = option_map (fun v => [v]) (eval_right vs os).
Proof.
  induction vs as [| v vs IH]; intros os H; [discriminate |].
  destruct os as [| o os].
  - destruct vs; [reflexivity | discriminate].
  - cbn [rev eval_right]. specialize (IH os ltac:(simpl in H; lia)).
    destruct vs as [| v2 vs]; [discriminate |].
    destruct (reduce_full (rev os) (rev (v2 :: vs))) as [[E F] | (r & E & F)].
    + rewrite !length_rev. simpl in *. lia.
    + rewrite F. rewrite E in IH.
      destruct (eval_right (v2 :: vs) os); [discriminate | reflexivity].
    + rewrite F. rewrite E in IH.
      destruct (eval_right (v2 :: vs) os) as [x |]; [| discriminate].
      injection IH as ->. cbn [reduce]. destruct (binop o v x); reflexivity.
Qed.

(** X9. A chain of any length is folded from the right.  When the loop of
    [expr] reads the values [v1 .. vn] (at most 8, the capacity of the
    stack) separated by the binary operators [o1 .. o(n-1)] and then something
    that ends the expression, the result is [v1 o1 (v2 o2 (... vn))]: no
    operator has precedence over another.  If a division or modulo by zero
    occurs in this evaluation, the behaviour is undefined. *)
Theorem expr_right_fold (lineno : Z) (mainlbl : option nat) (allow_undef : bool)
        (pc : Z) (buf : list Z) (d p : nat) (s : state)
        (vs os : list Z) (q : nat) (s' : state) (pe : option nat) (s'' : state) :
  let el := element lineno mainlbl allow_undef pc buf
                    (expr lineno mainlbl allow_undef pc buf d) in
  length vs = S (length os) -> (length vs <= 8)%nat ->
  Forall (fun o => isbinop o = true) os ->
  reads el buf p s (interleave vs os) q s' ->
  el (skip_blanks buf q) s' = Ok (Break pe) s'' ->
  expr lineno mainlbl allow_undef pc buf (S d) p s
  = match eval_right vs os with
    | Some v => Ok (pe, v) s''
    | None => Undef
    end.
Proof.
  intros el Hl Hc Ho R B.
  rewrite (expr_alternating lineno mainlbl allow_undef pc buf d vs os p s q s' pe s'');
    auto.
  - rewrite reduce_rev by exact Hl. destruct (eval_right vs os); reflexivity.
  - eapply Forall_impl; [| exact Ho]. intros o. apply isbinop_nonzero.
Qed.

Lemma expr_right_fold_witness :
  expr 1 None false 0 (bytes_of_string "2*3+4*5") 1 0 initial_state
  = Ok (Some 7%nat, 46) initial_state.
Proof.
  refine (expr_right_fold 1 None false 0 (bytes_of_string "2*3+4*5") 0 0 initial_state
            [2; 3; 4; 5] [ch "*"; ch "+"; ch "*"] 7 initial_state (Some 7%nat)
            initial_state _ _ _ _ _).
  - reflexivity.
  - simpl. lia.
  - repeat constructor.
  - apply (reads_cons _ _ 0 initial_state 2 0 1 initial_state); [reflexivity |].
    apply (reads_cons _ _ 1 initial_state 0 (ch "*") 2 initial_state); [reflexivity |].
    apply (reads_cons _ _ 2 initial_state 3 0 3 initial_state); [reflexivity |].
    apply (reads_cons _ _ 3 initial_state 0 (ch "+") 4 initial_state); [reflexivity |].
    apply (reads_cons _ _ 4 initial_state 4 0 5 initial_state); [reflexivity |].
    apply (reads_cons _ _ 5 initial_state 0 (ch "*") 6 initial_state); [reflexivity |].
    apply (reads_cons _ _ 6 initial_state 5 0 7 initial_state); [reflexivity |].
    apply reads_nil.
  - reflexivity.
Defined.

(** ** Whole runs *)

Create HintDb ends.

Section Ends.
Variables R Q : state -> state -> Prop.
Hypothesis R_refl : forall s, R s s.
Hypothesis R_trans : forall s1 s2 s3, R s1 s2 -> R s2 s3 -> R s1 s3.
Hypothesis RQ_trans : forall s1 s2 s3, R s1 s2 -> Q s2 s3 -> Q s1 s3.

Lemma ends_ret {A : Type} (a : A) : ends R Q (ret a).
Proof. intros s. apply R_refl. Qed.

Lemma ends_bind {A B : Type} (m : M A) (f : A -> M B) :
  ends R Q m -> (forall a, ends R Q (f a)) -> ends R Q (bind m f).
Proof.
  intros Hm Hf s. unfold bind. specialize (Hm s).
  destruct (m s) as [a s1 | s1 | |]; auto.
  specialize (Hf a s1). destruct (f a s1); eauto.
Qed.

Lemma ends_when b (m : M unit) : (b = true -> ends R Q m) -> ends R Q (when b m).
Proof. destruct b; [auto | intros _; apply ends_ret]. Qed.

Lemma ends_get {A : Type} (f : state -> A) : ends R Q (get f).
Proof. intros s. apply R_refl. Qed.

Lemma ends_modify (f : state -> state) : (forall s, R s (f s)) -> ends R Q (modify f).
Proof. intros H s. apply H. Qed.

Lemma ends_undefined {A : Type} : ends R Q (@undefined A).
Proof. intros s. exact I. Qed.

Lemma ends_nofuel {A : Type} : ends R Q (fun _ : state => @NoFuel A).
Proof. intros s. exact I. Qed.

End Ends.

#[local] Hint Resolve ends_ret ends_get ends_undefined ends_nofuel : ends.

Ltac ends_step :=
  match goal with
  | |- ends _ _ (bind _ _) => apply ends_bind; [assumption | assumption | | intros ?]
  | |- ends _ _ (if ?c then _ else _) => destruct c eqn:?
  | |- ends _ _ (match ?x with _ => _ end) => destruct x
  | |- ends _ _ (modify _) => apply ends_modify; intros ?; solve [auto]
  | |- ends _ _ (set_mark _) => apply ends_modify; intros ?; solve [auto]
  | |- ends _ _ (when _ _) => apply ends_when; [assumption | intros ?]
  | |- ends _ _ _ => solve [auto with ends]
  end.

Section EndsAssembler.
Variables R Q : state -> state -> Prop.
Hypothesis R_refl : forall s, R s s.
Hypothesis R_trans : forall s1 s2 s3, R s1 s2 -> R s2 s3 -> R s1 s3.
Hypothesis RQ_trans : forall s1 s2 s3, R s1 s2 -> Q s2 s3 -> Q s1 s3.
Hypothesis on_error : forall lineno msg, ends R Q (error lineno msg).
Hypothesis on_flags : forall l f s, R s (or_flags l f s).

Lemma ends_element lineno mainlbl allow_undef pc buf rec p :
  (forall q, ends R Q (rec q)) ->
  ends R Q (element lineno mainlbl allow_undef pc buf rec p).
Proof.
  intros Hrec. unfold element. repeat ends_step.
Qed.

Lemma ends_expr_loop lineno mainlbl allow_undef pc buf rec n :
  (forall q, ends R Q (rec q)) ->
  forall sval sop p,
    ends R Q (expr_loop lineno mainlbl allow_undef pc buf rec n sval sop p).
Proof.
  intros Hrec. induction n as [| n IH]; intros sval sop p; cbn [expr_loop].
  - apply ends_nofuel.
  - apply ends_bind; [assumption | assumption | now apply ends_element |].
    intros [v op q | q]; repeat ends_step; apply IH.
Qed.

Lemma ends_expr_done lineno r : ends R Q (expr_done lineno r).
Proof.
  destruct r as [[sval sop] p]. unfold expr_done. repeat ends_step.
Qed.

Lemma ends_expr lineno mainlbl allow_undef pc buf d :
  forall p, ends R Q (expr lineno mainlbl allow_undef pc buf d p).
Proof.
  induction d as [| d IH]; intros p; cbn [expr].
  - apply ends_nofuel.
  - apply ends_bind; [assumption | assumption | now apply ends_expr_loop |].
    intros r. apply ends_expr_done.
Qed.

Hypothesis on_value : forall l v s, R s (set_value l v s).
Hypothesis on_add : forall master id at_, ends R Q (add_label master id at_).
Hypothesis on_more : forall b s, R s (set_more s b).
Hypothesis on_readline : forall chunk, ends R Q (readline chunk).

Variable out : bool.
Hypothesis on_emit : out = true -> forall a b s, R s (emit a b s).

Lemma ends_line_label pass lineno buf pc mainlbl :
  ends R Q (line_label pass out lineno buf pc mainlbl).
Proof.
  unfold line_label. repeat ends_step.
Qed.

Lemma ends_words lineno buf pc mainlbl n :
  forall p code, ends R Q (words out lineno buf pc mainlbl n p code).
Proof.
  induction n as [| n IH]; intros p code; cbn [words].
  - apply ends_nofuel.
  - apply ends_bind; [assumption | assumption | apply ends_expr; assumption |].
    intros vp. repeat ends_step.
Qed.

Lemma ends_bytes lineno buf pc mainlbl n :
  forall p code, ends R Q (bytes_ out lineno buf pc mainlbl n p code).
Proof.
  induction n as [| n IH]; intros p code; cbn [bytes_].
  - apply ends_nofuel.
  - repeat ends_step; apply ends_expr; assumption.
Qed.

Lemma ends_directive lineno buf pc mainlbl lbl p :
  ends R Q (directive out lineno buf pc mainlbl lbl p).
Proof.
  unfold directive.
  repeat ends_step;
    first [apply ends_expr; assumption | apply ends_words | apply ends_bytes].
Qed.

Lemma ends_encode lineno pc n :
  forall k w va code, ends R Q (encode lineno out pc n k w va code).
Proof.
  induction n as [| n IH]; intros k w va code; cbn [encode].
  - apply ends_nofuel.
  - repeat ends_step.
Qed.

Lemma ends_arguments lineno buf pc mainlbl n :
  forall p sep na va, ends R Q (arguments out lineno buf pc mainlbl n p sep na va).
Proof.
  induction n as [| n IH]; intros p sep na va; cbn [arguments].
  - apply ends_nofuel.
  - repeat ends_step; apply ends_expr; assumption.
Qed.

Lemma ends_instruction lineno buf pc mainlbl p :
  ends R Q (instruction out lineno buf pc mainlbl p).
Proof.
  unfold instruction.
  repeat ends_step; first [apply ends_arguments | apply ends_encode].
Qed.

Lemma ends_line_body pass lineno chunk mainlbl pc :
  ends R Q (line_body pass out lineno chunk mainlbl pc).
Proof.
  unfold line_body.
  repeat ends_step;
    first [apply ends_line_label | apply ends_directive | apply ends_instruction].
Qed.

Lemma ends_emit_bytes pc code : out = true -> forall i s, R s (emit_bytes pc i code s).
Proof.
  intros O. induction code as [| b t IH]; intros i s; cbn [emit_bytes]; [apply R_refl |].
  eapply R_trans; [apply on_emit; exact O | apply IH].
Qed.

Lemma ends_line_tail lineno pc lv : ends R Q (line_tail out lineno pc lv).
Proof.
  unfold line_tail.
  apply ends_bind; [assumption | assumption | auto with ends | intros buf].
  apply ends_bind; [assumption | assumption | | intros ?].
  - apply ends_when; [assumption |]. intros C.
    apply ends_modify. intros s. apply ends_emit_bytes.
    destruct out; [reflexivity | discriminate].
  - repeat ends_step.
Qed.

Lemma ends_assemble_line pass lineno chunk mainlbl pc :
  ends R Q (assemble_line pass out lineno chunk mainlbl pc).
Proof.
  unfold assemble_line.
  repeat ends_step; first [apply ends_line_body | apply ends_line_tail].
Qed.

Lemma ends_assemble_lines pass chunks :
  forall lineno mainlbl pc, ends R Q (assemble_lines pass out chunks lineno mainlbl pc).
Proof.
  induction chunks as [| c t IH]; intros lineno mainlbl pc; cbn [assemble_lines].
  - apply ends_ret; assumption.
  - apply ends_bind; [assumption | assumption | apply ends_assemble_line |].
    intros r. apply IH.
Qed.

Lemma ends_assemble_files files pass :
  forall pc, ends R Q (assemble_files files pass out pc).
Proof.
  induction files as [| f t IH]; intros pc; cbn [assemble_files].
  - apply ends_ret; assumption.
  - apply ends_bind; [assumption | assumption | apply ends_assemble_lines |].
    intros r. apply IH.
Qed.

End EndsAssembler.

Section EndsMain.
Variables R Q : state -> state -> Prop.
Hypothesis R_refl : forall s, R s s.
Hypothesis R_trans : forall s1 s2 s3, R s1 s2 -> R s2 s3 -> R s1 s3.
Hypothesis RQ_trans : forall s1 s2 s3, R s1 s2 -> Q s2 s3 -> Q s1 s3.
Hypothesis on_error : forall lineno msg, ends R Q (error lineno msg).
Hypothesis on_flags : forall l f s, R s (or_flags l f s).
Hypothesis on_value : forall l v s, R s (set_value l v s).
Hypothesis on_add : forall master id at_, ends R Q (add_label master id at_).
Hypothesis on_more : forall b s, R s (set_more s b).
Hypothesis on_readline : forall chunk, ends R Q (readline chunk).
Hypothesis on_emit : forall a b s, R s (emit a b s).
Hypothesis on_file : forall s, R s (output_to s).
Hypothesis on_done : forall s, R s (emit_done s).

Lemma ends_one_pass files pass last : ends R Q (one_pass files pass last).
Proof.
  unfold one_pass. repeat ends_step. apply ends_assemble_files; auto.
Qed.

Lemma ends_passes n files :
  forall pass last, ends R Q (passes n files pass last).
Proof.
  induction n as [| n IH]; intros pass last; cbn [passes].
  - apply ends_nofuel.
  - repeat ends_step. apply ends_one_pass.
Qed.

Hypothesis on_summary : forall s, R s (summary s).

Lemma ends_main n f files : ends R Q (main n (f :: files)).
Proof.
  unfold main. ends_step; [apply ends_passes |].
  ends_step; [auto with ends |].
  destruct (negb (_ =? 0)); [| auto with ends].
  ends_step; [| auto with ends].
  apply ends_modify. exact on_summary.
Qed.

End EndsMain.

(** *** The exit status and standard error *)






(** *** Passes that are not the final one *)

Lemma same_image_refl s : same_image s s.
Proof. unfold same_image. auto. Qed.

Lemma same_image_trans s1 s2 s3 : same_image s1 s2 -> same_image s2 s3 -> same_image s1 s3.
Proof. unfold same_image. intros (A & B & C & D & E) (A' & B' & C' & D' & E'). repeat split; congruence. Qed.

Ltac same_fields := unfold same_image; cbn; repeat split; reflexivity.

Lemma same_image_error lineno msg : ends same_image same_image (error lineno msg).
Proof. intros s. unfold error. cbv zeta. destruct (_ >=? _); same_fields. Qed.

Lemma same_image_add master id at_ : ends same_image same_image (add_label master id at_).
Proof.
  intros s. unfold add_label.
  destruct (_ >=? _); [same_fields |].
  destruct (_ >? _); [exact I |].
  destruct master; same_fields.
Qed.

Lemma same_image_readline chunk : ends same_image same_image (readline chunk).
Proof. intros s. unfold readline. destruct (_ >=? _); same_fields. Qed.

(** X11. A pass that is not the final one writes nothing.  [assemble], run
    over any files with [out] false, leaves the output file and the emitter
    (the buffered bytes, their count and the two addresses) exactly as they
    were, whether it returns or the process exits on the way. *)
Theorem sizing_pass_writes_nothing (files : list (list Z)) (pass pc : Z) (s : state) :
  match assemble_files files pass false pc s with
  | Ok _ s' | Exit s' => same_image s s'
  | _ => True
  end.
Proof.
  pose proof (ends_assemble_files same_image same_image same_image_refl same_image_trans
                same_image_trans same_image_error
                (fun l f s => ltac:(same_fields)) (fun l v s => ltac:(same_fields))
                same_image_add (fun b s => ltac:(same_fields)) same_image_readline
                false ltac:(discriminate) files pass pc s) as H.
  destruct (assemble_files files pass false pc s); auto.
Qed.

(** *** What an expression changes *)

Lemma same_but_marks_refl s : same_but_marks s s.
Proof. unfold same_but_marks. repeat split; apply same_image_refl. Qed.

Lemma same_but_marks_trans s1 s2 s3 :
  same_but_marks s1 s2 -> same_but_marks s2 s3 -> same_but_marks s1 s3.
Proof.
  unfold same_but_marks.
  intros (A & B & C & D & E & F & G) (A' & B' & C' & D' & E' & F' & G').
  repeat split; try congruence; try (eapply same_image_trans; eassumption);
    destruct (G i) as (G1 & G2 & G3 & G4 & G5);
    destruct (G' i) as (H1 & H2 & H3 & H4 & H5); congruence.
Qed.

(** An entry rewritten in place: what the other entries and this one hold. *)
Lemma get_set_cases i l s j :
  get_label (set_label i l s) j
  = if (i =? j)%nat && (i <? length (tlabel s))%nat then l else get_label s j.
Proof.
  destruct (Nat.eqb_spec i j) as [-> | N]; cbn [andb].
  - destruct (Nat.ltb_spec j (length (tlabel s))) as [L | L].
    + now apply get_set_label.
    + unfold get_label, set_label. cbn.
      rewrite !nth_overflow; auto. now rewrite length_upd.
  - now apply get_set_other.
Qed.

Lemma same_but_marks_flags l f s : same_but_marks s (or_flags l f s).
Proof.
  unfold same_but_marks, or_flags. repeat split; try apply tlabel_set_label;
    rewrite get_set_cases; destruct (_ && _) eqn:C; try reflexivity;
    apply andb_true_iff in C; destruct C as [C _]; apply Nat.eqb_eq in C; now subst.
Qed.

(** X12. What an expression changes.  Whatever [expr] reads and whether it
    succeeds, fails or exits at the error limit, the state afterwards
    differs from the state before at most in the flags of labels and in what
    was reported: the value, the name and the range of local labels of every
    entry, the sizes of the table, the output file and the emitter, the line
    buffer and the "more work" flag are untouched. *)
Theorem expr_only_marks (lineno : Z) (mainlbl : option nat) (allow_undef : bool)
        (pc : Z) (buf : list Z) (d p : nat) (s : state) :
  match expr lineno mainlbl allow_undef pc buf d p s with
  | Ok _ s' | Exit s' => same_but_marks s s'
  | _ => True
  end.
Proof.
  assert (E : forall ln msg, ends same_but_marks same_but_marks (error ln msg)).
  { intros ln msg s0. unfold error. cbv zeta.
    destruct (_ >=? _); unfold same_but_marks, same_image; cbn; repeat split; reflexivity. }
  pose proof (ends_expr same_but_marks same_but_marks same_but_marks_refl
                same_but_marks_trans same_but_marks_trans E same_but_marks_flags
                lineno mainlbl allow_undef pc buf d p s) as H.
  destruct (expr lineno mainlbl allow_undef pc buf d p s); auto.
Qed.

(** *** The labels of a run *)

Lemma label_kept_refl l : label_kept l l.
Proof. unfold label_kept. auto. Qed.

Lemma labels_kept_refl s : labels_kept s s.
Proof.
  intros H. split; [exact H |]. split; [lia |]. split; [lia |].
  intros i _. apply label_kept_refl.
Qed.

Lemma labels_kept_trans s1 s2 s3 :
  labels_kept s1 s2 -> labels_kept s2 s3 -> labels_kept s1 s3.
Proof.
  intros H1 H2 I1. destruct (H1 I1) as (I2 & N1 & L1 & K1).
  destruct (H2 I2) as (I3 & N2 & L2 & K2).
  split; [exact I3 |]. split; [lia |]. split; [lia |].
  intros i Hi. destruct (K1 i Hi) as (A & B & C & D).
  destruct (K2 i ltac:(lia)) as (A' & B' & C' & D').
  unfold label_kept. repeat split; try congruence; auto.
Qed.

(** A change of the state that leaves the table alone. *)
Lemma labels_kept_same s s' :
  tlabel s' = tlabel s -> nlabel s' = nlabel s -> lstack s' = lstack s -> labels_kept s s'.
Proof.
  intros T N L (A & B & C). unfold table_inv. rewrite T, N, L.
  repeat split; try lia.
  all: unfold get_label; rewrite T; auto.
Qed.

Lemma mark_kept a f m :
  Z.land 255 m = m -> Z.land a m <> 0 -> Z.land (uint8 (Z.lor a f)) m <> 0.
Proof.
  intros Hm Ha.
  assert (U : forall x, uint8 x = Z.land x 255).
  { intros x. unfold uint8. change 255 with (Z.ones 8). now rewrite Z.land_ones by lia. }
  rewrite U, <- Z.land_assoc, Hm, Z.land_lor_distr_l.
  intros H. apply Z.lor_eq_0_iff in H. tauto.
Qed.

(** An entry rewritten with its name and with marks added. *)
Lemma labels_kept_set i l s :
  label_kept (get_label s i) l -> labels_kept s (set_label i l s).
Proof.
  intros K (A & B & C). unfold table_inv.
  rewrite tlabel_set_label. cbn [set_label set_labels nlabel lstack].
  repeat split; try lia; rewrite get_set_cases; destruct (_ && _) eqn:E; auto;
    apply andb_true_iff in E; destruct E as [E _]; apply Nat.eqb_eq in E; subst;
    destruct K as (K1 & K2 & K3 & K4); auto.
Qed.

Lemma labels_kept_flags l f s : labels_kept s (or_flags l f s).
Proof.
  apply labels_kept_set. unfold label_kept. cbn [name len flags].
  repeat split; apply mark_kept; reflexivity.
Qed.

Lemma labels_kept_value l v s : labels_kept s (set_value l v s).
Proof. apply labels_kept_set. unfold label_kept. cbn [name len flags]. auto. Qed.

Lemma labels_kept_add master id at_ : ends labels_kept labels_kept (add_label master id at_).
Proof.
  intros s. unfold add_label.
  destruct (Z.geb_spec (nlabel s) (lstack s)) as [G | G].
  { apply labels_kept_same; reflexivity. }
  destruct (_ >? _); [exact I |].
  destruct master as [m |]; cbv beta iota zeta; intros (A & B & C);
    unfold MAX_LABELS in C.
  - rewrite (uint32_small (lstack s - 1)) by lia.
    unfold table_inv, MAX_LABELS. rewrite !tlabel_set_label.
    cbn [set_label set_labels nlabel lstack tlabel].
    repeat split; try lia.
    all: rewrite get_set_cases;
      destruct (Nat.eqb_spec (Z.to_nat (lstack s - 1)) i) as [E | E]; [lia |];
      cbn [andb]; rewrite get_set_cases; destruct (_ && _) eqn:E2;
      [apply andb_true_iff in E2; destruct E2 as [E2 _]; apply Nat.eqb_eq in E2; subst;
       cbn [name len flags]; auto
      | reflexivity || auto].
  - rewrite (uint32_small (nlabel s + 1)) by lia.
    unfold table_inv, MAX_LABELS. rewrite !tlabel_set_label.
    cbn [set_label set_labels nlabel lstack tlabel].
    repeat split; try lia.
    all: rewrite get_set_cases;
      destruct (Nat.eqb_spec (Z.to_nat (nlabel s)) i) as [E | E]; [lia |];
      cbn [andb]; reflexivity || auto.
Qed.

Lemma find_from_more s id n : forall i j k,
  find_from s id n i = Some j -> find_from s id (n + k) i = Some j.
Proof.
  induction n as [| n IH]; intros i j k; cbn [find_from Nat.add]; [discriminate |].
  destruct (_ && _); [auto | apply IH].
Qed.

(** A global label found before is found after, at the same entry. *)
Lemma labels_kept_find s s' id i :
  table_inv s -> labels_kept s s' ->
  find_label s None id = Some i -> find_label s' None id = Some i.
Proof.
  intros I K. destruct (K I) as (I' & N & _ & E). destruct I as (_ & B & _).
  unfold find_label. rewrite !Z.sub_0_r. cbn [Z.to_nat]. intros F.
  replace (Z.to_nat (nlabel s')) with (Z.to_nat (nlabel s) + (Z.to_nat (nlabel s')
                                                             - Z.to_nat (nlabel s)))%nat by lia.
  apply find_from_more. rewrite <- F. apply find_from_ext.
  intros j Hj. destruct (E j ltac:(lia)) as (E1 & E2 & _). auto.
Qed.

Lemma labels_kept_passes n files pass last :
  ends labels_kept labels_kept (passes n files pass last).
Proof.
  apply ends_passes.
  - apply labels_kept_refl.
  - apply labels_kept_trans.
  - apply labels_kept_trans.
  - intros lineno msg s. unfold error. cbv zeta.
    destruct (_ >=? _); apply labels_kept_same; reflexivity.
  - apply labels_kept_flags.
  - apply labels_kept_value.
  - apply labels_kept_add.
  - intros b s. apply labels_kept_same; reflexivity.
  - intros chunk s. unfold readline.
    destruct (_ >=? _); apply labels_kept_same; reflexivity.
  - intros a b s. apply labels_kept_same; unfold emit, emit_flush;
      destruct (_ || _); try destruct (_ =? _); reflexivity.
  - intros s. apply labels_kept_same; reflexivity.
  - intros s. apply labels_kept_same; unfold emit_done, emit_flush;
      destruct (_ =? _); reflexivity.
Qed.

(** X13. Labels persist.  From a sound table (256 entries, the global labels
    below the local ones), any number of passes, started at any pass, end,
    by return or by exit, in a sound table in which every global label there
    was has its name, and its [USED] and [EQU] marks if it had them; and
    [find_label] finds every global identifier it found before at the same
    entry.  Nothing in a run removes, renames or unmarks a global label, and
    the two ends of the table never cross. *)
Theorem labels_persist (n : nat) (files : list (list Z)) (pass : Z) (last : bool)
        (s : state) :
  table_inv s ->
  match passes n files pass last s with
  | Ok _ s' | Exit s' =>
      table_inv s' /\
      (forall i, Z.of_nat i < nlabel s -> label_kept (get_label s i) (get_label s' i)) /\
      (forall id i, find_label s None id = Some i -> find_label s' None id = Some i)
  | _ => True
  end.
Proof.
  intros I. pose proof (labels_kept_passes n files pass last s) as K.
  destruct (passes n files pass last s) as [a s' | s' | |]; auto;
    (split; [apply (K I) |]; split; [apply (K I) |];
     intros id i; now apply labels_kept_find).
Qed.

Lemma table_inv_initial : table_inv initial_state.
Proof. unfold table_inv. cbn. unfold MAX_LABELS. repeat split; lia. Qed.

(** The table after a first pass over a source that defines the label [A]:
    one global label, found at entry 0. *)
Lemma table_after_first_pass :
  let s1 := after_pass (source ["A: NOP"; " BRA A"]%string) 0 initial_state in
  table_inv s1 /\ nlabel s1 = 1 /\
  find_label s1 None (bytes_of_string "A") = Some 0%nat.
Proof.
  intros s1.
  assert (N : nlabel s1 = 1) by (vm_compute; reflexivity).
  assert (L : lstack s1 = 256) by (vm_compute; reflexivity).
  assert (T : length (tlabel s1) = 256%nat) by (vm_compute; reflexivity).
  split; [| split; [exact N | vm_compute; reflexivity]].
  unfold table_inv, MAX_LABELS. rewrite N, L, T. repeat split; lia.
Qed.

Lemma labels_persist_witness :
  let s1 := after_pass (source ["A: NOP"; " BRA A"]%string) 0 initial_state in
  (table_inv s1 /\ nlabel s1 = 1 /\
   find_label s1 None (bytes_of_string "A") = Some 0%nat) /\
  returned (passes 8 [source ["A: NOP"; " BRA A"]%string] 1 false s1) <> None /\
  match passes 8 [source ["A: NOP"; " BRA A"]%string] 1 false s1 with
  | Ok _ s' | Exit s' =>
      table_inv s' /\
      (forall i, Z.of_nat i < nlabel s1 ->
                 label_kept (get_label s1 i) (get_label s' i)) /\
      (forall id i, find_label s1 None id = Some i ->
                    find_label s' None id = Some i)
  | _ => True
  end.
Proof.
  intros s1. split; [exact table_after_first_pass |].
  split; [vm_compute; discriminate |].
  exact (labels_persist 8 [source ["A: NOP"; " BRA A"]%string] 1 false s1
                        (proj1 table_after_first_pass)).
Defined.

(** ** Encoded values *)

Lemma when_checked lineno out (c : bool) (ok : Prop) msg {A : Type} (x : A) s :
  (c = true <-> ~ ok) ->
  checked ((when (out && c) (error lineno msg) ;;; ret x) s) s out ok lineno msg x.
Proof.
  intros C. split.
  - intros H.
    assert (E : out && c = false).
    { destruct H as [-> | H]; [reflexivity |].
      destruct c; [| apply andb_false_r]. exfalso. now apply (proj1 C). }
    rewrite E. reflexivity.
  - intros -> H. rewrite (proj2 C H). cbn [andb when].
    unfold bind. pose proof (error_raises lineno msg s) as R.
    destruct (error lineno msg s) as [[] s1 | s1 | |]; cbn in R |- *; try contradiction.
    + split; [exact R |]. intros y s' [= <- _]. reflexivity.
    + split; [exact R |]. intros y s' [=].
Qed.

(** X14. The three checks on an immediate.  The kind [A] (a register, a
    register and a 16-bit immediate), the kind [M] (a register and a memory
    operand with its offset) and the kind [G] (a special register) always
    produce their four bytes, the last two being the low 16 bits of the
    value, high byte first.  On the final pass a value outside -32768..32767
    (outside 0..15 for the special register) is reported, with "inmediate out
    of range", "memory offset out of range" and "special register of range"
    respectively; a value inside the range is never reported, nor is any
    value on the other passes. *)
Theorem immediate_ranges (lineno : Z) (out : bool) (pc w : Z) (va : list arg)
        (code : list Z) (s : state) :
  checked (encode lineno out pc 1 (ch "A") w va code s) s out
          (-32768 <= va_val va 2 <= 32767) lineno "inmediate out of range"
          (code ++ map uint8 [Z.lor (Z.shiftr w 8) (va_rno va 0);
                              Z.lor w (Z.shiftl (va_rno va 1) 4);
                              Z.shiftr (va_val va 2) 8; va_val va 2]) /\
  checked (encode lineno out pc 1 (ch "M") w va code s) s out
          (-32768 <= va_val va 1 <= 32767) lineno "memory offset out of range"
          (code ++ map uint8 [Z.lor (Z.shiftr w 8) (va_rno va 0);
                              Z.lor w (Z.shiftl (va_rno va 1) 4);
                              Z.shiftr (va_val va 1) 8; va_val va 1]) /\
  checked (encode lineno out pc 1 (ch "G") w va code s) s out
          (0 <= va_val va 1 <= 15) lineno "special register of range"
          (code ++ map uint8 [Z.shiftr w 8; Z.lor w (Z.shiftl (va_rno va 0) 4);
                              Z.shiftr (va_val va 1) 8; va_val va 1]).
Proof.
  split; [| split].
  - apply (when_checked lineno out (out_of_int16 (va_val va 2))).
    rewrite out_of_int16_spec. lia.
  - apply (when_checked lineno out (out_of_int16 (va_val va 1))).
    rewrite out_of_int16_spec. lia.
  - apply (when_checked lineno out ((va_val va 1 <? 0) || (va_val va 1 >? 15))).
    rewrite orb_true_iff, Z.ltb_lt, Z.gtb_ltb, Z.ltb_lt. lia.
Qed.

Lemma int32_range x : -2147483648 <= int32 x < 2147483648.
Proof.
  unfold int32, uint32. pose proof (Z.mod_pos_bound x 4294967296 ltac:(lia)).
  cbv zeta. destruct (Z.ltb_spec (x mod 4294967296) 2147483648); lia.
Qed.

Lemma int32_small x : -2147483648 <= x < 2147483648 -> int32 x = x.
Proof.
  intros H. unfold int32, uint32. cbv zeta.
  destruct (Z.le_gt_cases 0 x).
  - rewrite Z.mod_small by lia. destruct (Z.ltb_spec x 2147483648); lia.
  - replace (x mod 4294967296) with (x + 4294967296).
    + destruct (Z.ltb_spec (x + 4294967296) 2147483648); lia.
    + symmetry. rewrite <- (Z.mod_add x 1) by lia. apply Z.mod_small. lia.
Qed.

Lemma uint32_int32 x : uint32 (int32 x) = uint32 x.
Proof.
  unfold int32, uint32. cbv zeta.
  destruct (_ <? _); [apply Z.mod_mod; lia |].
  rewrite <- (Z.mod_add (x mod 4294967296 - 4294967296) 1) by lia.
  replace (x mod 4294967296 - 4294967296 + 1 * 4294967296) with (x mod 4294967296) by lia.
  apply Z.mod_mod. lia.
Qed.

Lemma int32_congr x y : uint32 x = uint32 y -> int32 x = int32 y.
Proof. intros H. unfold int32. now rewrite H. Qed.

(** The subtraction the jump kinds make, without the intermediate
    conversions. *)
Lemma distance_int32 t pc n : int32 (t - int32 (int32 pc + n)) = int32 (t - pc - n).
Proof.
  apply int32_congr. unfold uint32.
  rewrite Zminus_mod, (Zminus_mod (t - pc) n), (Zminus_mod t pc).
  fold (uint32 (int32 (int32 pc + n))). rewrite uint32_int32. unfold uint32.
  rewrite (Zplus_mod (int32 pc) n). fold (uint32 (int32 pc)). rewrite uint32_int32.
  unfold uint32.
  rewrite <- (Zplus_mod pc n).
  rewrite <- (Zminus_mod t pc).
  rewrite <- Zminus_mod, <- Zminus_mod. f_equal. lia.
Qed.

Lemma be32_bytes x :
  -2147483648 <= x < 2147483648 ->
  be32 (uint8 (Z.shiftr x 24)) (uint8 (Z.shiftr x 16)) (uint8 (Z.shiftr x 8)) (uint8 x) = x.
Proof.
  intros H. unfold be32.
  assert (S : 16777216 * uint8 (Z.shiftr x 24) + 65536 * uint8 (Z.shiftr x 16)
              + 256 * uint8 (Z.shiftr x 8) + uint8 x = x mod 4294967296).
  { unfold uint8. rewrite !Z.shiftr_div_pow2 by lia.
    change (2 ^ 24) with 16777216. change (2 ^ 16) with 65536. change (2 ^ 8) with 256.
    pose proof (Z.div_mod x 256 ltac:(lia)).
    pose proof (Z.div_mod (x / 256) 256 ltac:(lia)).
    pose proof (Z.div_mod (x / 65536) 256 ltac:(lia)).
    pose proof (Z.div_mod (x / 16777216) 256 ltac:(lia)).
    assert (x / 65536 = x / 256 / 256) by (rewrite Z.div_div by lia; reflexivity).
    assert (x / 16777216 = x / 65536 / 256) by (rewrite Z.div_div by lia; reflexivity).
    assert (x / 16777216 / 256 = x / 4294967296) by (rewrite Z.div_div by lia; reflexivity).
    pose proof (Z.div_mod x 4294967296 ltac:(lia)).
    lia. }
  rewrite S. rewrite (int32_congr (x mod 4294967296) x).
  - now apply int32_small.
  - unfold uint32. apply Z.mod_mod. lia.
Qed.

Lemma quot2_range d : -2147483648 <= d < 2147483648 -> -2147483648 <= Z.quot d 2 < 2147483648.
Proof.
  intros H. destruct (Z.le_gt_cases 0 d).
  - rewrite Z.quot_div_nonneg by lia. pose proof (Z.div_mod d 2 ltac:(lia)).
    pose proof (Z.mod_pos_bound d 2 ltac:(lia)). lia.
  - replace d with (- (- d)) by lia. rewrite Z.quot_opp_l by lia.
    rewrite Z.quot_div_nonneg by lia. pose proof (Z.div_mod (- d) 2 ltac:(lia)).
    pose proof (Z.mod_pos_bound (- d) 2 ltac:(lia)). lia.
Qed.

Lemma quot2_even d : Z.even d = true -> 2 * Z.quot d 2 = d.
Proof.
  intros E. apply Z.even_spec in E. destruct E as [k ->].
  rewrite (Z.mul_comm 2 k), Z.quot_mul by lia. lia.
Qed.

Lemma uint32_add_int32 a y : uint32 (a + int32 y) = uint32 (a + y).
Proof.
  unfold uint32. rewrite Zplus_mod. fold (uint32 (int32 y)). rewrite uint32_int32.
  unfold uint32. now rewrite <- Zplus_mod.
Qed.

(** X15. The 32-bit offsets of [JMP]/[JAL] and of [LEA].  The kind [J]
    stores in its last four bytes, high byte first, half of the distance from
    the address after the 6-byte instruction to the target (the quotient
    rounded toward zero), the distance being taken in 32-bit two's
    complement; when the distance is even, the address after the instruction
    plus twice the stored number is the target again, modulo 2^32.  The kind
    [L] stores the distance itself, and the address after the instruction
    plus the stored number is the target.  Neither kind reports anything,
    whatever the distance and on every pass. *)
Theorem jump_offsets (lineno : Z) (out : bool) (pc w : Z) (va : list arg)
        (code : list Z) (s : state) :
  let dj := int32 (va_val va 0 - pc - 6) in
  let dl := int32 (va_val va 1 - pc - 6) in
  (exists b3 b2 b1 b0,
      encode lineno out pc 1 (ch "J") w va code s
      = Ok (code ++ [uint8 (Z.shiftr w 8); uint8 w; b3; b2; b1; b0]) s /\
      be32 b3 b2 b1 b0 = Z.quot dj 2 /\
      (Z.even dj = true ->
       uint32 (pc + 6 + 2 * be32 b3 b2 b1 b0) = uint32 (va_val va 0))) /\
  (exists b3 b2 b1 b0,
      encode lineno out pc 1 (ch "L") w va code s
      = Ok (code ++ [uint8 (Z.shiftr w 8); uint8 (Z.lor w (Z.shiftl (va_rno va 0) 4));
                     b3; b2; b1; b0]) s /\
      be32 b3 b2 b1 b0 = dl /\
      uint32 (pc + 6 + be32 b3 b2 b1 b0) = uint32 (va_val va 1)).
Proof.
  intros dj dl. split.
  - change (encode lineno out pc 1 (ch "J") w va code s)
      with (let off := Z.quot (int32 (va_val va 0 - int32 (int32 pc + 6))) 2 in
            Ok (put code [Z.shiftr w 8; w; Z.shiftr off 24; Z.shiftr off 16;
                          Z.shiftr off 8; off]) s).
    rewrite distance_int32. fold dj. cbv zeta.
    do 4 eexists. split; [reflexivity |].
    pose proof (int32_range (va_val va 0 - pc - 6)) as D. fold dj in D.
    rewrite be32_bytes by (now apply quot2_range).
    split; [reflexivity |]. intros E. rewrite quot2_even by exact E.
    unfold dj. rewrite uint32_add_int32. f_equal. lia.
  - change (encode lineno out pc 1 (ch "L") w va code s)
      with (let off := int32 (va_val va 1 - int32 (int32 pc + 6)) in
            Ok (put code [Z.shiftr w 8; Z.lor w (Z.shiftl (va_rno va 0) 4);
                          Z.shiftr off 24; Z.shiftr off 16; Z.shiftr off 8; off]) s).
    rewrite distance_int32. fold dl. cbv zeta.
    do 4 eexists. split; [reflexivity |].
    pose proof (int32_range (va_val va 1 - pc - 6)) as D. fold dl in D.
    rewrite be32_bytes by exact D.
    split; [reflexivity |].
    unfold dl. rewrite uint32_add_int32. f_equal. lia.
Qed.


(** ** Lines that produce no byte *)


Lemma blank_not_label c :
  0 <= c -> isblank c = true -> isalpha c || (c =? ch ".") = false.
Proof.
  unfold isblank. intros P H. apply andb_true_iff in H. destruct H as [_ H2].
  apply Z.leb_le in H2.
  assert (C : forallb (fun n => let c := Z.of_nat n in
                                negb (isalpha c || (c =? ch "."))) (seq 0 33) = true)
    by reflexivity.
  rewrite forallb_forall in C.
  specialize (C (Z.to_nat c) ltac:(apply in_seq; lia)). cbv zeta in C.
  rewrite Z2Nat.id in C by lia. now apply negb_true_iff in C.
Qed.

(** Where the blanks at the start of a buffer end: at the start, or after a
    first character that is a blank. *)
Lemma skip_blanks_start buf :
  skip_blanks buf 0 = 0%nat \/ isblank (peek buf 0) = true.
Proof.
  unfold skip_blanks, peek. destruct buf as [| c t]; [now left |].
  cbn [skipn span nth]. destruct (isblank c); [now right | now left].
Qed.

(** X16. Blank lines and comments.  A line shorter than the buffer whose
    first character that is not a blank is the end of the line, a semicolon
    or a hash sign changes nothing but the line buffer: no label, no byte,
    no diagnostic, and the main label and the counter are handed on as they
    were, on every pass. *)
Theorem blank_or_comment_line (pass : Z) (out : bool) (lineno : Z) (chunk : list Z)
        (mainlbl : option nat) (pc : Z) (s : state) :
  let buf := chunk ++ 0 :: skipn (S (length chunk)) (buffer s) in
  let c := peek buf (skip_blanks buf 0) in
  Z.of_nat (length chunk) < MAX_LINE ->
  0 <= peek buf 0 -> 0 <= pc < 4294967296 ->
  c = 0 \/ c = ch ";" \/ c = ch "#" ->
  assemble_line pass out lineno chunk mainlbl pc s = Ok (mainlbl, pc) (set_buffer s buf).
Proof.
  intros buf c L P Hpc C.
  assert (N : isalpha (peek buf 0) || (peek buf 0 =? ch ".") = false).
  { destruct (skip_blanks_start buf) as [Z0 | B].
    - unfold c in C. rewrite Z0 in C. destruct C as [-> | [-> | ->]]; reflexivity.
    - now apply blank_not_label. }
  assert (N' : (c =? ch ".") = false /\ isalpha c = false).
  { destruct C as [-> | [-> | ->]]; split; reflexivity. }
  destruct N' as [N1 N2].
  unfold assemble_line, line_body.
  unfold bind at 1. unfold bind at 1. unfold readline.
  destruct (Z.geb_spec (Z.of_nat (length chunk)) MAX_LINE) as [G | _]; [lia |].
  fold buf. unfold bind at 1. unfold get at 1. cbn [buffer set_buffer].
  unfold line_label. rewrite N. unfold bind at 1. unfold ret at 1.
  fold c. rewrite N1, N2. unfold bind at 1. unfold ret at 1 2.
  cbn [snd fst]. unfold line_tail. unfold bind at 1. unfold bind at 1.
  unfold get at 1. cbn [buffer set_buffer l_org l_bytes l_space l_p].
  rewrite Z.eqb_refl. rewrite andb_false_r. cbn [andb negb when].
  unfold bind at 1. unfold ret at 1.
  fold c.
  assert (T : (c =? 0) || (c =? ch ";") || (c =? ch "#") = true)
    by (destruct C as [-> | [-> | ->]]; reflexivity).
  rewrite T. unfold ret. rewrite Z.add_0_r, uint32_small by exact Hpc. reflexivity.
Qed.

Lemma blank_or_comment_line_witness :
  let chunk := bytes_of_string "   ; a comment" ++ [ch "010"] in
  let buf := chunk ++ 0 :: skipn (S (length chunk)) (buffer initial_state) in
  let c := peek buf (skip_blanks buf 0) in
  Z.of_nat (length chunk) < MAX_LINE /\ 0 <= peek buf 0 /\ 0 <= 16 < 4294967296 /\
  (c = 0 \/ c = ch ";" \/ c = ch "#") /\
  assemble_line 2 true 7 chunk (Some 3%nat) 16 initial_state
  = Ok (Some 3%nat, 16) (set_buffer initial_state buf).
Proof.
  intros chunk buf c.
  assert (L : Z.of_nat (length chunk) < MAX_LINE) by reflexivity.
  assert (P : 0 <= peek buf 0) by (cbn; discriminate).
  assert (R : 0 <= 16 < 4294967296) by lia.
  assert (C : c = 0 \/ c = ch ";" \/ c = ch "#") by (right; left; reflexivity).
  repeat (split; [assumption |]).
  exact (blank_or_comment_line 2 true 7 chunk (Some 3%nat) 16 initial_state L P R C).
Defined.

Lemma uint32_add_sub pc v : uint32 (pc + uint32 (v - pc)) = uint32 v.
Proof.
  unfold uint32. rewrite Zplus_mod_idemp_r. f_equal. lia.
Qed.

(** X17. [.ORG] and [.SPACE] move the counter and emit nothing.  When the
    expression after the directive evaluates to [v], the round goes on with
    the state the expression left, and at its end the output file and the
    emitter are as they were, also on the final pass; the counter is then [v]
    after [.ORG] and the old counter plus [v] after [.SPACE], modulo 2^32.
    The gap is not filled. *)
Theorem location_directives (out : bool) (lineno : Z) (buf : list Z) (pc : Z)
        (mainlbl lbl : option nat) (p : nat) (s : state) (q : nat) (v : Z) (s1 : state) :
  let id := map toupper (span isalpha (skipn (S p) buf)) in
  let p1 := skip_blanks buf (S p + length id) in
  expr lineno mainlbl false pc buf (expr_depth buf) p1 s = Ok (Some q, v) s1 ->
  id = bytes_of_string "ORG" \/ id = bytes_of_string "SPACE" ->
  exists lv,
    directive out lineno buf pc mainlbl lbl p s = Ok (Some lv) s1 /\
    match line_tail out lineno pc lv s1 with
    | Ok pc' s2 =>
        same_image s1 s2 /\
        pc' = if strcmp id (bytes_of_string "ORG") =? 0 then uint32 v else uint32 (pc + v)
    | Exit s2 => same_image s1 s2
    | _ => False
    end.
Proof.
  intros id p1 E I. unfold directive. fold id. fold p1.
  assert (T : forall lv,
             (l_org lv = true \/ l_bytes lv = 0 \/ l_space lv <> 0) ->
             match line_tail out lineno pc lv s1 with
             | Ok pc' s2 => same_image s1 s2 /\ pc' = uint32 (pc + l_bytes lv)
             | Exit s2 => same_image s1 s2
             | _ => False
             end).
  { intros lv H. unfold line_tail. unfold bind at 1. unfold get at 1.
    assert (W : out && negb (l_org lv) && negb (l_bytes lv =? 0) && (l_space lv =? 0) = false).
    { destruct H as [-> | [-> | H]].
      - destruct out, (l_bytes lv =? 0), (l_space lv =? 0); reflexivity.
      - destruct out, (l_org lv), (l_space lv =? 0); reflexivity.
      - apply Z.eqb_neq in H. rewrite H. apply andb_false_r. }
    rewrite W. cbn [when]. unfold bind at 1. unfold ret at 1.
    destruct (_ || _).
    - cbn. split; [unfold same_image; auto | reflexivity].
    - unfold bind. unfold error. cbv zeta. destruct (_ >=? _); cbn.
      + unfold same_image; auto.
      + split; [unfold same_image; repeat split; reflexivity | reflexivity]. }
  destruct I as [I | I]; rewrite I.
  - change (strcmp (bytes_of_string "ORG") (bytes_of_string "ORG") =? 0) with true.
    cbv iota. unfold bind at 1. rewrite E. cbn [fst snd]. unfold ret at 1.
    eexists. split; [reflexivity |].
    specialize (T (mkLvars q (uint32 (v - pc)) [] 0 true false) (or_introl eq_refl)).
    cbn [l_bytes] in T. rewrite uint32_add_sub in T. exact T.
  - change (strcmp (bytes_of_string "SPACE") (bytes_of_string "ORG") =? 0) with false.
    change (strcmp (bytes_of_string "SPACE") (bytes_of_string "EQU") =? 0) with false.
    change (strcmp (bytes_of_string "SPACE") (bytes_of_string "ZERO") =? 0) with false.
    change (strcmp (bytes_of_string "SPACE") (bytes_of_string "SPACE") =? 0) with true.
    cbv iota. unfold bind at 1. rewrite E. cbn [fst snd]. unfold ret at 1.
    eexists. split; [reflexivity |].
    destruct (Z.eq_dec v 0) as [-> | NZ].
    + apply (T (mkLvars q 0 [] 0 false false)). right. left. reflexivity.
    + apply (T (mkLvars q v [] v false false)). right. right. exact NZ.
Qed.

Lemma location_directives_witness :
  let buf := bytes_of_string " .ORG $100" in
  let id := map toupper (span isalpha (skipn 2 buf)) in
  let p1 := skip_blanks buf (2 + length id) in
  expr 1 None false 0 buf (expr_depth buf) p1 initial_state
  = Ok (Some 10%nat, 256) initial_state /\
  (id = bytes_of_string "ORG" \/ id = bytes_of_string "SPACE") /\
  exists lv,
    directive true 1 buf 0 None None 1 initial_state = Ok (Some lv) initial_state /\
    match line_tail true 1 0 lv initial_state with
    | Ok pc' s2 =>
        same_image initial_state s2 /\
        pc' = if strcmp id (bytes_of_string "ORG") =? 0 then uint32 256 else uint32 (0 + 256)
    | Exit s2 => same_image initial_state s2
    | _ => False
    end.
Proof.
  intros buf id p1.
  assert (E : expr 1 None false 0 buf (expr_depth buf) p1 initial_state
              = Ok (Some 10%nat, 256) initial_state) by reflexivity.
  assert (I : id = bytes_of_string "ORG" \/ id = bytes_of_string "SPACE")
    by (left; reflexivity).
  split; [exact E |]. split; [exact I |].
  exact (location_directives true 1 buf 0 None None 1 initial_state 10 256 initial_state
                             E I).
Defined.

(** ** Character classes *)

(** X18. The character classes.  For every byte, the tests written with
    unsigned subtraction and bit operations are the ASCII classes: [isdigit]
    holds exactly for 0..9, [islower] for a..z, [isalpha] for A..Z and a..z,
    [isalnum] for the letters and the digits; [toupper] maps a lower-case
    letter to the letter 32 below it and every other byte to itself, and
    applying it twice is applying it once. *)
Theorem ctype_classes (c : Z) :
  0 <= c < 256 ->
  (isdigit c = true <-> ch "0" <= c <= ch "9") /\
  (islower c = true <-> ch "a" <= c <= ch "z") /\
  (isalpha c = true <-> ch "A" <= c <= ch "Z" \/ ch "a" <= c <= ch "z") /\
  (isalnum c = true <-> isalpha c = true \/ isdigit c = true) /\
  toupper c = (if islower c then c - 32 else c) /\
  toupper (toupper c) = toupper c.
Proof.
  intros H.
  assert (C : forallb (fun n =>
                let c := Z.of_nat n in
                Bool.eqb (isdigit c) ((ch "0" <=? c) && (c <=? ch "9"))
                && Bool.eqb (islower c) ((ch "a" <=? c) && (c <=? ch "z"))
                && Bool.eqb (isalpha c) (((ch "A" <=? c) && (c <=? ch "Z"))
                                         || ((ch "a" <=? c) && (c <=? ch "z")))
                && (toupper c =? (if islower c then c - 32 else c))
                && (toupper (toupper c) =? toupper c)) (seq 0 256) = true)
    by (vm_compute; reflexivity).
  rewrite forallb_forall in C.
  specialize (C (Z.to_nat c) ltac:(apply in_seq; lia)). cbv zeta in C.
  rewrite Z2Nat.id in C by lia.
  apply andb_true_iff in C. destruct C as [C Hi]. apply Z.eqb_eq in Hi.
  apply andb_true_iff in C. destruct C as [C Hu]. apply Z.eqb_eq in Hu.
  apply andb_true_iff in C. destruct C as [C Ha]. apply Bool.eqb_prop in Ha.
  apply andb_true_iff in C. destruct C as [Hd Hl].
  apply Bool.eqb_prop in Hd. apply Bool.eqb_prop in Hl.
  split; [| split; [| split; [| split; [| split]]]].
  - rewrite Hd, andb_true_iff, !Z.leb_le. tauto.
  - rewrite Hl, andb_true_iff, !Z.leb_le. tauto.
  - rewrite Ha, orb_true_iff, !andb_true_iff, !Z.leb_le. tauto.
  - unfold isalnum. apply orb_true_iff.
  - exact Hu.
  - exact Hi.
Qed.

Lemma ctype_classes_witness :
  0 <= ch "q" < 256 /\ toupper (ch "q") = ch "Q".
Proof.
  assert (H : 0 <= ch "q" < 256) by (cbn; lia).
  split; [exact H |].
  exact (proj1 (proj2 (proj2 (proj2 (proj2 (ctype_classes (ch "q") H)))))).
Defined.

(** ** The conversion of a number to five characters *)

(** The five rounds of the loop of [%5], one digit each. *)
Lemma fmt5_rounds n :
  0 <= n ->
  fmt5_loop 5 n [ch " "; ch " "; ch " "; ch " "; ch "0"; 0]
  = if n =? 0 then Some [ch " "; ch " "; ch " "; ch " "; ch "0"; 0]
    else if n <? 10 then Some [ch " "; ch " "; ch " "; ch " "; n + ch "0"; 0]
    else if n <? 100 then
           Some [ch " "; ch " "; ch " "; n / 10 + ch "0"; n mod 10 + ch "0"; 0]
    else if n <? 1000 then
           Some [ch " "; ch " "; n / 100 + ch "0"; n / 10 mod 10 + ch "0";
                 n mod 10 + ch "0"; 0]
    else if n <? 10000 then
           Some [ch " "; n / 1000 + ch "0"; n / 100 mod 10 + ch "0";
                 n / 10 mod 10 + ch "0"; n mod 10 + ch "0"; 0]
    else if n <? 100000 then
           Some [n / 10000 + ch "0"; n / 1000 mod 10 + ch "0"; n / 100 mod 10 + ch "0";
                 n / 10 mod 10 + ch "0"; n mod 10 + ch "0"; 0]
    else None.
Proof.
  intros H.
  assert (D2 : n / 10 / 10 = n / 100) by (rewrite Z.div_div by lia; reflexivity).
  assert (D3 : n / 100 / 10 = n / 1000) by (rewrite Z.div_div by lia; reflexivity).
  assert (D4 : n / 1000 / 10 = n / 10000) by (rewrite Z.div_div by lia; reflexivity).
  assert (D5 : n / 10000 / 10 = n / 100000) by (rewrite Z.div_div by lia; reflexivity).
  pose proof (Z.div_mod n 10 ltac:(lia)). pose proof (Z.mod_pos_bound n 10 ltac:(lia)).
  pose proof (Z.div_mod n 100 ltac:(lia)). pose proof (Z.mod_pos_bound n 100 ltac:(lia)).
  pose proof (Z.div_mod n 1000 ltac:(lia)). pose proof (Z.mod_pos_bound n 1000 ltac:(lia)).
  pose proof (Z.div_mod n 10000 ltac:(lia)). pose proof (Z.mod_pos_bound n 10000 ltac:(lia)).
  pose proof (Z.div_mod n 100000 ltac:(lia)).
  pose proof (Z.mod_pos_bound n 100000 ltac:(lia)).
  pose proof (Z.div_mod (n / 10) 10 ltac:(lia)).
  pose proof (Z.mod_pos_bound (n / 10) 10 ltac:(lia)).
  pose proof (Z.div_mod (n / 100) 10 ltac:(lia)).
  pose proof (Z.mod_pos_bound (n / 100) 10 ltac:(lia)).
  pose proof (Z.div_mod (n / 1000) 10 ltac:(lia)).
  pose proof (Z.mod_pos_bound (n / 1000) 10 ltac:(lia)).
  pose proof (Z.div_mod (n / 10000) 10 ltac:(lia)).
  pose proof (Z.mod_pos_bound (n / 10000) 10 ltac:(lia)).
  cbn [fmt5_loop upd]. rewrite D2, D3, D4, D5.
  destruct (Z.eqb_spec n 0) as [-> | N0]; [reflexivity |].
  destruct (Z.gtb_spec n 0); [| lia].
  destruct (Z.ltb_spec n 10).
  { destruct (Z.gtb_spec (n / 10) 0); [lia |]. replace (n mod 10) with n by lia. reflexivity. }
  destruct (Z.gtb_spec (n / 10) 0); [| lia].
  destruct (Z.ltb_spec n 100).
  { destruct (Z.gtb_spec (n / 100) 0); [lia |].
    replace (n / 10 mod 10) with (n / 10) by lia. reflexivity. }
  destruct (Z.gtb_spec (n / 100) 0); [| lia].
  destruct (Z.ltb_spec n 1000).
  { destruct (Z.gtb_spec (n / 1000) 0); [lia |].
    replace (n / 100 mod 10) with (n / 100) by lia. reflexivity. }
  destruct (Z.gtb_spec (n / 1000) 0); [| lia].
  destruct (Z.ltb_spec n 10000).
  { destruct (Z.gtb_spec (n / 10000) 0); [lia |].
    replace (n / 1000 mod 10) with (n / 1000) by lia. reflexivity. }
  destruct (Z.gtb_spec (n / 10000) 0); [| lia].
  destruct (Z.ltb_spec n 100000).
  { destruct (Z.gtb_spec (n / 100000) 0); [lia |].
    replace (n / 10000 mod 10) with (n / 10000) by lia. reflexivity. }
  destruct (Z.gtb_spec (n / 100000) 0); [reflexivity | lia].
Qed.

Lemma isdigit_digit d : 0 <= d < 10 -> isdigit (d + ch "0") = true.
Proof.
  intros H. unfold isdigit. replace (d + ch "0" - ch "0") with d by lia.
  rewrite uint32_small by lia. apply Z.ltb_lt. lia.
Qed.

Ltac fmt5_case k ds :=
  exists k, ds; split; [reflexivity |]; split; [reflexivity |];
  split; [discriminate |]; split;
  [repeat constructor; apply isdigit_digit; lia
  | unfold decimal; cbn [fold_left]; lia].

(** X19. The [%5] conversion of [fmt].  A number below 100000 is written in
    exactly five characters: blanks, then its decimal digits, at least one,
    which read back give the number.  For a number of six digits or more the
    loop moves its pointer before the start of the local array and writes
    there: the result is not defined. *)
Theorem fmt_5_exact (n : Z) :
  0 <= n < 4294967296 ->
  (n < 100000 ->
   exists k ds,
     fmt_5 n = Some (repeat (ch " ") k ++ ds) /\ (k + length ds = 5)%nat /\
     ds <> [] /\ Forall (fun c => isdigit c = true) ds /\ decimal ds = n) /\
  (100000 <= n -> fmt_5 n = None).
Proof.
  intros H. unfold fmt_5. rewrite uint32_small by exact H.
  rewrite fmt5_rounds by lia.
  pose proof (Z.div_mod n 10 ltac:(lia)). pose proof (Z.mod_pos_bound n 10 ltac:(lia)).
  pose proof (Z.div_mod (n / 10) 10 ltac:(lia)).
  pose proof (Z.mod_pos_bound (n / 10) 10 ltac:(lia)).
  pose proof (Z.div_mod (n / 100) 10 ltac:(lia)).
  pose proof (Z.mod_pos_bound (n / 100) 10 ltac:(lia)).
  pose proof (Z.div_mod (n / 1000) 10 ltac:(lia)).
  pose proof (Z.mod_pos_bound (n / 1000) 10 ltac:(lia)).
  pose proof (Z.div_mod (n / 10000) 10 ltac:(lia)).
  pose proof (Z.mod_pos_bound (n / 10000) 10 ltac:(lia)).
  assert (D2 : n / 10 / 10 = n / 100) by (rewrite Z.div_div by lia; reflexivity).
  assert (D3 : n / 100 / 10 = n / 1000) by (rewrite Z.div_div by lia; reflexivity).
  assert (D4 : n / 1000 / 10 = n / 10000) by (rewrite Z.div_div by lia; reflexivity).
  assert (D5 : n / 10000 / 10 = n / 100000) by (rewrite Z.div_div by lia; reflexivity).
  pose proof (Z.div_mod n 100000 ltac:(lia)).
  pose proof (Z.mod_pos_bound n 100000 ltac:(lia)).
  destruct (Z.eqb_spec n 0) as [N0 | N0].
  { split; [intros _ | lia]. fmt5_case 4%nat [ch "0"]. }
  destruct (Z.ltb_spec n 10).
  { split; [intros _ | lia]. fmt5_case 4%nat [n + ch "0"]. }
  destruct (Z.ltb_spec n 100).
  { split; [intros _ | lia]. fmt5_case 3%nat [n / 10 + ch "0"; n mod 10 + ch "0"]. }
  destruct (Z.ltb_spec n 1000).
  { split; [intros _ | lia].
    fmt5_case 2%nat [n / 100 + ch "0"; n / 10 mod 10 + ch "0"; n mod 10 + ch "0"]. }
  destruct (Z.ltb_spec n 10000).
  { split; [intros _ | lia].
    fmt5_case 1%nat [n / 1000 + ch "0"; n / 100 mod 10 + ch "0"; n / 10 mod 10 + ch "0";
                     n mod 10 + ch "0"]. }
  destruct (Z.ltb_spec n 100000).
  { split; [intros _ | lia].
    fmt5_case 0%nat [n / 10000 + ch "0"; n / 1000 mod 10 + ch "0"; n / 100 mod 10 + ch "0";
                     n / 10 mod 10 + ch "0"; n mod 10 + ch "0"]. }
  split; [lia | reflexivity].
Qed.

Lemma fmt_5_exact_witness :
  0 <= 1024 < 4294967296 /\ 1024 < 100000 /\
  exists k ds,
    fmt_5 1024 = Some (repeat (ch " ") k ++ ds) /\ (k + length ds = 5)%nat /\
    ds <> [] /\ Forall (fun c => isdigit c = true) ds /\ decimal ds = 1024.
Proof.
  assert (R : 0 <= 1024 < 4294967296) by lia.
  assert (L : 1024 < 100000) by lia.
  split; [exact R |]. split; [exact L |].
  exact (proj1 (fmt_5_exact 1024 R) L).
Defined.

(** ** Termination of a pass *)

(** X20. Every loop of a pass comes to an end.  The rounds allotted to the
    loops of the model (one more than the buffer has characters for the loop
    of [expr], for its depth of parentheses and for the loops of [.WORD] and
    [.BYTE], two more for the argument loop, three for the encoder) are never
    used up, whatever the files hold and in whatever state the pass starts:
    a pass returns, exits, or meets one of the two undefined behaviours, but
    never hangs. *)
Theorem pass_has_fuel (files : list (list Z)) (pass : Z) (last : bool) (s : state) :
  one_pass files pass last s <> NoFuel.
Proof. apply total_one_pass. Qed.

(** ** The input engine *)


Lemma file_lines_concat f : forall cur, concat (file_lines cur f) = rev cur ++ f.
Proof.
  induction f as [| c f IH]; intros cur; cbn [file_lines].
  - destruct cur; [reflexivity |]. cbn [concat]. now rewrite !app_nil_r.
  - destruct (c =? ch "010").
    + cbn [concat rev]. rewrite IH. cbn [rev app]. now rewrite <- app_assoc.
    + rewrite IH. cbn [rev]. now rewrite <- app_assoc.
Qed.

(** Each chunk is a line: not empty, and a newline only as its last
    character. *)
Lemma file_lines_chunks f : forall cur,
  Forall (fun c => c <> ch "010") cur ->
  Forall (fun l => l <> [] /\ Forall (fun c => c <> ch "010") (removelast l))
         (file_lines cur f).
Proof.
  induction f as [| c f IH]; intros cur H; cbn [file_lines].
  - destruct cur as [| x cur]; constructor; [| constructor].
    split.
    + intros E. apply (f_equal (@length Z)) in E. rewrite length_rev in E. discriminate.
    + apply Forall_forall. intros y Hy.
      assert (In y (rev (x :: cur))).
      { clear - Hy. induction (rev (x :: cur)) as [| a l IHl]; [contradiction |].
        destruct l; [contradiction |]. cbn [removelast] in Hy.
        destruct Hy as [-> | Hy]; [now left | right; auto]. }
      rewrite Forall_forall in H. apply H. now apply in_rev.
  - destruct (Z.eqb_spec c (ch "010")) as [-> | N].
    + constructor; [| apply IH; constructor].
      cbn [rev]. split; [destruct (rev cur); discriminate |].
      rewrite removelast_last. apply Forall_rev. exact H.
    + apply IH. constructor; assumption.
Qed.

(** X21. Reading lines.  The chunks successive calls of [readline] take from
    a file are its lines: put together again they are the file, none is
    empty, and a newline occurs in a chunk only as its last character.  A
    chunk shorter than the buffer is stored at its start and followed by the
    terminator, the buffer keeps its 128 characters and nothing else in the
    state changes; a chunk of 128 characters or more ends the run with "line
    is too long". *)
Theorem readline_lines (f chunk : list Z) (s : state) :
  length (buffer s) = 128%nat ->
  concat (file_lines [] f) = f /\
  Forall (fun l => l <> [] /\ Forall (fun c => c <> ch "010") (removelast l))
         (file_lines [] f) /\
  (Z.of_nat (length chunk) < MAX_LINE ->
   exists s',
     readline chunk s = Ok tt s' /\ s' = set_buffer s (buffer s') /\
     length (buffer s') = 128%nat /\
     firstn (S (length chunk)) (buffer s') = chunk ++ [0]) /\
  (MAX_LINE <= Z.of_nat (length chunk) ->
   readline chunk s = fatal "line is too long" s).
Proof.
  intros L. split; [apply (file_lines_concat f []) |].
  split; [apply file_lines_chunks; constructor |].
  unfold readline, MAX_LINE. split.
  - intros H. destruct (Z.geb_spec (Z.of_nat (length chunk)) 128); [lia |].
    eexists. split; [reflexivity |]. cbn [set_buffer buffer]. split; [reflexivity |].
    split.
    + rewrite length_app. cbn [length]. rewrite length_skipn. lia.
    + set (l := chunk ++ [0]).
      assert (E : S (length chunk) = (length l + 0)%nat)
        by (unfold l; rewrite length_app; cbn; lia).
      rewrite E.
      replace (chunk ++ 0 :: skipn (length l + 0) (buffer s))
        with (l ++ skipn (length l + 0) (buffer s))
        by (unfold l; now rewrite <- app_assoc).
      rewrite firstn_app_2. cbn [firstn]. apply app_nil_r.
  - intros H. destruct (Z.geb_spec (Z.of_nat (length chunk)) 128); [reflexivity | lia].
Qed.

Lemma readline_lines_witness :
  length (buffer initial_state) = 128%nat /\
  concat (file_lines [] (source [" NOP"; "X: BRA X"]%string))
  = source [" NOP"; "X: BRA X"]%string.
Proof.
  assert (L : length (buffer initial_state) = 128%nat) by reflexivity.
  split; [exact L |].
  exact (proj1 (readline_lines (source [" NOP"; "X: BRA X"]%string) [] initial_state L)).
Defined.

(** ** The end of a successful run *)

Lemma final_pass_closes files pass s s1 :
  one_pass files pass true s = Ok tt s1 ->
  exists s0, s1 = emit_done s0.
Proof.
  unfold one_pass, bind.
  destruct (when (negb (pass =? 0)) (modify output_to) s) as [[] sa | | |]; try discriminate.
  destruct (set_mark false sa) as [[] sb | | |]; try discriminate.
  destruct (assemble_files files pass true 0 sb) as [pc sc | | |]; try discriminate.
  cbn [when]. unfold modify. intros [= <-]. now exists sc.
Qed.

Lemma passes_close n files :
  forall pass last s p s',
    passes n files pass last s = Ok p s' -> errcount s' = 0 ->
    exists s0, s' = emit_done s0.
Proof.
  induction n as [| n IH]; intros pass last s p s'; cbn [passes]; [discriminate |].
  unfold bind at 1. unfold get at 1.
  destruct (Z.eqb_spec (errcount s) 0) as [E | E]; cbn [negb].
  - unfold bind at 1.
    destruct (one_pass files pass last s) as [[] s1 | | |] eqn:O; try discriminate.
    unfold bind at 1. unfold get at 1.
    destruct last.
    + unfold ret. intros [= _ <-] _. eapply final_pass_closes; eassumption.
    + apply IH.
  - unfold ret. intros [= _ <-] Z0. contradiction.
Qed.

(** X22. A run that succeeds closes the file.  If [main] returns 0, the last
    thing it did to the output was [emit_done] in a final pass: nothing is
    left pending, and the output file ends with the record [:00000001FF]
    that closes an Intel HEX file, written after the last data record. *)
Theorem success_closes_the_file (n : nat) (files : list (list Z)) (s s' : state) :
  main n files s = Ok 0 s' ->
  exists s0,
    s' = emit_done s0 /\ ofile s' = ofile (emit_flush s0) ++ end_record /\ pending s' = 0.
Proof.
  destruct files as [| f files]; [discriminate |].
  unfold main. unfold bind at 1.
  destruct (passes n (f :: files) 0 false s) as [p s1 | | |] eqn:P; try discriminate.
  unfold bind, get.
  destruct (Z.eqb_spec (errcount s1) 0) as [E | E]; cbn [negb ret modify];
    [| discriminate].
  intros [= <-]. destruct (passes_close _ _ _ _ _ _ _ P E) as [s0 ->].
  exists s0. split; [reflexivity |]. split; [reflexivity |].
  unfold emit_done. cbn [iprint set_image pending]. apply emit_flush_image.
Qed.

Lemma success_closes_the_file_witness :
  exists s',
    main 8 [source [" NOP"]%string] initial_state = Ok 0 s' /\
    exists s0,
      s' = emit_done s0 /\ ofile s' = ofile (emit_flush s0) ++ end_record /\
      pending s' = 0.
Proof.
  assert (H : exists s', main 8 [source [" NOP"]%string] initial_state = Ok 0 s')
    by (eexists; vm_compute; reflexivity).
  destruct H as [s' H]. exists s'. split; [exact H |].
  exact (success_closes_the_file 8 [source [" NOP"]%string] initial_state s' H).
Defined.
